(** * zkToolkit: commitments, Merkle membership proofs, range proofs, nullifiers

    A shallow embedding of the protocol composition layer of the toolkit
    (the [commit], [merkle], [range], [hash] and [nullifier] objects) together
    with the properties stated for it, and of the signature module ([sign])
    with the MiMC entry of [hash].

    Conventions of the embedding.
    - A JavaScript string is the list of its UTF-16 code units ([jsstring]).
    - A [Uint8Array] / [Buffer] is a [list byte].
    - A [bigint] is a [Z].
    - A call that may throw returns a [result]; loops that the source writes
      as [while] run on a fuel budget and report [OutOfFuel] when it is
      exhausted (the theorems show that the budget suffices).
    - The host functions whose full definition lies outside the repository
      (Unicode lower-casing, [Number(string)], [Math.log2]) and the Poseidon
      permutation are interfaces ([JsHost], [FieldHashOracle]), and so are
      the libraries of the signature module and of MiMC ([FieldValueOracle],
      [EddsaLibrary], [MimcOracle]); everything the toolkit itself computes
      is written out.
    - Randomness is an argument: a function that calls
      [crypto.randomBytes(32)] receives the bytes drawn. *)

From Stdlib Require Import ZArith List Lia QArith Qround Bool.
From Stdlib.Strings Require Import Byte String Ascii.
From Stdlib Require DecimalString.
From stdpp Require Import base decidable list countable gmap.
Import ListNotations.

Local Open Scope Z_scope.

(* ===================================================================== *)
(** * The JavaScript layer *)
(* ===================================================================== *)

Module Js.

(** ** Completion records *)

Inductive JsError : Type :=
| SyntaxError      (* BigInt("0xzz") *)
| RangeError       (* BigInt(1.5) *)
| TypeError        (* BigInt(undefined), undefined.toLowerCase() *)
| Error (msg : string).

Inductive result (A : Type) : Type :=
| Ok (a : A)
| Throw (e : JsError)
| OutOfFuel.
Arguments Ok {A} a.
Arguments Throw {A} e.
Arguments OutOfFuel {A}.

Definition bind {A B} (r : result A) (k : A -> result B) : result B :=
  match r with
  | Ok a => k a
  | Throw e => Throw e
  | OutOfFuel => OutOfFuel
  end.

Declare Scope js_scope.
Delimit Scope js_scope with js.
Notation "'let*' x ':=' r 'in' k" := (bind r (fun x => k))
  (at level 10, x name, r at level 100, k at level 200) : js_scope.

(** [Promise.all(xs.map(f))] / a [for] loop that pushes [f x] for each [x]:
    the first exception aborts the whole call. *)
Fixpoint mapM {A B} (f : A -> result B) (xs : list A) : result (list B) :=
  match xs with
  | [] => Ok []
  | x :: xs' =>
      bind (f x) (fun y => bind (mapM f xs') (fun ys => Ok (y :: ys)))
  end.

(** ** Strings *)

Abbreviation jsstring := (list Z).

(** A Rocq string literal read as a JavaScript string (each character one
    code unit). *)
Definition str (s : string) : jsstring :=
  map (fun a => Z.of_N (N_of_ascii a)) (list_ascii_of_string s).

(** [s.startsWith(p)] *)
Fixpoint startsWith (s p : jsstring) {struct p} : bool :=
  match p, s with
  | [], _ => true
  | _ :: _, [] => false
  | c :: p', d :: s' => (c =? d) && startsWith s' p'
  end.

(** [s.slice(a, b)] for [0 <= a <= b]. *)
Definition slice (s : jsstring) (a b : nat) : jsstring :=
  firstn (b - a) (skipn a s).

(** [s.slice(a)] *)
Definition sliceFrom (s : jsstring) (a : nat) : jsstring := skipn a s.

(** [s.padStart(n, c)] and [s.padEnd(n, c)] for a one-character filler. *)
Definition padStart (n : nat) (c : Z) (s : jsstring) : jsstring :=
  repeat c (n - length s) ++ s.
Definition padEnd (n : nat) (c : Z) (s : jsstring) : jsstring :=
  s ++ repeat c (n - length s).

(** ASCII lower-casing of one code unit. *)
Definition asciiLower (c : Z) : Z :=
  if (65 <=? c) && (c <=? 90) then c + 32 else c.

Definition isAscii (c : Z) : Prop := 0 <= c < 128.

(** ** Bytes and hexadecimal *)

Definition byteToZ (b : byte) : Z := Z.of_N (Byte.to_N b).

Definition byteOfZ (z : Z) : byte :=
  match Byte.of_N (Z.to_N (z mod 256)) with
  | Some b => b
  | None => x00
  end.

(** The code unit of the lower-case hexadecimal digit [d] ([0 <= d < 16]). *)
Definition hexDigit (d : Z) : Z :=
  if d <? 10 then 48 + d else 87 + d.

(** [b.toString(16)] for a byte. *)
Definition byteToString16 (b : byte) : jsstring :=
  let n := byteToZ b in
  if n <? 16 then [hexDigit n] else [hexDigit (n / 16); hexDigit (n mod 16)].

(** [b.toString(16).padStart(2, "0")] *)
Definition byteHex (b : byte) : jsstring := padStart 2 48 (byteToString16 b).

(** [Array.from(buffer).map(b => b.toString(16).padStart(2,"0")).join("")],
    which is also [buffer.toString("hex")]. *)
Definition hexOfBytes (buffer : list byte) : jsstring :=
  concat (map byteHex buffer).

(** [toHex(buffer)], the same function in every source file. *)
Definition toHex (buffer : list byte) : jsstring := str "0x" ++ hexOfBytes buffer.

(** ** [TextEncoder.encode]: UTF-8 of a UTF-16 code unit sequence *)

Definition isHighSurrogate (c : Z) : bool := (55296 <=? c) && (c <=? 56319).
Definition isLowSurrogate (c : Z) : bool := (56320 <=? c) && (c <=? 57343).

Definition utf8OfCodePoint (cp : Z) : list byte :=
  if cp <? 128 then [byteOfZ cp]
  else if cp <? 2048 then
    [byteOfZ (192 + cp / 64); byteOfZ (128 + cp mod 64)]
  else if cp <? 65536 then
    [byteOfZ (224 + cp / 4096); byteOfZ (128 + (cp / 64) mod 64);
     byteOfZ (128 + cp mod 64)]
  else
    [byteOfZ (240 + cp / 262144); byteOfZ (128 + (cp / 4096) mod 64);
     byteOfZ (128 + (cp / 64) mod 64); byteOfZ (128 + cp mod 64)].

(** A surrogate pair is one code point; a lone surrogate is encoded as
    U+FFFD. *)
Fixpoint encodeUtf8 (s : jsstring) : list byte :=
  match s with
  | [] => []
  | c :: rest =>
      if isHighSurrogate c then
        match rest with
        | d :: rest' =>
            if isLowSurrogate d then
              utf8OfCodePoint (65536 + (c - 55296) * 1024 + (d - 56320))
                ++ encodeUtf8 rest'
            else utf8OfCodePoint 65533 ++ encodeUtf8 rest
        | [] => utf8OfCodePoint 65533
        end
      else if isLowSurrogate c then utf8OfCodePoint 65533 ++ encodeUtf8 rest
      else utf8OfCodePoint c ++ encodeUtf8 rest
  end.

(** The loop shared by every string-to-field encoder:
    [for (let i = 0; i < bytes.length && i < 31; i++)
       result = result * BigInt(256) + BigInt(bytes[i]);]
    [steps] counts the iterations still allowed by [i < 31]. *)
Fixpoint accumulateLoop (steps i : nat) (bytes : list byte) (result : Z) : Z :=
  match steps with
  | O => result
  | S steps' =>
      match bytes !! i with
      | Some b => accumulateLoop steps' (S i) bytes (result * 256 + byteToZ b)
      | None => result
      end
  end.

Definition accumulateBytes (bytes : list byte) : Z :=
  accumulateLoop 31 0 bytes 0.

(** Array read [xs[i]] at a numeric index: [undefined] out of range. *)
Definition lookupZ {A} (xs : list A) (i : Z) : option A :=
  if i <? 0 then None else xs !! Z.to_nat i.

(** [xs.length] *)
Definition len {A} (xs : list A) : Z := Z.of_nat (length xs).

(** ** [BigInt(string)]: the StringToBigInt grammar *)

(** StrWhiteSpaceChar: WhiteSpace (TAB, VT, FF, ZWNBSP and the Zs category)
    and LineTerminator. *)
Definition isStrWhiteSpaceChar (c : Z) : bool :=
  (c =? 9) || (c =? 10) || (c =? 11) || (c =? 12) || (c =? 13) || (c =? 32)
  || (c =? 160) || (c =? 5760) || ((8192 <=? c) && (c <=? 8202))
  || (c =? 8232) || (c =? 8233) || (c =? 8239) || (c =? 8287)
  || (c =? 12288) || (c =? 65279).

Fixpoint dropWhile {A} (p : A -> bool) (l : list A) : list A :=
  match l with
  | [] => []
  | x :: l' => if p x then dropWhile p l' else l
  end.

Definition trimString (s : jsstring) : jsstring :=
  rev (dropWhile isStrWhiteSpaceChar (rev (dropWhile isStrWhiteSpaceChar s))).

(** The value of a digit in base 2, 8, 10 or 16 (letters only in base 16,
    either case). *)
Definition digitValue (base c : Z) : option Z :=
  let v :=
    if (48 <=? c) && (c <=? 57) then Some (c - 48)
    else if (97 <=? c) && (c <=? 102) then Some (c - 87)
    else if (65 <=? c) && (c <=? 70) then Some (c - 55)
    else None in
  match v with
  | Some d => if d <? base then Some d else None
  | None => None
  end.

Fixpoint parseDigitsFrom (base acc : Z) (ds : jsstring) : option Z :=
  match ds with
  | [] => Some acc
  | c :: ds' =>
      match digitValue base c with
      | Some d => parseDigitsFrom base (acc * base + d) ds'
      | None => None
      end
  end.

(** A non-empty run of digits and nothing else. *)
Definition parseDigits (base : Z) (ds : jsstring) : option Z :=
  match ds with
  | [] => None
  | _ => parseDigitsFrom base 0 ds
  end.

Definition StringToBigInt (s : jsstring) : option Z :=
  match trimString s with
  | [] => Some 0
  | 48 :: 120 :: ds | 48 :: 88 :: ds => parseDigits 16 ds
  | 48 :: 111 :: ds | 48 :: 79 :: ds => parseDigits 8 ds
  | 48 :: 98 :: ds | 48 :: 66 :: ds => parseDigits 2 ds
  | 43 :: ds => parseDigits 10 ds
  | 45 :: ds => Z.opp <$> parseDigits 10 ds
  | ds => parseDigits 10 ds
  end.

(** [BigInt(s)] for a string [s]. *)
Definition BigIntOfString (s : jsstring) : result Z :=
  match StringToBigInt s with
  | Some z => Ok z
  | None => Throw SyntaxError
  end.

(** [BigInt(x)] where [x] is an array element that may be [undefined]. *)
Definition BigIntOfElement (x : option jsstring) : result Z :=
  match x with
  | Some s => BigIntOfString s
  | None => Throw TypeError
  end.

(** ** Numbers *)

(** A [number]: NaN, an infinity, or a finite value. *)
Inductive jsnumber : Type :=
| NaN
| Infinity (negative : bool)
| Finite (q : Q).

(** [isNaN(n)] and [Number.isFinite(n)]. *)
Definition isNaN (n : jsnumber) : bool :=
  match n with NaN => true | _ => false end.
Definition isFinite (n : jsnumber) : bool :=
  match n with Finite _ => true | _ => false end.

(** [BigInt(n)]: a RangeError unless [n] is an integer. *)
Definition BigIntOfNumber (n : jsnumber) : result Z :=
  match n with
  | Finite q =>
      if (Qnum q mod Zpos (Qden q) =? 0) then Ok (Qfloor q)
      else Throw RangeError
  | _ => Throw RangeError
  end.

(** [Math.floor(n)] *)
Definition MathFloor (n : jsnumber) : jsnumber :=
  match n with
  | Finite q => Finite (inject_Z (Qfloor q))
  | other => other
  end.

(** [ToInt32], the operand conversion of [>>] and [&], on an integer. *)
Definition ToInt32 (n : Z) : Z :=
  let m := n mod 4294967296 in
  if m <? 2147483648 then m else m - 4294967296.

(** [a & b], [a >> b] on integer-valued numbers. *)
Definition bitAnd (a b : Z) : Z := Z.land (ToInt32 a) (ToInt32 b).
Definition shiftRight (a b : Z) : Z := Z.shiftr (ToInt32 a) (b mod 32).

(** The decimal value of a run of decimal digits. *)
Definition decimalValue (s : jsstring) : Z :=
  fold_left (fun acc c => acc * 10 + (c - 48)) s 0.

Definition isDecimalDigit (c : Z) : Prop := 48 <= c <= 57.

(** ** The host

    [toLowerCase] is Unicode lower-casing, [Number(s)] rounds to binary64
    and [Math.log2] is implementation-approximated; only the facts used
    below are recorded: on ASCII text lower-casing is the ASCII one, a run
    of at most 15 decimal digits denotes its exact value, and
    [MathCeilLog2 n], which stands for [Math.ceil(Math.log2(n))], is the
    exact ceiling of the binary logarithm for integers up to 2^33 (the
    engine's [log2] is exact on powers of two and far more precise than the
    gap between [log2(2^k + 1)] and [k] in that range).  [NumberToString]
    and [BigIntToString] are the [toString] methods, used for display
    fields only. *)
Class JsHost : Type := {
  toLowerCase : jsstring -> jsstring;
  StringToNumber : jsstring -> jsnumber;
  MathCeilLog2 : Z -> Z;
  NumberToString : jsnumber -> jsstring;
  BigIntToString : Z -> jsstring;
  toLowerCase_ascii :
    forall s, Forall isAscii s -> toLowerCase s = map asciiLower s;
  StringToNumber_digits :
    forall s, s <> [] -> Forall isDecimalDigit s -> (length s <= 15)%nat ->
      StringToNumber s = Finite (inject_Z (decimalValue s));
  MathCeilLog2_exact :
    forall n, 1 <= n <= 2 ^ 33 -> MathCeilLog2 n = Z.log2_up n;
}.

(** ** The field hash oracle

    [poseidon inputs] stands for [poseidon.F.fromMontgomery(poseidon(inputs))]:
    the 32-byte buffer of the digest. *)
Class FieldHashOracle : Type := {
  poseidon : list Z -> list byte;
  poseidon_length : forall inputs, length (poseidon inputs) = 32%nat;
}.

(** [toHex(poseidon.F.fromMontgomery(poseidon(inputs)))] *)
Definition poseidonHex `{FieldHashOracle} (inputs : list Z) : jsstring :=
  toHex (poseidon inputs).

End Js.

(* ===================================================================== *)
(** * The Merkle tree engine *)
(* ===================================================================== *)

Module Merkle.
Import Js.
Local Open Scope js_scope.

Record MerkleTree : Type := {
  root : option jsstring;          (* currentLevel[0] *)
  leaves : list jsstring;
  levels : list (list jsstring);
  depth : Z;
}.

Record MerkleProof : Type := {
  leaf : option jsstring;          (* tree.leaves[index] *)
  index : Z;
  pathElements : list (option jsstring);
  pathIndices : list Z;
  proofRoot : option jsstring;
}.

Record MerkleVerifyResult : Type := {
  valid : bool;
  computedRoot : jsstring;
  expectedRoot : jsstring;
  verifiedLeaf : jsstring;
}.

Section WithOracle.
Context {host : JsHost} {oracle : FieldHashOracle}.

Definition stringToFieldElement (input : jsstring) : result Z :=
  if startsWith input (str "0x") then BigIntOfString input
  else Ok (accumulateBytes (encodeUtf8 input)).

(** [while (paddedLeaves.length & (paddedLeaves.length - 1))
      paddedLeaves.push("0");] *)
Fixpoint padLoop (fuel : nat) (paddedLeaves : list jsstring)
  : result (list jsstring) :=
  if bitAnd (len paddedLeaves) (len paddedLeaves - 1) =? 0 then Ok paddedLeaves
  else
    match fuel with
    | O => OutOfFuel
    | S fuel' => padLoop fuel' (paddedLeaves ++ [str "0"])
    end.

(** [paddedLeaves.map(leaf => toHex(fromMontgomery(poseidon([field]))))] *)
Definition hashLeaf (leaf : jsstring) : result jsstring :=
  let* field := stringToFieldElement leaf in
  Ok (poseidonHex [field]).

(** The inner [for (i = 0; i < currentLevel.length; i += 2)] loop; reading
    [currentLevel[i + 1]] past the end gives [undefined], on which [BigInt]
    throws a TypeError. *)
Fixpoint hashPairs (currentLevel : list jsstring) : result (list jsstring) :=
  match currentLevel with
  | [] => Ok []
  | l :: [] =>
      let* left := BigIntOfString l in
      let* right := BigIntOfElement None in
      Ok [poseidonHex [left; right]]
  | l :: r :: rest =>
      let* left := BigIntOfString l in
      let* right := BigIntOfString r in
      let* nextLevel := hashPairs rest in
      Ok (poseidonHex [left; right] :: nextLevel)
  end.

(** [while (currentLevel.length > 1) { ...; levels.push(nextLevel);
      currentLevel = nextLevel; }] *)
Fixpoint buildLoop (fuel : nat) (currentLevel : list jsstring)
    (levels : list (list jsstring))
  : result (list jsstring * list (list jsstring)) :=
  if len currentLevel >? 1 then
    match fuel with
    | O => OutOfFuel
    | S fuel' =>
        let* nextLevel := hashPairs currentLevel in
        buildLoop fuel' nextLevel (levels ++ [nextLevel])
    end
  else Ok (currentLevel, levels).

(** [merkle.create(leaves)].  [depth] is [Math.log2] of a power of two. *)
Definition create (leaves : list jsstring) : result MerkleTree :=
  if len leaves =? 0 then
    Throw (Error "Cannot create Merkle tree with no leaves")
  else
    let* paddedLeaves := padLoop (length leaves) leaves in
    let paddedLeaves :=
      if len paddedLeaves =? 1 then paddedLeaves ++ [str "0"]
      else paddedLeaves in
    let* currentLevel := mapM hashLeaf paddedLeaves in
    let* built := buildLoop (length currentLevel) currentLevel [currentLevel] in
    Ok {| root := fst built !! 0%nat;
          leaves := paddedLeaves;
          levels := snd built;
          depth := Z.log2 (len paddedLeaves) |}.

(** The [for (level = 0; level < tree.levels.length - 1; level++)] loop of
    [merkle.proof]; [steps] is the number of iterations left. *)
Fixpoint proofLoop (steps level : nat) (lv : list (list jsstring))
    (currentIndex : Z) : result (list (option jsstring) * list Z) :=
  match steps with
  | O => Ok ([], [])
  | S steps' =>
      let isRightNode := Z.rem currentIndex 2 =? 1 in
      let siblingIndex :=
        if isRightNode then currentIndex - 1 else currentIndex + 1 in
      match lv !! level with
      | None => Throw TypeError
      | Some row =>
          let* path := proofLoop steps' (S level) lv (currentIndex / 2) in
          Ok (lookupZ row siblingIndex :: fst path,
              (if isRightNode then 1 else 0) :: snd path)
      end
  end.

(** [merkle.proof(tree, index)] for an integer index. *)
Definition proof (tree : MerkleTree) (index : Z) : result MerkleProof :=
  if (index <? 0) || (index >=? len (leaves tree)) then
    Throw (Error "Index out of bounds")
  else
    let* path :=
      proofLoop (length (levels tree) - 1) 0 (levels tree) index in
    Ok {| leaf := lookupZ (leaves tree) index;
          index := index;
          pathElements := fst path;
          pathIndices := snd path;
          proofRoot := root tree |}.

(** The [for (i = 0; i < proof.pathElements.length; i++)] loop of
    [merkle.verify]; [proof.pathIndices[i] === 0] is false for a missing
    entry. *)
Fixpoint verifyLoop (elements : list (option jsstring)) (i : nat)
    (pathIndices : list Z) (currentHex : jsstring) : result jsstring :=
  match elements with
  | [] => Ok currentHex
  | element :: elements' =>
      let* sibling := BigIntOfElement element in
      let* current := BigIntOfString currentHex in
      let currentIsLeft :=
        match pathIndices !! i with
        | Some 0 => true
        | _ => false
        end in
      let left := if currentIsLeft then current else sibling in
      let right := if currentIsLeft then sibling else current in
      verifyLoop elements' (S i) pathIndices (poseidonHex [left; right])
  end.

(** [merkle.verify(root, leaf, { pathElements, pathIndices })] *)
Definition verify (root leaf : jsstring)
    (pathElements : list (option jsstring)) (pathIndices : list Z)
  : result MerkleVerifyResult :=
  let* leafField := stringToFieldElement leaf in
  let* currentHex :=
    verifyLoop pathElements 0 pathIndices (poseidonHex [leafField]) in
  Ok {| valid := bool_decide (toLowerCase currentHex = toLowerCase root);
        computedRoot := currentHex;
        expectedRoot := root;
        verifiedLeaf := leaf |}.

End WithOracle.
End Merkle.

(* ===================================================================== *)
(** * The range proof engine *)
(* ===================================================================== *)

(** The [number] arguments of this module are integers in the safe range,
    where the arithmetic of the source is exact; they are modelled as [Z].
    The statements about this module say so in their hypotheses
    ([isSafeInteger], and at most 53 bits where a sum of bits is formed):
    outside that range the source rounds to binary64, and [BigInt] throws
    a RangeError on a number that is not an integer. *)
Module Range.
Import Js.
Local Open Scope js_scope.

Record RangeProof : Type := {
  valueCommitment : jsstring;
  min : Z;
  max : Z;
  bits : list Z;
  bitCommitments : list jsstring;
  salt : jsstring;
  valid : bool;
}.

Record RangeChecks : Type := {
  bitsAreBinary : bool;
  valueInRange : bool;
  commitmentsMatch : bool;
}.

Record RangeVerifyResult : Type := {
  verifyValid : bool;
  verifyMin : Z;
  verifyMax : Z;
  checks : RangeChecks;
}.

(** [Number.isSafeInteger] *)
Definition isSafeInteger (n : Z) : Prop :=
  - 9007199254740991 <= n <= 9007199254740991.

(** [generateSalt()], given the bytes drawn by [crypto.randomBytes(32)]. *)
Definition generateSalt (randomBytes : list byte) : jsstring :=
  str "0x" ++ hexOfBytes randomBytes.

Section WithOracle.
Context {host : JsHost} {oracle : FieldHashOracle}.

(** The [for (let i = 0; i < bitWidth; i++)] loop of [range.prove]. *)
Fixpoint proveLoop (steps : nat) (i : Z) (normalizedValue saltBigInt : Z)
  : list Z * list jsstring :=
  match steps with
  | O => ([], [])
  | S steps' =>
      let bit := bitAnd (shiftRight normalizedValue i) 1 in
      let rest := proveLoop steps' (i + 1) normalizedValue saltBigInt in
      (bit :: fst rest, poseidonHex [bit; saltBigInt; i] :: snd rest)
  end.

(** [range.prove(value, min, max)] *)
Definition prove (value min max : Z) (randomBytes : list byte)
  : result RangeProof :=
  if (value <? min) || (value >? max) then
    Ok {| valueCommitment := str "0x0"; min := min; max := max;
          bits := []; bitCommitments := []; salt := str "0x0";
          valid := false |}
  else
    let rangeSize := max - min in
    let bitWidth := Z.max 1 (MathCeilLog2 (rangeSize + 1)) in
    let normalizedValue := value - min in
    let salt := generateSalt randomBytes in
    let* saltBigInt := BigIntOfString salt in
    let valueCommitmentHex := poseidonHex [value; saltBigInt] in
    let decomposition :=
      proveLoop (Z.to_nat bitWidth) 0 normalizedValue saltBigInt in
    Ok {| valueCommitment := valueCommitmentHex; min := min; max := max;
          bits := fst decomposition; bitCommitments := snd decomposition;
          salt := salt; valid := true |}.

(** [normalizedValue += proof.bits[i] * 2 ** i] for each [i]. *)
Fixpoint reconstructLoop (bits : list Z) (i : Z) (normalizedValue : Z) : Z :=
  match bits with
  | [] => normalizedValue
  | bit :: bits' => reconstructLoop bits' (i + 1) (normalizedValue + bit * 2 ^ i)
  end.

(** The bit-commitment loop of [range.verify], leaving at the first
    mismatch; [proof.bitCommitments[i].toLowerCase()] is a TypeError when
    the entry is missing. *)
Fixpoint commitmentsLoop (bits : list Z) (i : nat)
    (bitCommitments : list jsstring) (saltBigInt : Z) : result bool :=
  match bits with
  | [] => Ok true
  | bit :: bits' =>
      let expectedCommitmentHex := poseidonHex [bit; saltBigInt; Z.of_nat i] in
      match bitCommitments !! i with
      | None => Throw TypeError
      | Some given =>
          if bool_decide
               (toLowerCase expectedCommitmentHex <> toLowerCase given)
          then Ok false
          else commitmentsLoop bits' (S i) bitCommitments saltBigInt
      end
  end.

Definition rejected (proof : RangeProof) (binary : bool) : RangeVerifyResult :=
  {| verifyValid := false; verifyMin := min proof; verifyMax := max proof;
     checks := {| bitsAreBinary := binary; valueInRange := false;
                  commitmentsMatch := false |} |}.

(** [range.verify(proof)] *)
Definition verify (proof : RangeProof) : result RangeVerifyResult :=
  if negb (valid proof) || (len (bits proof) =? 0) then
    Ok (rejected proof false)
  else
    let bitsAreBinary :=
      forallb (fun bit => (bit =? 0) || (bit =? 1)) (bits proof) in
    if negb bitsAreBinary then Ok (rejected proof false)
    else
      let normalizedValue := reconstructLoop (bits proof) 0 0 in
      let reconstructedValue := normalizedValue + min proof in
      let valueInRange :=
        (reconstructedValue >=? min proof)
        && (reconstructedValue <=? max proof) in
      if negb valueInRange then Ok (rejected proof true)
      else
        let* saltBigInt := BigIntOfString (salt proof) in
        let* bitsMatch :=
          commitmentsLoop (bits proof) 0 (bitCommitments proof) saltBigInt in
        let commitmentsMatch :=
          if bitsMatch then
            let expectedValueCommitmentHex :=
              poseidonHex [reconstructedValue; saltBigInt] in
            if bool_decide
                 (toLowerCase expectedValueCommitmentHex
                  <> toLowerCase (valueCommitment proof))
            then false else true
          else false in
        Ok {| verifyValid := bitsAreBinary && valueInRange && commitmentsMatch;
              verifyMin := min proof; verifyMax := max proof;
              checks := {| bitsAreBinary := bitsAreBinary;
                           valueInRange := valueInRange;
                           commitmentsMatch := commitmentsMatch |} |}.

(** [range.proveGreaterThan] and [range.proveLessThan] *)
Definition proveGreaterThan (value threshold : Z) (randomBytes : list byte)
  : result RangeProof :=
  let MAX_SAFE := 2 ^ 32 in
  prove value (threshold + 1) MAX_SAFE randomBytes.

Definition proveLessThan (value threshold : Z) (randomBytes : list byte)
  : result RangeProof :=
  prove value 0 (threshold - 1) randomBytes.

End WithOracle.
End Range.

(* ===================================================================== *)
(** * The commitment scheme *)
(* ===================================================================== *)

Module Commit.
Import Js.
Local Open Scope js_scope.

(** The argument type [string | number | bigint]. *)
Inductive jsvalue : Type :=
| VString (s : jsstring)
| VNumber (n : jsnumber)
| VBigInt (z : Z).

Record CommitmentResult : Type := {
  commitment : jsstring;
  salt : jsstring;
  value : jsstring;
  algorithm : string;
}.

Record RevealResult : Type := {
  valid : bool;
  revealCommitment : jsstring;
  revealedValue : jsstring;
  revealSalt : jsstring;
}.

Record VerifyResult : Type := {
  verifyValid : bool;
  verifyCommitment : jsstring;
  expectedCommitment : jsstring;
}.

(** [generateSalt()], given the bytes drawn by [crypto.randomBytes(32)]. *)
Definition generateSalt (randomBytes : list byte) : jsstring :=
  str "0x" ++ hexOfBytes randomBytes.

(** ["0x" + Buffer.from(secret).toString("hex").padEnd(64, "0").slice(0, 64)] *)
Definition saltOfSecret (secret : jsstring) : jsstring :=
  str "0x" ++ slice (padEnd 64 48 (hexOfBytes (encodeUtf8 secret))) 0 64.

Definition hexToFieldElement (hex : jsstring) : result Z :=
  let cleanHex := if startsWith hex (str "0x") then sliceFrom hex 2 else hex in
  BigIntOfString (str "0x" ++ cleanHex).

Section WithOracle.
Context {host : JsHost} {oracle : FieldHashOracle}.

Definition valueToString (value : jsvalue) : jsstring :=
  match value with
  | VString s => s
  | VNumber n => NumberToString n
  | VBigInt z => BigIntToString z
  end.

Definition valueToFieldElement (value : jsvalue) : result Z :=
  match value with
  | VBigInt z => Ok z
  | VNumber n => BigIntOfNumber n
  | VString s =>
      if startsWith s (str "0x") then BigIntOfString s
      else
        let num := StringToNumber s in
        if negb (isNaN num) && isFinite num then BigIntOfNumber (MathFloor num)
        else Ok (accumulateBytes (encodeUtf8 s))
  end.

(** [commit.create(value, secret?)]: an absent or empty [secret] is falsy. *)
Definition create (value : jsvalue) (secret : option jsstring)
    (randomBytes : list byte) : result CommitmentResult :=
  let salt :=
    match secret with
    | Some (c :: s) => saltOfSecret (c :: s)
    | Some [] | None => generateSalt randomBytes
    end in
  let* valueField := valueToFieldElement value in
  let* saltField := hexToFieldElement salt in
  Ok {| commitment := poseidonHex [valueField; saltField];
        salt := salt;
        value := valueToString value;
        algorithm := "Pedersen-Poseidon" |}.

(** [commit.reveal(commitment, value, secret)] *)
Definition reveal (commitment : jsstring) (value : jsvalue)
    (secret : jsstring) : result RevealResult :=
  let salt := saltOfSecret secret in
  let* valueField := valueToFieldElement value in
  let* saltField := hexToFieldElement salt in
  let recomputedHex := poseidonHex [valueField; saltField] in
  Ok {| valid :=
          bool_decide (toLowerCase recomputedHex = toLowerCase commitment);
        revealCommitment := commitment;
        revealedValue := valueToString value;
        revealSalt := salt |}.

(** [commit.verify(commitment, value, salt)] *)
Definition verify (commitment : jsstring) (value : jsvalue) (salt : jsstring)
  : result VerifyResult :=
  let* valueField := valueToFieldElement value in
  let* saltField := hexToFieldElement salt in
  let expectedHex := poseidonHex [valueField; saltField] in
  Ok {| verifyValid :=
          bool_decide (toLowerCase expectedHex = toLowerCase commitment);
        verifyCommitment := commitment;
        expectedCommitment := expectedHex |}.

End WithOracle.
End Commit.

(* ===================================================================== *)
(** * The hash front end *)
(* ===================================================================== *)

Module Hash.
Import Js.

(** This encoder has no ["0x"] case. *)
Definition stringToFieldElement (input : jsstring) : Z :=
  accumulateBytes (encodeUtf8 input).

Section WithOracle.
Context {oracle : FieldHashOracle}.

(** The digest of [hash.poseidon(input)] for an array and for one string.
    The [poseidon] function of circomlibjs takes 1 to 16 inputs and throws
    an Error ("Invalid poseidon size") on any other number of them. *)
Definition poseidonOfArray (input : list jsstring) : result jsstring :=
  let inputs := map stringToFieldElement input in
  if (1 <=? len inputs) && (len inputs <=? 16) then Ok (poseidonHex inputs)
  else Throw (Error "Invalid poseidon size").
Definition poseidonOfString (input : jsstring) : jsstring :=
  poseidonHex [stringToFieldElement input].

End WithOracle.
End Hash.

(* ===================================================================== *)
(** * The nullifier registry *)
(* ===================================================================== *)

Module Nullifier.
Import Js.
Local Open Scope js_scope.

Record NullifierResult : Type := {
  nullifier : jsstring;
  resultScope : jsstring;
  algorithm : string;
}.

Record NullifierVerifyResult : Type := {
  valid : bool;
  verifiedNullifier : jsstring;
  expectedNullifier : jsstring;
  verifyScope : jsstring;
}.

(** The one mutable object of the toolkit: a [Set<string>] with its
    bookkeeping. *)
Record NullifierSet : Type := {
  nullifiers : gset jsstring;
  scope : jsstring;
  size : Z;
}.

(** A method that receives the set by reference is a state transformer on
    the set object. *)
Definition SetOp (A : Type) : Type := NullifierSet -> A * NullifierSet.

Section WithOracle.
Context {host : JsHost} {oracle : FieldHashOracle}.

Definition stringToFieldElement (input : jsstring) : result Z :=
  if startsWith input (str "0x") then BigIntOfString input
  else Ok (accumulateBytes (encodeUtf8 input)).

(** [nullifier.create(secret, scope)] *)
Definition create (secret scope : jsstring) : result NullifierResult :=
  let* secretField := stringToFieldElement secret in
  let* scopeField := stringToFieldElement scope in
  Ok {| nullifier := poseidonHex [secretField; scopeField];
        resultScope := scope;
        algorithm := "Poseidon" |}.

(** [nullifier.verify(nullifierHash, secret, scope)] *)
Definition verify (nullifierHash secret scope : jsstring)
  : result NullifierVerifyResult :=
  let* secretField := stringToFieldElement secret in
  let* scopeField := stringToFieldElement scope in
  let expected := poseidonHex [secretField; scopeField] in
  Ok {| valid := bool_decide (toLowerCase expected = toLowerCase nullifierHash);
        verifiedNullifier := nullifierHash;
        expectedNullifier := expected;
        verifyScope := scope |}.

(** [nullifier.createSet(scope)] *)
Definition createSet (scope : jsstring) : NullifierSet :=
  {| nullifiers := ∅; scope := scope; size := 0 |}.

(** [nullifier.addToSet(set, nullifierHash)] *)
Definition addToSet (nullifierHash : jsstring) : SetOp bool :=
  fun set =>
    let normalizedHash := toLowerCase nullifierHash in
    if bool_decide (normalizedHash ∈ nullifiers set) then (false, set)
    else
      let added := nullifiers set ∪ {[ normalizedHash ]} in
      (true, {| nullifiers := added; scope := scope set;
                size := Z.of_nat (base.size added) |}).

(** [nullifier.isInSet(set, nullifierHash)] *)
Definition isInSet (nullifierHash : jsstring) : SetOp bool :=
  fun set => (bool_decide (toLowerCase nullifierHash ∈ nullifiers set), set).

(** A run of [addToSet] calls on one set: the returned flags, in call
    order, and the final set. *)
Fixpoint addAll (hashes : list jsstring) : SetOp (list bool) :=
  fun set =>
    match hashes with
    | [] => ([], set)
    | h :: hashes' =>
        let (flag, set') := addToSet h set in
        let (flags, set'') := addAll hashes' set' in
        (flag :: flags, set'')
    end.

(** [nullifier.createBatch(secret, scopes)] *)
Definition createBatch (secret : jsstring) (scopes : list jsstring)
  : result (list NullifierResult) :=
  mapM (fun scope => create secret scope) scopes.

End WithOracle.

(** [nullifier.generateSecret()], given the bytes drawn by
    [crypto.randomBytes(32)]. *)
Definition generateSecret (randomBytes : list byte) : jsstring :=
  str "0x" ++ hexOfBytes randomBytes.

End Nullifier.

(* ===================================================================== *)
(** * The signature module *)
(* ===================================================================== *)

Module Sign.
Import Js.
Local Open Scope js_scope.

(** ** Host functions of this module *)

(** [Buffer.from(s, "hex")]: Node decodes two code units at a time,
    reading each code unit through its low byte only (so U+0131 counts as
    the digit "1"), and stops at the first pair whose low bytes are not two
    hexadecimal digits; a trailing single code unit is dropped. *)
Fixpoint BufferFromHex (s : jsstring) : list byte :=
  match s with
  | hi :: lo :: rest =>
      match digitValue 16 (hi mod 256), digitValue 16 (lo mod 256) with
      | Some h, Some l => byteOfZ (16 * h + l) :: BufferFromHex rest
      | _, _ => []
      end
  | _ => []
  end.

(** The digits of [z.toString(16)] for [0 <= z], most significant first;
    [fuel] is at least the number of digits. *)
Fixpoint toString16Loop (fuel : nat) (z : Z) (digits : jsstring) : jsstring :=
  match fuel with
  | O => digits
  | S fuel' =>
      if z <? 16 then hexDigit z :: digits
      else toString16Loop fuel' (z / 16) (hexDigit (z mod 16) :: digits)
  end.

(** [z.toString(16)] for a bigint. *)
Definition BigIntToString16 (z : Z) : jsstring :=
  if z <? 0 then 45 :: toString16Loop (S (Z.to_nat (Z.log2 (- z)))) (- z) []
  else toString16Loop (S (Z.to_nat (Z.log2 z))) z [].

(** [try { body } catch { handler }] *)
Definition catch {A} (body handler : result A) : result A :=
  match body with
  | Throw _ => handler
  | other => other
  end.

(** A call into a library: it returns or throws. *)
Definition call {A} (outcome : JsError + A) : result A :=
  match outcome with
  | inl e => Throw e
  | inr a => Ok a
  end.

(** ** The libraries

    [poseidonField inputs] is the canonical value of the field element
    [poseidon(inputs)], the number that [poseidon.F.toString] prints; an
    input is a bigint or the field element of an earlier call, given by
    its value.  The values lie below the field modulus, itself below
    2^254. *)
Class FieldValueOracle : Type := {
  poseidonField : list Z -> Z;
  poseidonField_range : forall inputs, 0 <= poseidonField inputs < 2 ^ 254;
}.

(** The [EdDSA] and [BabyJub] objects of circomlibjs, with
    [babyjub.F.toString] on the two coordinates of a point. *)
Class EddsaLibrary : Type := {
  point : Type;
  prv2pub : list byte -> JsError + point;
  signPoseidon : list byte -> Z -> JsError + (point * Z);
  verifyPoseidon : Z -> point * Z -> point -> JsError + bool;
  packPoint : point -> JsError + list byte;
  unpackPoint : list byte -> JsError + option point;
  coordinateStrings : point -> JsError + (jsstring * jsstring);
}.

(** ** The records *)

Record Keypair : Type := {
  privateKey : jsstring;
  keypairPublicKey : jsstring;
  publicKeyXY : jsstring * jsstring;
}.

Record Signature : Type := {
  R8 : jsstring;
  signatureS : jsstring;
  message : jsstring;
  messageHash : jsstring;
  publicKey : jsstring;
}.

Record SignVerifyResult : Type := {
  valid : bool;
  verifiedMessage : jsstring;
  verifiedPublicKey : jsstring;
}.

(** ** Helpers *)

Definition bufferToHex (buffer : list byte) : jsstring :=
  str "0x" ++ hexOfBytes buffer.

Definition hexToBuffer (hex : jsstring) : list byte :=
  let cleanHex := if startsWith hex (str "0x") then sliceFrom hex 2 else hex in
  BufferFromHex cleanHex.

(** [fieldToHex(poseidon, fieldElement)], on the value of the element. *)
Definition fieldToHex (fieldValue : Z) : jsstring :=
  str "0x" ++ padStart 64 48 (BigIntToString16 fieldValue).

(** The inner loop [for (j = 0; j < chunk.length; j++)
      chunkValue = chunkValue * BigInt(256) + BigInt(chunk[j]);] *)
Definition chunkValue (chunk : list byte) : Z :=
  fold_left (fun value b => value * 256 + byteToZ b) chunk 0.

(** [for (let i = 0; i < bytes.length; i += 31)
      chunks.push(chunkValue of bytes.slice(i, i + 31));]
    [steps] bounds the iterations left. *)
Fixpoint chunkLoop (steps i : nat) (bytes : list byte) : list Z :=
  match steps with
  | O => []
  | S steps' =>
      if (i <? length bytes)%nat then
        chunkValue (firstn 31 (skipn i bytes))
          :: chunkLoop steps' (i + 31) bytes
      else []
  end.

(** The chunks of [hashMessage], with the [BigInt(0)] pushed for a message
    without bytes. *)
Definition messageChunks (message : jsstring) : list Z :=
  let bytes := encodeUtf8 message in
  match chunkLoop (length bytes) 0 bytes with
  | [] => [0]
  | chunks => chunks
  end.

Section WithLibraries.
Context {host : JsHost} {field : FieldValueOracle}.

(** [for (let i = 16; i < chunks.length; i += 15)
      currentHash = poseidon([currentHash,
                              ...chunks.slice(i, Math.min(i + 15, chunks.length))]);] *)
Fixpoint batchLoop (steps i : nat) (chunks : list Z) (currentHash : Z) : Z :=
  match steps with
  | O => currentHash
  | S steps' =>
      if (i <? length chunks)%nat then
        let batch :=
          firstn (Nat.min (i + 15) (length chunks) - i) (skipn i chunks) in
        batchLoop steps' (i + 15) chunks (poseidonField (currentHash :: batch))
      else currentHash
  end.

(** [hashMessage(poseidon, message)] *)
Definition hashMessage (message : jsstring) : result Z :=
  let chunks := messageChunks message in
  let currentHash :=
    poseidonField (firstn (Nat.min (length chunks) 16) chunks) in
  let currentHash := batchLoop (length chunks) 16 chunks currentHash in
  BigIntOfString (fieldToHex currentHash).

(** [initEddsaAndBabyjub()]: [lib] is what circomlibjs provides. *)
Definition initEddsaAndBabyjub (lib : option EddsaLibrary)
  : result EddsaLibrary :=
  match lib with
  | Some eddsa => Ok eddsa
  | None => Throw (Error "EdDSA not available")
  end.

(** [sign.isEddsaAvailable()] *)
Definition isEddsaAvailable (lib : option EddsaLibrary) : result bool :=
  catch (let* _ := initEddsaAndBabyjub lib in Ok true) (Ok false).

(** [sign.generateKeypair()], given the bytes drawn by
    [crypto.randomBytes(32)]. *)
Definition generateKeypair (lib : option EddsaLibrary)
    (privateKeyBytes : list byte) : result Keypair :=
  let* eddsa := initEddsaAndBabyjub lib in
  let privateKeyHex := bufferToHex privateKeyBytes in
  let* publicKey := call (prv2pub privateKeyBytes) in
  let* packedPubKey := call (packPoint publicKey) in
  let* xy := call (coordinateStrings publicKey) in
  Ok {| privateKey := privateKeyHex;
        keypairPublicKey := bufferToHex packedPubKey;
        publicKeyXY := xy |}.

(** [sign.sign(message, privateKey)] *)
Definition sign (lib : option EddsaLibrary) (message privateKey : jsstring)
  : result Signature :=
  let* eddsa := initEddsaAndBabyjub lib in
  let privKeyHex :=
    if startsWith privateKey (str "0x") then sliceFrom privateKey 2
    else privateKey in
  let privKeyBytes := BufferFromHex privKeyHex in
  let* msgBigInt := hashMessage message in
  let messageHashHex :=
    str "0x" ++ padStart 64 48 (BigIntToString16 msgBigInt) in
  let* publicKey := call (prv2pub privKeyBytes) in
  let* packedPubKey := call (packPoint publicKey) in
  let* signature := call (signPoseidon privKeyBytes msgBigInt) in
  let* packedR8 := call (packPoint (fst signature)) in
  Ok {| R8 := bufferToHex packedR8;
        signatureS := BigIntToString (snd signature);
        message := message;
        messageHash := messageHashHex;
        publicKey := bufferToHex packedPubKey |}.

(** [sign.verify(message, signature, publicKey)] *)
Definition verify (lib : option EddsaLibrary) (message : jsstring)
    (signature : Signature) (publicKey : jsstring) : result SignVerifyResult :=
  let* eddsa := initEddsaAndBabyjub lib in
  let answer (valid : bool) :=
    {| valid := valid; verifiedMessage := message;
       verifiedPublicKey := publicKey |} in
  catch
    (let* expectedMsgBigInt := hashMessage message in
     let expectedHashHex :=
       str "0x" ++ padStart 64 48 (BigIntToString16 expectedMsgBigInt) in
     if bool_decide (toLowerCase expectedHashHex
                     <> toLowerCase (messageHash signature))
     then Ok (answer false)
     else
       let packedPubKeyBytes := hexToBuffer publicKey in
       let* pubKeyPoint := call (unpackPoint packedPubKeyBytes) in
       match pubKeyPoint with
       | None => Ok (answer false)
       | Some pubKeyPoint =>
           let packedR8Bytes := hexToBuffer (R8 signature) in
           let* R8Point := call (unpackPoint packedR8Bytes) in
           match R8Point with
           | None => Ok (answer false)
           | Some R8Point =>
               let* s := BigIntOfString (signatureS signature) in
               let sig := (R8Point, s) in
               let* msgBigInt := BigIntOfString (messageHash signature) in
               let* valid := call (verifyPoseidon msgBigInt sig pubKeyPoint) in
               Ok (answer valid)
           end
       end)
    (Ok (answer false)).

(** [sign.derivePublicKey(privateKey)] *)
Definition derivePublicKey (lib : option EddsaLibrary) (privateKey : jsstring)
  : result jsstring :=
  let* eddsa := initEddsaAndBabyjub lib in
  let privKeyHex :=
    if startsWith privateKey (str "0x") then sliceFrom privateKey 2
    else privateKey in
  let privKeyBytes := BufferFromHex privKeyHex in
  let* publicKey := call (prv2pub privKeyBytes) in
  let* packedPubKey := call (packPoint publicKey) in
  Ok (bufferToHex packedPubKey).

End WithLibraries.
End Sign.

(* ===================================================================== *)
(** * The MiMC entry of the hash front end *)
(* ===================================================================== *)

Module Mimc.
Import Js.

(** [multiHash inputs key] is the canonical value of the field element
    [mimc.multiHash(inputs, key)], the number that [mimc.F.toString]
    prints; it lies below the field modulus, itself below 2^254. *)
Class MimcOracle : Type := {
  multiHash : list Z -> Z -> Z;
  multiHash_range : forall inputs key, 0 <= multiHash inputs key < 2 ^ 254;
}.

Record MimcResult : Type := {
  hash : jsstring;
  algorithm : string;
  input : jsstring;
  key : jsstring;
}.

Section WithOracle.
Context {oracle : MimcOracle}.

(** [hash.mimc(input, key?)]: an absent or empty [key] is falsy. *)
Definition mimc (input : jsstring) (key : option jsstring) : MimcResult :=
  let inputField := Hash.stringToFieldElement input in
  let keyField :=
    match key with
    | Some (c :: k) => Hash.stringToFieldElement (c :: k)
    | Some [] | None => 0
    end in
  let hashResult := multiHash [inputField] keyField in
  let hashHex :=
    str "0x" ++ padStart 64 48 (Sign.BigIntToString16 hashResult) in
  {| hash := hashHex;
     algorithm := "MiMC";
     input := input;
     key := match key with
            | Some (c :: k) => c :: k
            | Some [] | None => str "0"
            end |}.

End WithOracle.
End Mimc.

(* ===================================================================== *)
(** * Vocabulary of the statements *)
(* ===================================================================== *)

(** Characters of a lower-case hexadecimal literal: digits and [a-z]. *)
Definition isLowerAlnum (c : Z) : Prop := 48 <= c <= 57 \/ 97 <= c <= 122.

(** The value [BigInt] reads back from [toHex]: the bytes as a big-endian
    numeral. *)
Definition bytesValueFrom (acc : Z) (bs : list byte) : Z :=
  fold_left (fun a b => a * 256 + Js.byteToZ b) bs acc.

(** The big-endian base-256 value of a byte sequence, by positional
    weights. *)
Fixpoint bigEndian (bs : list byte) : Z :=
  match bs with
  | [] => 0
  | b :: bs' => Js.byteToZ b * 256 ^ Z.of_nat (length bs') + bigEndian bs'
  end.

(** The levels that the building loop stacks on top of a level: each one
    the pairwise hashes of the one below, up to a level of at most one
    node. *)
Inductive Chain {oracle : Js.FieldHashOracle}
  : list Js.jsstring -> list (list Js.jsstring) -> list Js.jsstring -> Prop :=
| Chain_top cur :
    (length cur <= 1)%nat -> Chain cur [] cur
| Chain_step cur next rest top :
    (1 < length cur)%nat ->
    Merkle.hashPairs cur = Js.Ok next ->
    Chain next rest top ->
    Chain cur (next :: rest) top.

(** A node value produced by the oracle. *)
Definition isDigest {oracle : Js.FieldHashOracle} (s : Js.jsstring) : Prop :=
  exists inputs, s = Js.poseidonHex inputs.

(** A path element that [BigInt] accepts: a string, holding a literal of
    the StringToBigInt grammar. *)
Definition parsableElement (element : option Js.jsstring) : Prop :=
  exists z, Js.BigIntOfElement element = Js.Ok z.

(** The field element that the spec assigns to a plain string: the
    big-endian value of the first 31 bytes of its UTF-8 encoding. *)
Definition first31BytesValue (s : Js.jsstring) : Z :=
  bigEndian (firstn 31 (Js.encodeUtf8 s)).

(** [Number(s)] is NaN or an infinity: the case in which the commitment
    encoder falls through to the byte loop. *)
Definition notANumber {host : Js.JsHost} (s : Js.jsstring) : Prop :=
  negb (Js.isNaN (Js.StringToNumber s)) && Js.isFinite (Js.StringToNumber s)
  = false.

(** A hexadecimal digit, in either case. *)
Definition isHexChar (c : Z) : Prop :=
  exists d, Js.digitValue 16 c = Some d.

(** A string on which the Merkle and nullifier encoders do not throw. *)
Definition encodable (s : Js.jsstring) : Prop :=
  Js.startsWith s (Js.str "0x") = true ->
  exists z, Js.BigIntOfString s = Js.Ok z.

(** The number whose binary digits, least significant first, are [bits]. *)
Fixpoint binaryValue (bits : list Z) : Z :=
  match bits with
  | [] => 0
  | b :: bits' => b + 2 * binaryValue bits'
  end.

(** The 32 bytes that the commitment scheme keeps of a secret: its UTF-8
    encoding, zero-filled on the right and cut at 32 bytes. *)
Definition secretBytes (secret : Js.jsstring) : list byte :=
  firstn 32 (Js.encodeUtf8 secret ++ repeat "000"%byte 32).

(* ===================================================================== *)
(** * A sample host and a sample oracle *)
(* ===================================================================== *)

(** Concrete instances on which the definitions above can be run.  The
    sample host agrees with JavaScript on ASCII text and on plain runs of
    decimal digits, which is all the examples use; the sample oracle is an
    arbitrary 32-byte mixing function, not Poseidon. *)
Module Sample.
Import Js.

Definition lowerCase (s : jsstring) : jsstring := map asciiLower s.

Definition isDecimalDigitb (c : Z) : bool := (48 <=? c) && (c <=? 57).

Definition numberOfString (s : jsstring) : jsnumber :=
  match s with
  | [] => Finite (inject_Z 0)
  | _ =>
      if forallb isDecimalDigitb s && (length s <=? 15)%nat
      then Finite (inject_Z (decimalValue s))
      else NaN
  end.

Definition decimalOfZ (z : Z) : jsstring :=
  str (DecimalString.NilEmpty.string_of_int (Z.to_int z)).

Definition stringOfNumber (n : jsnumber) : jsstring :=
  match n with
  | NaN => str "NaN"
  | Infinity false => str "Infinity"
  | Infinity true => str "-Infinity"
  | Finite q => decimalOfZ (Qfloor q)
  end.

Definition mix (inputs : list Z) : Z :=
  fold_left (fun acc x => (acc * 1000003 + x + 1) mod 2 ^ 256) inputs 7.

Definition digest (inputs : list Z) : list byte :=
  let h := mix inputs in
  map (fun i => byteOfZ (h / 256 ^ Z.of_nat i)) (seq 0 32).

(** Thirty-two bytes standing for one draw of [crypto.randomBytes(32)]. *)
Definition entropy : list byte :=
  map (fun i => byteOfZ (17 * Z.of_nat i + 3)) (seq 0 32).

(** Sample inputs. *)
Definition threeLeaves : list jsstring :=
  [str "alice"; str "bob"; str "charlie"].

Definition secret : jsstring := str "my_random_secret".

Definition longA : jsstring := str "zero-knowledge membership proof of alice".
Definition longB : jsstring := str "zero-knowledge membership proof by bob".

Definition calls : list jsstring :=
  [str "0xAB12"; str "0xab12"; str "0xcd34"; str "0xAb12"].

(** A range proof object carrying the bits of [prove(25, 18, 100)] and the
    commitments that the verifier would recompute for them under [digest],
    with a chosen [valid] flag. *)
Definition rangeProofWithFlag (flag : bool) : Range.RangeProof :=
  let saltBigInt := bytesValueFrom 0 entropy in
  let bits := [1; 1; 1; 0; 0; 0; 0] in
  {| Range.valueCommitment := toHex (digest [25; saltBigInt]);
     Range.min := 18;
     Range.max := 100;
     Range.bits := bits;
     Range.bitCommitments :=
       map (fun i => toHex (digest [nth (Z.to_nat i) bits 0; saltBigInt; i]))
         [0; 1; 2; 3; 4; 5; 6];
     Range.salt := Range.generateSalt entropy;
     Range.valid := flag |}.

End Sample.

(** A toy signature library on integers, on which the signature module can
    be run: a point is an integer packed in 32 little-endian bytes, and a
    signature of [m] under the key [P] is [(P, (31 * P + m) mod 2^250)].
    It has the interface of EdDSA and none of its security. *)
Module SampleSign.
Import Js.

Definition fieldValue (inputs : list Z) : Z := Sample.mix inputs mod 2 ^ 254.

Definition publicOf (prv : list byte) : Z :=
  Sample.mix (map byteToZ prv) mod 2 ^ 128.

Definition pack (P : Z) : list byte :=
  map (fun i => byteOfZ (P / 256 ^ Z.of_nat i)) (seq 0 32).

Definition unpack (bytes : list byte) : option Z :=
  if (length bytes =? 32)%nat
  then Some (fold_right (fun b value => byteToZ b + 256 * value) 0 bytes)
  else None.

Definition signOf (prv : list byte) (m : Z) : Z * Z :=
  (publicOf prv, (31 * publicOf prv + m) mod 2 ^ 250).

Definition accepts (m : Z) (sig : Z * Z) (P : Z) : bool :=
  (fst sig =? P) && (snd sig =? (31 * P + m) mod 2 ^ 250).

Definition library : Sign.EddsaLibrary :=
  {| Sign.point := Z;
     Sign.prv2pub := fun prv => inr (publicOf prv);
     Sign.signPoseidon := fun prv m => inr (signOf prv m);
     Sign.verifyPoseidon := fun m sig P => inr (accepts m sig P);
     Sign.packPoint := fun P => inr (pack P);
     Sign.unpackPoint := fun bytes => inr (unpack bytes);
     Sign.coordinateStrings :=
       fun P => inr (Sample.decimalOfZ P, Sample.decimalOfZ (P + 1)) |}.

(** A private key, as [generateKeypair] prints it, its public key, and
    the signature of ["hello"] under it. *)
Definition privateKey : jsstring := Sign.bufferToHex Sample.entropy.

Definition publicKey : jsstring :=
  Sign.bufferToHex (pack (publicOf Sample.entropy)).

Definition helloHash : Z := fieldValue (Sign.messageChunks (str "hello")).

Definition signature : Sign.Signature :=
  {| Sign.R8 := Sign.bufferToHex (pack (fst (signOf Sample.entropy helloHash)));
     Sign.signatureS :=
       Sample.decimalOfZ (snd (signOf Sample.entropy helloHash));
     Sign.message := str "hello";
     Sign.messageHash := Sign.fieldToHex helloHash;
     Sign.publicKey := publicKey |}.

End SampleSign.

(* ===================================================================== *)
(** * Facts about the JavaScript layer *)
(* ===================================================================== *)

(** The two hexadecimal digits of a byte are below 16. *)
Ltac nibble_bound :=
  first
    [ apply Z.mod_pos_bound; lia
    | split; [apply Z.div_pos; lia | apply Z.div_lt_upper_bound; lia] ].

Section JsFacts.
Import Js.

Lemma byteToZ_range (b : byte) : 0 <= byteToZ b < 256.
Proof.
  unfold byteToZ. pose proof (Byte.to_N_bounded b) as Hb. lia.
Qed.

Lemma hexDigit_lower (d : Z) : 0 <= d < 16 -> isLowerAlnum (hexDigit d).
Proof.
  intros Hd. unfold isLowerAlnum, hexDigit.
  destruct (Z.ltb_spec d 10); lia.
Qed.

Lemma digitValue_hexDigit (d : Z) :
  0 <= d < 16 -> digitValue 16 (hexDigit d) = Some d.
Proof.
  intros Hd. unfold digitValue, hexDigit.
  destruct (Z.ltb_spec d 10) as [Hlt | Hge].
  - replace ((48 <=? 48 + d) && (48 + d <=? 57)) with true by lia.
    replace (48 + d - 48) with d by lia.
    replace (d <? 16) with true by lia. reflexivity.
  - replace ((48 <=? 87 + d) && (87 + d <=? 57)) with false by lia.
    replace ((97 <=? 87 + d) && (87 + d <=? 102)) with true by lia.
    replace (87 + d - 87) with d by lia.
    replace (d <? 16) with true by lia. reflexivity.
Qed.

Lemma byteHex_digits (b : byte) :
  byteHex b = [hexDigit (byteToZ b / 16); hexDigit (byteToZ b mod 16)].
Proof.
  unfold byteHex, byteToString16, padStart.
  pose proof (byteToZ_range b) as Hb.
  destruct (Z.ltb_spec (byteToZ b) 16) as [Hlt | Hge]; cbn.
  - rewrite Z.div_small, Z.mod_small by lia. reflexivity.
  - reflexivity.
Qed.

Lemma byteHex_lower (b : byte) : Forall isLowerAlnum (byteHex b).
Proof.
  rewrite byteHex_digits. pose proof (byteToZ_range b) as Hb.
  constructor; [| constructor; [| constructor]];
    apply hexDigit_lower; nibble_bound.
Qed.

Lemma hexOfBytes_lower (bs : list byte) : Forall isLowerAlnum (hexOfBytes bs).
Proof.
  unfold hexOfBytes. induction bs as [| b bs IH]; cbn.
  - constructor.
  - apply Forall_app. split; [apply byteHex_lower | exact IH].
Qed.

Lemma toHex_lower (bs : list byte) : Forall isLowerAlnum (toHex bs).
Proof.
  unfold toHex. apply Forall_app. split.
  - constructor; [| constructor; [| constructor]];
      unfold isLowerAlnum; cbn; lia.
  - apply hexOfBytes_lower.
Qed.

Lemma parseDigitsFrom_byteHex (acc : Z) (b : byte) (rest : jsstring) :
  parseDigitsFrom 16 acc (byteHex b ++ rest)
  = parseDigitsFrom 16 (acc * 256 + byteToZ b) rest.
Proof.
  rewrite byteHex_digits. pose proof (byteToZ_range b) as Hb. cbn.
  rewrite !digitValue_hexDigit by nibble_bound.
  f_equal. pose proof (Z.div_mod (byteToZ b) 16). lia.
Qed.

Lemma parseDigitsFrom_hexOfBytes (bs : list byte) (acc : Z) :
  parseDigitsFrom 16 acc (hexOfBytes bs) = Some (bytesValueFrom acc bs).
Proof.
  revert acc. unfold hexOfBytes. induction bs as [| b bs IH]; intros acc; cbn.
  - reflexivity.
  - rewrite parseDigitsFrom_byteHex. apply IH.
Qed.

Lemma dropWhile_head_false {A} (p : A -> bool) (l : list A) :
  Forall (fun x => p x = false) l -> dropWhile p l = l.
Proof.
  intros Hl. destruct Hl as [| x l Hx _]; cbn; [reflexivity |].
  rewrite Hx. reflexivity.
Qed.

Lemma trimString_no_space (s : jsstring) :
  Forall (fun c => isStrWhiteSpaceChar c = false) s -> trimString s = s.
Proof.
  intros Hs. unfold trimString.
  rewrite (dropWhile_head_false _ s Hs).
  rewrite dropWhile_head_false.
  - apply rev_involutive.
  - apply Forall_rev. exact Hs.
Qed.

Lemma lowerAlnum_no_space (c : Z) :
  isLowerAlnum c -> isStrWhiteSpaceChar c = false.
Proof.
  unfold isLowerAlnum, isStrWhiteSpaceChar. intros Hc.
  repeat (apply orb_false_intro); lia.
Qed.

Lemma lowerAlnum_ascii (c : Z) : isLowerAlnum c -> isAscii c.
Proof. unfold isLowerAlnum, isAscii. lia. Qed.

Lemma lowerAlnum_fixed (c : Z) : isLowerAlnum c -> asciiLower c = c.
Proof.
  unfold isLowerAlnum, asciiLower. intros Hc.
  replace ((65 <=? c) && (c <=? 90)) with false by lia. reflexivity.
Qed.

Lemma hexOfBytes_nonempty (bs : list byte) : bs <> [] -> hexOfBytes bs <> [].
Proof.
  destruct bs as [| b bs]; [congruence |]. intros _.
  unfold hexOfBytes. cbn. rewrite byteHex_digits. discriminate.
Qed.

(** [BigInt(toHex(buffer))] never throws on a non-empty buffer. *)
Lemma BigIntOfString_toHex (bs : list byte) :
  bs <> [] -> BigIntOfString (toHex bs) = Ok (bytesValueFrom 0 bs).
Proof.
  intros Hne. unfold BigIntOfString, StringToBigInt.
  rewrite trimString_no_space.
  2:{ eapply Forall_impl; [apply toHex_lower |].
      intros c Hc. apply lowerAlnum_no_space, Hc. }
  unfold toHex. change (str "0x") with [48; 120]. cbn [app].
  unfold parseDigits.
  pose proof (hexOfBytes_nonempty bs Hne) as Hd.
  destruct (hexOfBytes bs) as [| c ds] eqn:E; [congruence |].
  rewrite <- E, parseDigitsFrom_hexOfBytes. reflexivity.
Qed.

Section WithHost.
Context {host : JsHost}.

Lemma toLowerCase_lowerAlnum (s : jsstring) :
  Forall isLowerAlnum s -> toLowerCase s = s.
Proof.
  intros Hs. rewrite toLowerCase_ascii.
  - induction Hs as [| c s Hc _ IH]; cbn; [reflexivity |].
    rewrite lowerAlnum_fixed by exact Hc. f_equal. exact IH.
  - eapply Forall_impl; [exact Hs |]. intros c Hc. apply lowerAlnum_ascii, Hc.
Qed.

Lemma toLowerCase_toHex (bs : list byte) : toLowerCase (toHex bs) = toHex bs.
Proof. apply toLowerCase_lowerAlnum, toHex_lower. Qed.

End WithHost.

(** [toHex] is injective: two buffers with the same hexadecimal text are
    the same buffer. *)
Lemma byteToZ_inj (a b : byte) : byteToZ a = byteToZ b -> a = b.
Proof.
  unfold byteToZ. intros H. apply N2Z.inj in H.
  assert (Byte.of_N (Byte.to_N a) = Byte.of_N (Byte.to_N b)) as Hs
    by (rewrite H; reflexivity).
  rewrite !Byte.of_to_N in Hs. congruence.
Qed.

Lemma hexDigit_inj (d e : Z) :
  0 <= d < 16 -> 0 <= e < 16 -> hexDigit d = hexDigit e -> d = e.
Proof.
  unfold hexDigit. intros Hd He.
  destruct (Z.ltb_spec d 10), (Z.ltb_spec e 10); lia.
Qed.

Lemma byteHex_inj (a b : byte) : byteHex a = byteHex b -> a = b.
Proof.
  rewrite !byteHex_digits. intros H. injection H as Hhi Hlo.
  pose proof (byteToZ_range a) as Ha. pose proof (byteToZ_range b) as Hb.
  apply hexDigit_inj in Hhi, Hlo; try nibble_bound.
  apply byteToZ_inj.
  pose proof (Z.div_mod (byteToZ a) 16). pose proof (Z.div_mod (byteToZ b) 16).
  lia.
Qed.

Lemma hexOfBytes_inj (xs ys : list byte) :
  hexOfBytes xs = hexOfBytes ys -> xs = ys.
Proof.
  unfold hexOfBytes. revert ys.
  induction xs as [| x xs IH]; intros [| y ys]; cbn; intros H.
  - reflexivity.
  - rewrite byteHex_digits in H. discriminate.
  - rewrite byteHex_digits in H. discriminate.
  - rewrite (byteHex_digits x), (byteHex_digits y) in H. cbn in H.
    injection H as Hhi Hlo Hrest.
    assert (byteHex x = byteHex y) as Hxy
      by (rewrite !byteHex_digits; congruence).
    apply byteHex_inj in Hxy. subst y. f_equal. apply IH, Hrest.
Qed.

Lemma toHex_inj (xs ys : list byte) : toHex xs = toHex ys -> xs = ys.
Proof.
  unfold toHex. intros H. apply app_inv_head in H. apply hexOfBytes_inj, H.
Qed.

End JsFacts.

(* ===================================================================== *)
(** * The sample instances *)
(* ===================================================================== *)

Section SampleInstances.
Import Js.

Lemma sample_lowerCase_ascii (s : jsstring) :
  Forall isAscii s -> Sample.lowerCase s = map asciiLower s.
Proof. reflexivity. Qed.

Lemma sample_numberOfString_digits (s : jsstring) :
  s <> [] -> Forall isDecimalDigit s -> (length s <= 15)%nat ->
  Sample.numberOfString s = Finite (inject_Z (decimalValue s)).
Proof.
  intros Hne Hd Hl. unfold Sample.numberOfString.
  destruct s as [| c s]; [congruence |].
  assert (forallb Sample.isDecimalDigitb (c :: s) = true) as ->.
  { apply forallb_forall. intros x Hx. rewrite Forall_forall in Hd.
    apply list_elem_of_In in Hx. specialize (Hd x Hx).
    unfold isDecimalDigit in Hd. unfold Sample.isDecimalDigitb. lia. }
  assert ((length (c :: s) <=? 15)%nat = true) as -> by (apply Nat.leb_le; lia).
  reflexivity.
Qed.

Lemma sample_ceilLog2_exact (n : Z) :
  1 <= n <= 2 ^ 33 -> Z.log2_up n = Z.log2_up n.
Proof. reflexivity. Qed.

Lemma sample_digest_length (inputs : list Z) :
  length (Sample.digest inputs) = 32%nat.
Proof. reflexivity. Qed.

End SampleInstances.

Definition sampleHost : Js.JsHost :=
  {| Js.toLowerCase := Sample.lowerCase;
     Js.StringToNumber := Sample.numberOfString;
     Js.MathCeilLog2 := Z.log2_up;
     Js.NumberToString := Sample.stringOfNumber;
     Js.BigIntToString := Sample.decimalOfZ;
     Js.toLowerCase_ascii := sample_lowerCase_ascii;
     Js.StringToNumber_digits := sample_numberOfString_digits;
     Js.MathCeilLog2_exact := sample_ceilLog2_exact |}.

Definition sampleOracle : Js.FieldHashOracle :=
  {| Js.poseidon := Sample.digest;
     Js.poseidon_length := sample_digest_length |}.

(* ===================================================================== *)
(** * Facts about the Merkle tree engine *)
(* ===================================================================== *)

Section MerkleFacts.
Import Js Merkle.
Context {host : JsHost} {oracle : FieldHashOracle}.

Lemma poseidon_nonempty (inputs : list Z) : poseidon inputs <> [].
Proof.
  pose proof (poseidon_length inputs) as Hl.
  destruct (poseidon inputs); [discriminate | congruence].
Qed.

Lemma BigIntOfString_poseidonHex (inputs : list Z) :
  BigIntOfString (poseidonHex inputs)
  = Ok (bytesValueFrom 0 (poseidon inputs)).
Proof. apply BigIntOfString_toHex, poseidon_nonempty. Qed.

Lemma toLowerCase_poseidonHex (inputs : list Z) :
  toLowerCase (poseidonHex inputs) = poseidonHex inputs.
Proof. apply toLowerCase_toHex. Qed.

(** Induction on a list two elements at a time, as the pairing loop reads
    it. *)
Lemma list_pair_ind {A} (P : list A -> Prop) :
  P [] -> (forall x, P [x]) -> (forall x y l, P l -> P (x :: y :: l)) ->
  forall l, P l.
Proof.
  intros Hnil Hone Hstep l.
  assert (P l /\ forall x, P (x :: l)) as [Hl _]; [| exact Hl].
  induction l as [| y l [IHl IHx]]; split; auto.
Qed.

Lemma hashPairs_length (cur next : list jsstring) :
  hashPairs cur = Ok next -> length cur = (2 * length next)%nat.
Proof.
  revert next. induction cur as [| x | x y l IH] using list_pair_ind;
    intros next H; cbn in H.
  - injection H as <-. reflexivity.
  - destruct (BigIntOfString x); discriminate.
  - destruct (BigIntOfString x); [| discriminate ..].
    destruct (BigIntOfString y); [| discriminate ..]. cbn in H.
    destruct (hashPairs l) as [nl | |] eqn:El; [| discriminate ..].
    cbn in H. injection H as <-. cbn. rewrite (IH nl eq_refl). lia.
Qed.

Lemma hashPairs_lookup (cur next : list jsstring) :
  hashPairs cur = Ok next ->
  forall (k : nat) (l r : jsstring),
    cur !! (2 * k)%nat = Some l -> cur !! (2 * k + 1)%nat = Some r ->
    exists lv rv,
      BigIntOfString l = Ok lv /\ BigIntOfString r = Ok rv
      /\ next !! k = Some (poseidonHex [lv; rv]).
Proof.
  revert next. induction cur as [| x | x y rest IH] using list_pair_ind;
    intros next H k l r Hl Hr; cbn in H.
  - discriminate.
  - destruct (BigIntOfString x); discriminate.
  - destruct (BigIntOfString x) as [xv | |] eqn:Ex; [| discriminate ..].
    destruct (BigIntOfString y) as [yv | |] eqn:Ey; [| discriminate ..].
    cbn in H.
    destruct (hashPairs rest) as [nl | |] eqn:El; [| discriminate ..].
    cbn in H. injection H as <-.
    destruct k as [| k].
    + cbn in Hl, Hr. injection Hl as <-. injection Hr as <-.
      exists xv, yv. auto.
    + replace (2 * S k)%nat with (S (S (2 * k))) in Hl by lia.
      replace (2 * S k + 1)%nat with (S (S (2 * k + 1))) in Hr by lia.
      cbn in Hl, Hr. cbn. eapply IH; eauto.
Qed.

Lemma buildLoop_chain (fuel : nat) :
  forall cur lvls top all,
    buildLoop fuel cur lvls = Ok (top, all) ->
    exists rest, all = lvls ++ rest /\ Chain cur rest top.
Proof.
  induction fuel as [| fuel IH]; intros cur lvls top all H; cbn in H.
  - destruct (Z.gtb_spec (len cur) 1) as [Hgt | Hle]; [discriminate |].
    injection H as <- <-. exists []. rewrite app_nil_r. split; [reflexivity |].
    apply Chain_top. unfold len in Hle. lia.
  - destruct (Z.gtb_spec (len cur) 1) as [Hgt | Hle].
    + destruct (hashPairs cur) as [next | |] eqn:En; [| discriminate ..].
      cbn in H. apply IH in H as (rest & -> & Hc).
      exists (next :: rest). rewrite <- app_assoc. split; [reflexivity |].
      apply Chain_step; auto. unfold len in Hgt. lia.
    + injection H as <- <-. exists []. rewrite app_nil_r.
      split; [reflexivity |]. apply Chain_top. unfold len in Hle. lia.
Qed.

(** The path that [proofLoop] records from position [idx] of a level leads
    [verifyLoop] from the node at that position to the single node of the
    top level. *)
Lemma path_reaches_top (cur : list jsstring) (rest : list (list jsstring))
    (top : list jsstring) :
  Chain cur rest top ->
  forall (pre : list (list jsstring)) (idx : Z) (hex : jsstring)
         (seen : list Z),
    0 <= idx < len cur ->
    cur !! Z.to_nat idx = Some hex ->
    exists path r,
      proofLoop (length rest) (length pre) (pre ++ cur :: rest) idx = Ok path
      /\ length (fst path) = length rest
      /\ length (snd path) = length rest
      /\ top !! 0%nat = Some r
      /\ verifyLoop (fst path) (length seen) (seen ++ snd path) hex = Ok r.
Proof.
  induction 1 as [cur Hshort | cur next rest top Hlong Hnext Hchain IH];
    intros pre idx hex seen Hidx Hhex.
  - exists ([], []), hex. cbn. unfold len in Hidx.
    assert (idx = 0) as -> by lia.
    repeat split; auto.
  - pose proof (hashPairs_length _ _ Hnext) as Hlen.
    unfold len in Hidx.
    set (k := Z.to_nat (idx / 2)).
    assert (0 <= idx / 2 < len next) as Hhalf.
    { unfold len. split; [apply Z.div_pos; lia |].
      apply Z.div_lt_upper_bound; lia. }
    assert (exists upper, next !! k = Some upper) as [upper Hupper].
    { apply lookup_lt_is_Some. unfold len in Hhalf. lia. }
    specialize (IH (pre ++ [cur]) (idx / 2) upper).
    cbn [length proofLoop].
    rewrite list_lookup_middle by reflexivity.
    assert (Z.rem idx 2 = idx mod 2) as Hrem
      by (apply Z.rem_mod_nonneg; lia).
    rewrite Hrem.
    destruct (Z.eqb_spec (idx mod 2) 1) as [Hodd | Heven].
    + (* the node is a right child: its sibling is on the left *)
      assert (idx = 2 * (idx / 2) + 1) as Hsplit
        by (pose proof (Z.div_mod idx 2); lia).
      assert (exists sib, cur !! (2 * k)%nat = Some sib) as [sib Hsib].
      { apply lookup_lt_is_Some. unfold k. lia. }
      assert (cur !! (2 * k + 1)%nat = Some hex) as Hme.
      { rewrite <- Hhex. f_equal. unfold k. lia. }
      destruct (hashPairs_lookup _ _ Hnext k sib hex Hsib Hme)
        as (sv & hv & Hsv & Hhv & Hup).
      rewrite Hupper in Hup. injection Hup as ->.
      destruct (IH (seen ++ [1]) Hhalf Hupper)
        as (path & r & Hpath & Hl1 & Hl2 & Htop & Hver).
      rewrite length_app in Hpath, Hver. cbn [length] in Hpath, Hver.
      rewrite Nat.add_1_r in Hpath, Hver.
      rewrite <- app_assoc in Hpath, Hver. cbn [app] in Hpath, Hver.
      rewrite Hpath. cbn.
      eexists. exists r. split; [reflexivity |]. cbn.
      repeat split; try lia; auto.
      unfold lookupZ.
      replace (idx - 1 <? 0) with false by lia.
      replace (Z.to_nat (idx - 1)) with (2 * k)%nat by (unfold k; lia).
      rewrite Hsib. cbn. rewrite Hsv. cbn. rewrite Hhv. cbn.
      rewrite list_lookup_middle by reflexivity. exact Hver.
    + (* the node is a left child: its sibling is on the right *)
      assert (idx = 2 * (idx / 2)) as Hsplit
        by (pose proof (Z.div_mod idx 2);
            pose proof (Z.mod_pos_bound idx 2); lia).
      assert (exists sib, cur !! (2 * k + 1)%nat = Some sib) as [sib Hsib].
      { apply lookup_lt_is_Some. unfold k. lia. }
      assert (cur !! (2 * k)%nat = Some hex) as Hme.
      { rewrite <- Hhex. f_equal. unfold k. lia. }
      destruct (hashPairs_lookup _ _ Hnext k hex sib Hme Hsib)
        as (hv & sv & Hhv & Hsv & Hup).
      rewrite Hupper in Hup. injection Hup as ->.
      destruct (IH (seen ++ [0]) Hhalf Hupper)
        as (path & r & Hpath & Hl1 & Hl2 & Htop & Hver).
      rewrite length_app in Hpath, Hver. cbn [length] in Hpath, Hver.
      rewrite Nat.add_1_r in Hpath, Hver.
      rewrite <- app_assoc in Hpath, Hver. cbn [app] in Hpath, Hver.
      rewrite Hpath. cbn.
      eexists. exists r. split; [reflexivity |]. cbn.
      repeat split; try lia; auto.
      unfold lookupZ.
      replace (idx + 1 <? 0) with false by lia.
      replace (Z.to_nat (idx + 1)) with (2 * k + 1)%nat by (unfold k; lia).
      rewrite Hsib. cbn. rewrite Hsv. cbn. rewrite Hhv. cbn.
      rewrite list_lookup_middle by reflexivity. exact Hver.
Qed.

Lemma mapM_lookup {A B} (f : A -> result B) (xs : list A) (ys : list B) :
  mapM f xs = Ok ys ->
  length ys = length xs
  /\ forall i x, xs !! i = Some x -> exists y, ys !! i = Some y /\ f x = Ok y.
Proof.
  revert ys. induction xs as [| x xs IH]; intros ys H; cbn in H.
  - injection H as <-. split; [reflexivity |]. intros i x Hx. discriminate.
  - destruct (f x) as [y | |] eqn:Ey; [| discriminate ..]. cbn in H.
    destruct (mapM f xs) as [ys' | |] eqn:Em; [| discriminate ..].
    cbn in H. injection H as <-.
    destruct (IH ys' eq_refl) as [Hlen Hall]. split; [cbn; lia |].
    intros [| i] x' Hx'; cbn in *.
    + injection Hx' as <-. eauto.
    + eauto.
Qed.

Lemma mapM_total {A B} (f : A -> result B) (Q : B -> Prop) (xs : list A) :
  Forall (fun x => exists y, f x = Ok y /\ Q y) xs ->
  exists ys, mapM f xs = Ok ys /\ Forall Q ys.
Proof.
  induction 1 as [| x xs (y & Hy & HQ) _ (ys & Hys & HQs)]; cbn.
  - exists []. auto.
  - rewrite Hy. cbn. rewrite Hys. cbn. exists (y :: ys). auto.
Qed.

Lemma padLoop_shape (fuel : nat) :
  forall l padded,
    padLoop fuel l = Ok padded ->
    exists m, padded = l ++ repeat (str "0") m.
Proof.
  induction fuel as [| fuel IH]; intros l padded H; cbn in H.
  - destruct (bitAnd (len l) (len l - 1) =? 0); [| discriminate].
    injection H as <-. exists 0%nat. cbn. rewrite app_nil_r. reflexivity.
  - destruct (bitAnd (len l) (len l - 1) =? 0).
    + injection H as <-. exists 0%nat. cbn. rewrite app_nil_r. reflexivity.
    + apply IH in H as [m ->]. exists (S m). rewrite <- app_assoc. reflexivity.
Qed.

(** What a successful [create] has built. *)
Lemma create_built (input : list jsstring) (tree : MerkleTree) :
  create input = Ok tree ->
  input <> []
  /\ (exists m, leaves tree = input ++ repeat (str "0") m)
  /\ exists level0 rest top,
       mapM hashLeaf (leaves tree) = Ok level0
       /\ levels tree = level0 :: rest
       /\ Chain level0 rest top
       /\ root tree = top !! 0%nat.
Proof.
  unfold create. intros H.
  destruct (Z.eqb_spec (len input) 0) as [| Hne]; [discriminate |].
  destruct (padLoop (length input) input) as [padded | |] eqn:Epad;
    [| discriminate ..].
  cbn [bind] in H.
  set (padded' := if len padded =? 1 then padded ++ [str "0"] else padded)
    in H.
  destruct (mapM hashLeaf padded') as [level0 | |] eqn:Emap;
    [| discriminate ..].
  cbn [bind] in H.
  destruct (buildLoop (length level0) level0 [level0])
    as [[top all] | |] eqn:Ebuild; [| discriminate ..].
  cbn [bind fst snd] in H. injection H as <-. cbn [leaves levels root].
  split; [intros ->; apply Hne; reflexivity |].
  split.
  - apply padLoop_shape in Epad as [m ->]. unfold padded'.
    destruct (len (input ++ repeat (str "0") m) =? 1).
    + exists (S m). rewrite <- app_assoc. f_equal.
      change (repeat (str "0") (S m)) with ([str "0"] ++ repeat (str "0") m).
      rewrite <- repeat_cons. reflexivity.
    + exists m. reflexivity.
  - apply buildLoop_chain in Ebuild as (rest & -> & Hchain).
    exists level0, rest, top. auto.
Qed.

(** Round trip on a tree that [create] returned. *)
Lemma built_tree_round_trip (input : list jsstring) (tree : MerkleTree)
    (i : Z) :
  create input = Ok tree ->
  0 <= i < len (leaves tree) ->
  exists p rootHex leafString res,
    proof tree i = Ok p
    /\ root tree = Some rootHex
    /\ leaves tree !! Z.to_nat i = Some leafString
    /\ leaf p = Some leafString
    /\ length (pathElements p) = (length (levels tree) - 1)%nat
    /\ length (pathIndices p) = (length (levels tree) - 1)%nat
    /\ verify rootHex leafString (pathElements p) (pathIndices p) = Ok res
    /\ valid res = true.
Proof.
  intros Hcreate Hi.
  destruct (create_built _ _ Hcreate)
    as (_ & _ & level0 & rest & top & Hmap & Hlevels & Hchain & Hroot).
  destruct (mapM_lookup _ _ _ Hmap) as [Hlen Hleaf].
  unfold len in Hi.
  assert (exists leafString, leaves tree !! Z.to_nat i = Some leafString)
    as [leafString Hls] by (apply lookup_lt_is_Some; lia).
  destruct (Hleaf _ _ Hls) as (hex & Hhex & Hhash).
  assert (0 <= i < len level0) as Hi0 by (unfold len; lia).
  destruct (path_reaches_top _ _ _ Hchain [] i hex [] Hi0 Hhex)
    as (path & r & Hpath & Hl1 & Hl2 & Htop & Hver).
  cbn [app length] in Hpath, Hver.
  unfold hashLeaf in Hhash.
  destruct (stringToFieldElement leafString) as [field | |] eqn:Efield;
    [| discriminate ..].
  cbn [bind] in Hhash. injection Hhash as <-.
  unfold proof.
  replace ((i <? 0) || (i >=? len (leaves tree))) with false
    by (unfold len; lia).
  rewrite Hlevels. cbn [length]. rewrite Nat.sub_succ, Nat.sub_0_r.
  rewrite Hpath. cbn [bind].
  eexists. exists r, leafString. eexists.
  split; [reflexivity |].
  cbn [root leaf pathElements pathIndices].
  split; [rewrite Hroot; exact Htop |].
  split; [exact Hls |].
  split; [unfold lookupZ; replace (i <? 0) with false by lia; exact Hls |].
  split; [exact Hl1 |]. split; [exact Hl2 |].
  unfold verify. rewrite Efield. cbn [bind]. rewrite Hver. cbn [bind].
  split; [reflexivity |]. cbn [valid].
  apply bool_decide_eq_true. reflexivity.
Qed.

(** *** Totality of [create] *)

Lemma ToInt32_small (n : Z) : 0 <= n < 2147483648 -> ToInt32 n = n.
Proof.
  intros Hn. unfold ToInt32. rewrite Z.mod_small by lia.
  replace (n <? 2147483648) with true by lia. reflexivity.
Qed.

Lemma bitAnd_power_of_two (e : Z) :
  0 <= e <= 31 -> bitAnd (2 ^ e) (2 ^ e - 1) = 0.
Proof.
  intros He. destruct (Z.eq_dec e 31) as [-> | Hlt].
  - reflexivity.
  - assert (2 ^ e <= 2 ^ 30) as Hb by (apply Z.pow_le_mono_r; lia).
    assert (0 < 2 ^ e) as Hp by (apply Z.pow_pos_nonneg; lia).
    change (2 ^ 30) with 1073741824 in Hb.
    unfold bitAnd. rewrite !ToInt32_small by lia.
    replace (2 ^ e - 1) with (Z.ones e) by (rewrite Z.ones_equiv; lia).
    rewrite Z.land_ones by lia. apply Z.mod_same. lia.
Qed.

Lemma bitAnd_between (e m : Z) :
  0 <= e -> 2 ^ e < m < 2 ^ (e + 1) -> m < 2147483648 ->
  bitAnd m (m - 1) <> 0.
Proof.
  intros He Hm Hsmall.
  assert (0 < 2 ^ e) as Hp by (apply Z.pow_pos_nonneg; lia).
  unfold bitAnd. rewrite !ToInt32_small by lia.
  intros Hzero.
  assert (Z.log2 m = e) as Hlm by (apply Z.log2_unique; [lia |]; unfold Z.succ; lia).
  assert (Z.log2 (m - 1) = e) as Hlp
    by (apply Z.log2_unique; [lia |]; unfold Z.succ; lia).
  assert (Z.testbit (Z.land m (m - 1)) e = true) as Hbit.
  { rewrite Z.land_spec.
    assert (Z.testbit m e = true) as ->
      by (rewrite <- Hlm; apply Z.bit_log2; lia).
    assert (Z.testbit (m - 1) e = true) as ->
      by (rewrite <- Hlp; apply Z.bit_log2; lia).
    reflexivity. }
  rewrite Hzero, Z.bits_0 in Hbit. discriminate.
Qed.

Lemma padLoop_runs (e : Z) (d : nat) :
  0 <= e <= 31 ->
  forall (fuel : nat) (l : list jsstring),
    0 < len l ->
    len l + Z.of_nat d = 2 ^ e ->
    (e = 0 \/ 2 ^ (e - 1) < len l) ->
    (d <= fuel)%nat ->
    padLoop fuel l = Ok (l ++ repeat (str "0") d).
Proof.
  intros He. induction d as [| d IH]; intros fuel l Hpos Hsum Hlow Hfuel.
  - cbn [repeat]. rewrite app_nil_r.
    assert (len l = 2 ^ e) as Hl by lia.
    assert (bitAnd (len l) (len l - 1) = 0) as Hz
      by (rewrite Hl; apply bitAnd_power_of_two; exact He).
    destruct fuel; cbn [padLoop]; rewrite Hz; reflexivity.
  - assert (0 < 2 ^ e) as Hp by (apply Z.pow_pos_nonneg; lia).
    destruct Hlow as [-> | Hlow].
    { change (2 ^ 0) with 1 in Hsum. lia. }
    assert (2 ^ e <= 2 ^ 31) as Hb by (apply Z.pow_le_mono_r; lia).
    change (2 ^ 31) with 2147483648 in Hb.
    assert (bitAnd (len l) (len l - 1) <> 0) as Hnz.
    { apply (bitAnd_between (e - 1)); [| | lia].
      - destruct (Z.eq_dec e 0) as [-> | ]; [| lia].
        change (2 ^ 0) with 1 in Hsum. lia.
      - replace (e - 1 + 1) with e by lia. lia. }
    destruct fuel as [| fuel]; [lia |].
    cbn [padLoop]. apply Z.eqb_neq in Hnz. rewrite Hnz.
    rewrite (IH fuel (l ++ [str "0"])).
    + rewrite <- app_assoc. reflexivity.
    + unfold len in *. rewrite length_app. cbn [length]. lia.
    + unfold len in *. rewrite length_app. cbn [length]. lia.
    + right. unfold len in *. rewrite length_app. cbn [length]. lia.
    + lia.
Qed.

(** The padding loop ends, within its budget, on a power of two. *)
Lemma padLoop_total (l : list jsstring) :
  l <> [] -> len l <= 2 ^ 31 ->
  exists (d : nat) (e : Z),
    padLoop (length l) l = Ok (l ++ repeat (str "0") d)
    /\ 0 <= e <= 31
    /\ len (l ++ repeat (str "0") d) = 2 ^ e.
Proof.
  intros Hne Hmax.
  assert (0 < len l) as Hpos.
  { unfold len. destruct l; [congruence | cbn; lia]. }
  set (e := Z.log2_up (len l)).
  assert (0 <= e) as He0 by apply Z.log2_up_nonneg.
  assert (e <= 31) as He31 by (apply Z.log2_up_le_pow2; lia).
  assert (len l <= 2 ^ e /\ (e = 0 \/ 2 ^ (e - 1) < len l)) as [Hup Hlow].
  { destruct (Z.eq_dec (len l) 1) as [H1 | Hn1].
    - unfold e. rewrite H1. cbn. split; [lia | left; reflexivity].
    - pose proof (Z.log2_up_spec (len l) ltac:(lia)) as Hs.
      fold e in Hs. replace (Z.pred e) with (e - 1) in Hs by lia.
      split; [lia | right; lia]. }
  exists (Z.to_nat (2 ^ e - len l)), e.
  assert (len l + Z.of_nat (Z.to_nat (2 ^ e - len l)) = 2 ^ e) as Hsum by lia.
  split; [| split; [lia |]].
  - apply (padLoop_runs e); [lia | exact Hpos | exact Hsum | exact Hlow |].
    destruct Hlow as [E0 | Hlow].
    + rewrite E0. change (2 ^ 0) with 1. lia.
    + destruct (Z.eq_dec e 0) as [E0 | Hnz].
      * rewrite E0. change (2 ^ 0) with 1. lia.
      * assert (2 ^ e = 2 * 2 ^ (e - 1)) as Hdouble.
        { replace e with (Z.succ (e - 1)) at 1 by lia.
          apply Z.pow_succ_r. lia. }
        unfold len in *. lia.
  - unfold len in *. rewrite length_app, repeat_length. lia.
Qed.

Lemma hashPairs_total (cur : list jsstring) :
  Forall isDigest cur ->
  forall n, length cur = (2 * n)%nat ->
    exists next,
      hashPairs cur = Ok next /\ Forall isDigest next /\ length next = n.
Proof.
  induction cur as [| x | x y rest IH] using list_pair_ind;
    intros Hd n Hlen.
  - exists []. cbn in *. repeat split; auto. lia.
  - cbn in Hlen. lia.
  - inversion Hd as [| ? ? [xi ->] Hd']; subst.
    inversion Hd' as [| ? ? [yi ->] Hd'']; subst.
    destruct n as [| n]; [cbn in Hlen; lia |].
    destruct (IH Hd'' n) as (next & Hnext & Hfd & Hln);
      [cbn in Hlen; lia |].
    cbn [hashPairs]. rewrite !BigIntOfString_poseidonHex. cbn [bind].
    rewrite Hnext. cbn [bind]. eexists. split; [reflexivity |].
    split; [| cbn; lia].
    constructor; [eexists; reflexivity | exact Hfd].
Qed.

Lemma buildLoop_total (e : nat) :
  forall (fuel : nat) (cur : list jsstring) (lvls : list (list jsstring)),
    length cur = (2 ^ e)%nat -> (e <= fuel)%nat -> Forall isDigest cur ->
    exists built, buildLoop fuel cur lvls = Ok built.
Proof.
  induction e as [| e IH]; intros fuel cur lvls Hlen Hfuel Hd.
  - cbn in Hlen.
    destruct fuel; cbn [buildLoop];
      replace (len cur >? 1) with false by (unfold len; lia); eauto.
  - destruct fuel as [| fuel]; [lia |].
    assert (0 < 2 ^ e)%nat as Hp by (apply Nat.neq_0_lt_0, Nat.pow_nonzero; lia).
    cbn [Nat.pow] in Hlen.
    cbn [buildLoop].
    replace (len cur >? 1) with true by (unfold len; lia).
    destruct (hashPairs_total cur Hd (2 ^ e)%nat Hlen)
      as (next & Hnext & Hnd & Hnl).
    rewrite Hnext. cbn [bind]. apply IH; auto. lia.
Qed.

Lemma sentinel_encodable : encodable (str "0").
Proof. intros H. discriminate. Qed.

Lemma hashLeaf_total (leafString : jsstring) :
  encodable leafString ->
  exists hex, hashLeaf leafString = Ok hex /\ isDigest hex.
Proof.
  intros He. unfold hashLeaf, stringToFieldElement, encodable in *.
  destruct (startsWith leafString (str "0x")).
  - destruct (He eq_refl) as [z ->]. cbn [bind]. eexists. split; [reflexivity |].
    eexists. reflexivity.
  - cbn [bind]. eexists. split; [reflexivity |]. eexists. reflexivity.
Qed.

Lemma create_total (input : list jsstring) :
  input <> [] -> len input <= 2 ^ 31 -> Forall encodable input ->
  exists tree, create input = Ok tree.
Proof.
  intros Hne Hmax Henc. unfold create.
  replace (len input =? 0) with false
    by (symmetry; apply Z.eqb_neq; unfold len;
        destruct input; [congruence | cbn [length]; lia]).
  destruct (padLoop_total input Hne Hmax) as (d & e & Hpad & He & Hlen).
  rewrite Hpad. cbn [bind].
  set (padded := input ++ repeat (str "0") d) in *.
  set (padded' := if len padded =? 1 then padded ++ [str "0"] else padded).
  assert (Forall encodable padded) as Hpe.
  { apply Forall_app. split; [exact Henc |].
    apply Forall_forall. intros x Hx. apply list_elem_of_In, repeat_spec in Hx.
    subst x. apply sentinel_encodable. }
  assert (Forall encodable padded'
          /\ exists e', len padded' = 2 ^ Z.of_nat e') as [Hpe' [e' Hlen']].
  { unfold padded'. destruct (Z.eqb_spec (len padded) 1) as [H1 | Hn1].
    - split.
      + apply Forall_app. split; [exact Hpe |].
        constructor; [apply sentinel_encodable | constructor].
      + exists 1%nat. unfold len in *. rewrite length_app. cbn. lia.
    - split; [exact Hpe |]. exists (Z.to_nat e). rewrite Z2Nat.id by lia.
      exact Hlen. }
  destruct (mapM_total hashLeaf isDigest padded') as (level0 & Hmap & Hd0).
  { eapply Forall_impl; [exact Hpe' |]. intros x. apply hashLeaf_total. }
  rewrite Hmap. cbn [bind].
  destruct (mapM_lookup _ _ _ Hmap) as [Hl0 _].
  assert (length level0 = (2 ^ e')%nat) as Hpow.
  { apply Nat2Z.inj. rewrite Nat2Z.inj_pow. unfold len in Hlen'.
    rewrite Hl0. exact Hlen'. }
  destruct (buildLoop_total e' (length level0) level0 [level0] Hpow)
    as [built Hbuilt]; [| exact Hd0 |].
  { rewrite Hpow. apply Nat.lt_le_incl, Nat.pow_gt_lin_r. lia. }
  rewrite Hbuilt. cbn [bind]. eexists. reflexivity.
Qed.

(** The padded leaf array of a built tree: the input followed by
    sentinels, of a length that is a power of two and at least 2; it is
    longer than the input when the input has one leaf or a number of leaves
    that is not a power of two. *)
Lemma create_leaves_shape (input : list jsstring) (tree : MerkleTree) :
  len input <= 2 ^ 31 ->
  create input = Ok tree ->
  exists (m : nat) (e : Z),
    leaves tree = input ++ repeat (str "0") m
    /\ 1 <= e <= 31
    /\ len (leaves tree) = 2 ^ e
    /\ ((len input = 1 \/ forall e', 0 <= e' -> len input <> 2 ^ e') ->
        len input < len (leaves tree)).
Proof.
  intros Hmax Hcreate.
  destruct (create_built _ _ Hcreate) as (Hne & [m Hm] & _).
  destruct (padLoop_total input Hne Hmax) as (d & e & Hpad & He & Hlen).
  unfold create in Hcreate.
  destruct (len input =? 0); [discriminate |].
  rewrite Hpad in Hcreate. cbn [bind] in Hcreate.
  destruct (mapM hashLeaf _) as [level0 | |]; [| discriminate ..].
  cbn [bind] in Hcreate.
  destruct (buildLoop _ _ _) as [built | |]; [| discriminate ..].
  cbn [bind] in Hcreate. injection Hcreate as <-.
  cbn [leaves] in *. exists m.
  assert (0 < len input) as Hpos
    by (unfold len; destruct input; [congruence | cbn [length]; lia]).
  assert (0 < 2 ^ e) as Hp by (apply Z.pow_pos_nonneg; lia).
  destruct (Z.eqb_spec (len (input ++ repeat (str "0") d)) 1) as [H1 | Hn1].
  - exists 1. split; [exact Hm |]. split; [lia |].
    change (2 ^ 1) with 2. unfold len in *.
    rewrite (length_app (input ++ repeat (str "0") d)). cbn [length].
    split; [lia |]. intros _. rewrite length_app in H1. lia.
  - exists e. split; [exact Hm |].
    assert (e <> 0) as Hnz by (intros ->; apply Hn1; exact Hlen).
    split; [lia |]. split; [exact Hlen |].
    destruct (Nat.eq_dec d 0%nat) as [-> | Hd].
    + cbn [repeat] in Hlen, Hn1. rewrite app_nil_r in Hlen, Hn1.
      intros [Hone | Hnot]; [congruence |].
      exfalso. apply (Hnot e); [lia | exact Hlen].
    + intros _. unfold len. rewrite length_app, repeat_length. lia.
Qed.

(** *** Verification as a total function of parsable input *)

Lemma encodable_iff (s : jsstring) :
  encodable s <-> exists field, stringToFieldElement s = Ok field.
Proof.
  unfold encodable, stringToFieldElement.
  destruct (startsWith s (str "0x")); split.
  - intros H. apply H. reflexivity.
  - intros H _. exact H.
  - intros _. eexists. reflexivity.
  - intros _ H. discriminate.
Qed.

(** Conversely, [create] returns a tree only for a non-empty input all of
    whose leaves are encodable: the condition of [create_total] is the
    exact one. *)
Lemma create_only_encodable (input : list jsstring) (tree : MerkleTree) :
  create input = Ok tree -> input <> [] /\ Forall encodable input.
Proof.
  intros Hcreate.
  destruct (create_built _ _ Hcreate)
    as (Hne & [m Hm] & level0 & _ & _ & Hmap & _).
  split; [exact Hne |].
  destruct (mapM_lookup _ _ _ Hmap) as [_ Hleaf].
  rewrite Hm in Hleaf.
  apply Forall_lookup. intros i x Hx.
  destruct (Hleaf i x) as (hex & _ & Hhash).
  { apply lookup_app_l_Some. exact Hx. }
  apply encodable_iff. unfold hashLeaf in Hhash.
  destruct (stringToFieldElement x) as [field | |]; [eauto | discriminate ..].
Qed.

Lemma verifyLoop_outcome (elements : list (option jsstring)) :
  forall (i : nat) (indices : list Z) (cur : jsstring),
    isDigest cur ->
    (Forall parsableElement elements
     /\ exists r, verifyLoop elements i indices cur = Ok r /\ isDigest r)
    \/ (~ Forall parsableElement elements
        /\ exists e, verifyLoop elements i indices cur = Throw e).
Proof.
  induction elements as [| element elements IH]; intros i indices cur Hcur.
  - left. split; [constructor |]. exists cur. auto.
  - cbn [verifyLoop].
    destruct (BigIntOfElement element) as [sv | e |] eqn:Es.
    + destruct Hcur as [inputs ->].
      rewrite BigIntOfString_poseidonHex. cbn [bind].
      match goal with
      | |- context [verifyLoop elements (S i) indices ?next] =>
          destruct (IH (S i) indices next) as [[Hall Hok] | [Hnot Hthrow]]
      end.
      * eexists. reflexivity.
      * left. split; [| exact Hok].
        constructor; [exists sv; exact Es | exact Hall].
      * right. split; [| exact Hthrow].
        intros Hall'. inversion Hall'; subst. auto.
    + right. split.
      * intros Hall. inversion Hall as [| ? ? [z Hz] _]; subst. congruence.
      * exists e. reflexivity.
    + destruct element as [s |]; cbn in Es; [| discriminate].
      unfold BigIntOfString in Es. destruct (StringToBigInt s); discriminate.
Qed.

(** The nodes that the loop of [merkle.verify] passes through: it starts
    from [cur], and at step [j] hashes the current node with path element
    [j], the current node on the left exactly when [pathIndices[i + j]] is
    0. *)
Lemma verifyLoop_trace (elements : list (option jsstring)) :
  forall (i : nat) (indices : list Z) (cur r : jsstring),
    verifyLoop elements i indices cur = Ok r ->
    exists nodes,
      length nodes = S (length elements)
      /\ nodes !! 0%nat = Some cur
      /\ last nodes = Some r
      /\ forall j element current,
           elements !! j = Some element -> nodes !! j = Some current ->
           exists sibling currentValue,
             BigIntOfElement element = Ok sibling
             /\ BigIntOfString current = Ok currentValue
             /\ (indices !! (i + j)%nat = Some 0 ->
                 nodes !! S j = Some (poseidonHex [currentValue; sibling]))
             /\ (indices !! (i + j)%nat <> Some 0 ->
                 nodes !! S j = Some (poseidonHex [sibling; currentValue])).
Proof.
  induction elements as [| element elements IH]; intros i indices cur r Hloop.
  - cbn [verifyLoop] in Hloop. injection Hloop as <-.
    exists [cur]. repeat split; try reflexivity.
    intros j element current Hj. discriminate.
  - cbn [verifyLoop] in Hloop.
    destruct (BigIntOfElement element) as [sv | |] eqn:Es; [| discriminate ..].
    cbn [bind] in Hloop.
    destruct (BigIntOfString cur) as [cv | |] eqn:Ec; [| discriminate ..].
    cbn [bind] in Hloop.
    apply IH in Hloop as (nodes & Hlen & Hfirst & Hlast & Hsteps).
    exists (cur :: nodes). split; [cbn [length]; lia |].
    split; [reflexivity |]. split.
    { destruct nodes as [| n nodes]; [discriminate |]. exact Hlast. }
    intros [| j] element' current Hj Hcur; cbn in Hj, Hcur.
    + injection Hj as <-. injection Hcur as <-.
      exists sv, cv. split; [exact Es |]. split; [exact Ec |].
      rewrite Nat.add_0_r. split.
      * intros Hzero. rewrite Hzero in Hfirst. exact Hfirst.
      * intros Hnz. destruct (indices !! i) as [[| ? | ?] |];
          try exact Hfirst. congruence.
    + destruct (Hsteps j element' current Hj Hcur)
        as (sibling & currentValue & Hs & Hc & Hleft & Hright).
      exists sibling, currentValue. split; [exact Hs |]. split; [exact Hc |].
      replace (i + S j)%nat with (S i + j)%nat by lia.
      split; [exact Hleft | exact Hright].
Qed.

End MerkleFacts.

(* ===================================================================== *)
(** * The Merkle claims *)
(* ===================================================================== *)

Section MerkleClaims.
Import Js Merkle.

(** C1, as stated, fails: a leaf that begins with ["0x"] is parsed by
    [BigInt], and on a leaf such as ["0xzz"] [merkle.create] throws a
    SyntaxError instead of building a tree. *)
Lemma merkle_create_rejects_malformed_hex_leaf :
  @create sampleOracle [str "0xzz"] = Throw SyntaxError.
Proof. vm_compute. reflexivity. Qed.

(** C1 (amended): for every non-empty sequence of at most 2^31 leaf strings
    in which each leaf that begins with ["0x"] is a literal [BigInt]
    accepts, [merkle.create] returns a tree, and for every index [i] of
    [tree.leaves], [merkle.proof(tree, i)] returns a proof with which
    [merkle.verify(tree.root, tree.leaves[i], proof)] returns
    [valid == true]. *)
Theorem merkle_round_trip (host : JsHost) (oracle : FieldHashOracle)
    (input : list jsstring) :
  input <> [] -> len input <= 2 ^ 31 -> Forall encodable input ->
  exists tree,
    create input = Ok tree
    /\ forall i, 0 <= i < len (leaves tree) ->
         exists p rootHex leafString res,
           proof tree i = Ok p
           /\ root tree = Some rootHex
           /\ leaves tree !! Z.to_nat i = Some leafString
           /\ leaf p = Some leafString
           /\ verify rootHex leafString (pathElements p) (pathIndices p)
              = Ok res
           /\ valid res = true.
Proof.
  intros Hne Hmax Henc.
  destruct (create_total input Hne Hmax Henc) as [tree Htree].
  exists tree. split; [exact Htree |].
  intros i Hi.
  destruct (built_tree_round_trip input tree i Htree Hi)
    as (p & rootHex & leafString & res & Hp & Hr & Hl & Hlp & _ & _ & Hv & Hvalid).
  exists p, rootHex, leafString, res. repeat split; assumption.
Qed.

Lemma merkle_round_trip_witness :
  exists tree,
    @create sampleOracle Sample.threeLeaves = Ok tree
    /\ forall i, 0 <= i < len (leaves tree) ->
         exists p rootHex leafString res,
           proof tree i = Ok p
           /\ root tree = Some rootHex
           /\ leaves tree !! Z.to_nat i = Some leafString
           /\ leaf p = Some leafString
           /\ @verify sampleHost sampleOracle rootHex leafString
                (pathElements p) (pathIndices p) = Ok res
           /\ valid res = true.
Proof.
  apply (merkle_round_trip sampleHost sampleOracle).
  - discriminate.
  - vm_compute. discriminate.
  - repeat constructor; intros H; vm_compute in H; discriminate.
Defined.

(** C9: in a tree that [merkle.create] built from [k] leaves, every index
    [i] with [k <= i < tree.leaves.length] is accepted by [merkle.proof],
    which returns a proof for the sentinel leaf ["0"], and [merkle.verify]
    accepts that proof against the tree root. *)
Theorem merkle_padding_leaves_provable (host : JsHost)
    (oracle : FieldHashOracle) (input : list jsstring) (tree : MerkleTree)
    (i : Z) :
  create input = Ok tree ->
  len input <= i < len (leaves tree) ->
  exists p rootHex res,
    proof tree i = Ok p
    /\ leaves tree !! Z.to_nat i = Some (str "0")
    /\ leaf p = Some (str "0")
    /\ root tree = Some rootHex
    /\ verify rootHex (str "0") (pathElements p) (pathIndices p) = Ok res
    /\ valid res = true.
Proof.
  intros Htree Hi.
  assert (0 <= i < len (leaves tree)) as Hi' by (unfold len in *; lia).
  destruct (built_tree_round_trip input tree i Htree Hi')
    as (p & rootHex & leafString & res & Hp & Hr & Hl & Hlp & _ & _ & Hv & Hvalid).
  destruct (create_built _ _ Htree) as (_ & [m Hpad] & _).
  assert (leafString = str "0") as ->.
  { rewrite Hpad in Hl. unfold len in Hi.
    rewrite lookup_app_r in Hl by lia.
    apply list_elem_of_lookup_2, list_elem_of_In, repeat_spec in Hl.
    exact Hl. }
  exists p, rootHex, res. repeat split; assumption.
Qed.

Lemma merkle_padding_leaves_provable_witness :
  exists tree,
    @create sampleOracle Sample.threeLeaves = Ok tree
    /\ len (leaves tree) = 4
    /\ exists p rootHex res,
         proof tree 3 = Ok p
         /\ leaves tree !! Z.to_nat 3 = Some (str "0")
         /\ leaf p = Some (str "0")
         /\ root tree = Some rootHex
         /\ @verify sampleHost sampleOracle rootHex (str "0")
              (pathElements p) (pathIndices p) = Ok res
         /\ valid res = true.
Proof.
  assert (exists tree,
            @create sampleOracle Sample.threeLeaves = Ok tree
            /\ len (leaves tree) = 4) as (tree & Htree & Hlen).
  { eexists. split; vm_compute; reflexivity. }
  exists tree. split; [exact Htree |]. split; [exact Hlen |].
  apply (merkle_padding_leaves_provable sampleHost sampleOracle
           Sample.threeLeaves tree 3 Htree).
  rewrite Hlen. unfold len, Sample.threeLeaves. cbn [length]. lia.
Defined.

(** C6, as stated, fails: a path element that is not a [BigInt] literal
    makes [merkle.verify] throw a SyntaxError. *)
Lemma merkle_verify_throws_on_malformed_element :
  @verify sampleHost sampleOracle (str "0x00") (str "a") [Some (str "zz")] [0]
  = Throw SyntaxError.
Proof. vm_compute. reflexivity. Qed.

(** C6 (amended): [merkle.verify(root, leaf, proof)] returns a result
    exactly when the leaf's field encoding is defined and every entry of
    [pathElements] is a string that [BigInt] parses, and throws otherwise;
    the length and the contents of [pathIndices] never cause an exception
    (a missing or non-zero entry is read as "current is right").  The
    result repeats [root] and [leaf]; its [computedRoot] is the last of
    the nodes recomputed from the leaf: the first node is the digest of
    the leaf's field encoding, and node [i + 1] is the digest of node [i]
    and path element [i], node [i] on the left exactly when
    [pathIndices[i]] is 0.  The returned [valid] is true exactly when that
    recomputed root equals [root] up to letter case. *)
Theorem merkle_verify_throws_only_on_unparsable_input (host : JsHost)
    (oracle : FieldHashOracle) (root leaf : jsstring)
    (elements : list (option jsstring)) (indices : list Z) :
  (encodable leaf /\ Forall parsableElement elements ->
   exists res field nodes,
     verify root leaf elements indices = Ok res
     /\ expectedRoot res = root
     /\ verifiedLeaf res = leaf
     /\ (valid res = true
         <-> toLowerCase (computedRoot res) = toLowerCase root)
     /\ stringToFieldElement leaf = Ok field
     /\ length nodes = S (length elements)
     /\ nodes !! 0%nat = Some (poseidonHex [field])
     /\ last nodes = Some (computedRoot res)
     /\ forall i element current,
          elements !! i = Some element -> nodes !! i = Some current ->
          exists sibling currentValue,
            BigIntOfElement element = Ok sibling
            /\ BigIntOfString current = Ok currentValue
            /\ (indices !! i = Some 0 ->
                nodes !! S i = Some (poseidonHex [currentValue; sibling]))
            /\ (indices !! i <> Some 0 ->
                nodes !! S i = Some (poseidonHex [sibling; currentValue])))
  /\ (~ (encodable leaf /\ Forall parsableElement elements) ->
      exists e, verify root leaf elements indices = Throw e).
Proof.
  unfold verify.
  destruct (stringToFieldElement leaf) as [field | e |] eqn:Efield.
  - cbn [bind].
    destruct (verifyLoop_outcome elements 0 indices (poseidonHex [field]))
      as [[Hall (r & Hr & _)] | [Hnot [e He]]]; [eexists; reflexivity | |].
    + rewrite Hr. cbn [bind]. split.
      * intros _.
        destruct (verifyLoop_trace elements 0 indices _ r Hr)
          as (nodes & Hlen & Hfirst & Hlast & Hsteps).
        eexists. exists field, nodes. split; [reflexivity |].
        cbn [expectedRoot verifiedLeaf valid computedRoot].
        split; [reflexivity |]. split; [reflexivity |].
        split; [apply bool_decide_eq_true |].
        split; [reflexivity |]. split; [exact Hlen |].
        split; [exact Hfirst |]. split; [exact Hlast |]. exact Hsteps.
      * intros Hnot. exfalso. apply Hnot. split; [| exact Hall].
        apply encodable_iff. eauto.
    + rewrite He. cbn [bind]. split.
      * intros [_ Hall]. contradiction.
      * intros _. eauto.
  - cbn [bind]. split.
    + intros [Henc _]. apply encodable_iff in Henc as [f Hf]. congruence.
    + intros _. eauto.
  - unfold stringToFieldElement, BigIntOfString in Efield.
    destruct (startsWith leaf (str "0x")); [| discriminate].
    destruct (StringToBigInt leaf); discriminate.
Qed.

(** A proof whose [pathIndices] array is empty while [pathElements] has
    one entry: no exception, a result is returned, and the one step puts
    the current node on the right. *)
Lemma merkle_verify_throws_only_on_unparsable_input_witness :
  exists res field nodes,
    @verify sampleHost sampleOracle (str "0x00") (str "alice")
      [Some (str "0x2a")] [] = Ok res
    /\ expectedRoot res = str "0x00"
    /\ verifiedLeaf res = str "alice"
    /\ (valid res = true
        <-> @toLowerCase sampleHost (computedRoot res)
            = @toLowerCase sampleHost (str "0x00"))
    /\ stringToFieldElement (str "alice") = Ok field
    /\ length nodes = S (length [Some (str "0x2a")])
    /\ nodes !! 0%nat = Some (@poseidonHex sampleOracle [field])
    /\ last nodes = Some (computedRoot res)
    /\ forall i element current,
         [Some (str "0x2a")] !! i = Some element ->
         nodes !! i = Some current ->
         exists sibling currentValue,
           BigIntOfElement element = Ok sibling
           /\ BigIntOfString current = Ok currentValue
           /\ (@nil Z !! i = Some 0 ->
               nodes !! S i
               = Some (@poseidonHex sampleOracle [currentValue; sibling]))
           /\ (@nil Z !! i <> Some 0 ->
               nodes !! S i
               = Some (@poseidonHex sampleOracle [sibling; currentValue])).
Proof.
  apply (proj1 (merkle_verify_throws_only_on_unparsable_input
                  sampleHost sampleOracle (str "0x00") (str "alice")
                  [Some (str "0x2a")] [])).
  split.
  - intros H. discriminate.
  - constructor; [| constructor]. eexists. reflexivity.
Defined.

(** A proof with a mismatched [pathIndices] array is not thereby
    rejected: for the last leaf of a two-leaf tree every path index is 1,
    which is also how a missing index is read, so the proof with
    [pathIndices] emptied still verifies. *)
Example merkle_missing_indices_still_valid :
  bind (@create sampleOracle [str "alice"; str "bob"])
    (fun tree =>
       bind (proof tree 1)
         (fun p =>
            match root tree with
            | Some rootHex =>
                bind (@verify sampleHost sampleOracle rootHex (str "bob")
                        (pathElements p) [])
                  (fun res => Ok (pathIndices p, valid res))
            | None => Throw TypeError
            end))
  = Ok ([1], true).
Proof. vm_compute. reflexivity. Qed.

(** The scenario of four leaves: the proof for index 2 verifies
    ["charlie"], and ["charlie"] does not verify against the proof
    generated for index 1. *)
Example merkle_four_leaves_scenario :
  bind (@create sampleOracle
          [str "alice"; str "bob"; str "charlie"; str "dave"])
    (fun tree =>
       bind (proof tree 2)
         (fun p2 =>
            bind (proof tree 1)
              (fun p1 =>
                 match root tree with
                 | Some rootHex =>
                     bind (@verify sampleHost sampleOracle rootHex
                             (str "charlie") (pathElements p2)
                             (pathIndices p2))
                       (fun ok =>
                          bind (@verify sampleHost sampleOracle rootHex
                                  (str "charlie") (pathElements p1)
                                  (pathIndices p1))
                            (fun other =>
                               Ok (depth tree, valid ok, valid other)))
                 | None => Throw TypeError
                 end)))
  = Ok (2, true, false).
Proof. vm_compute. reflexivity. Qed.

End MerkleClaims.

(* ===================================================================== *)
(** * Facts about the range proof engine *)
(* ===================================================================== *)

Section RangeFacts.
Import Js Range.
Context {host : JsHost} {oracle : FieldHashOracle}.

Lemma ToInt32_mod (n : Z) : ToInt32 n mod 2 ^ 32 = n mod 2 ^ 32.
Proof.
  unfold ToInt32. change 4294967296 with (2 ^ 32).
  destruct (n mod 2 ^ 32 <? 2147483648).
  - apply Z.mod_mod. lia.
  - replace (n mod 2 ^ 32 - 2 ^ 32) with (n mod 2 ^ 32 + (-1) * 2 ^ 32) by lia.
    rewrite Z.mod_add by lia. apply Z.mod_mod. lia.
Qed.

Lemma ToInt32_testbit (n i : Z) :
  0 <= i < 32 -> Z.testbit (ToInt32 n) i = Z.testbit n i.
Proof.
  intros Hi.
  rewrite <- (Z.mod_pow2_bits_low (ToInt32 n) 32 i) by lia.
  rewrite ToInt32_mod. apply Z.mod_pow2_bits_low. lia.
Qed.

(** [(n >> i) & 1] is bit [i] of [n] as long as [i < 32]. *)
Lemma shift_and_one (n i : Z) :
  0 <= i < 32 ->
  bitAnd (shiftRight n i) 1 = Z.b2z (Z.testbit n i).
Proof.
  intros Hi. unfold bitAnd, shiftRight.
  change (ToInt32 1) with (Z.ones 1).
  rewrite Z.land_ones by lia. change (2 ^ 1) with 2.
  rewrite <- Z.bit0_mod.
  rewrite ToInt32_testbit by lia.
  rewrite Z.shiftr_spec by lia.
  rewrite Z.mod_small by lia. cbn [Z.add].
  rewrite ToInt32_testbit by lia. reflexivity.
Qed.

Lemma proveLoop_length (steps : nat) (i nv saltBigInt : Z) :
  length (fst (proveLoop steps i nv saltBigInt)) = steps
  /\ length (snd (proveLoop steps i nv saltBigInt)) = steps.
Proof.
  revert i. induction steps as [| steps IH]; intros i; cbn; [auto |].
  destruct (IH (i + 1)) as [-> ->]. auto.
Qed.

Lemma proveLoop_bits (steps : nat) :
  forall (i nv saltBigInt : Z) (j : nat),
    0 <= i -> i + Z.of_nat steps <= 32 -> (j < steps)%nat ->
    fst (proveLoop steps i nv saltBigInt) !! j
    = Some (Z.b2z (Z.testbit nv (i + Z.of_nat j))).
Proof.
  induction steps as [| steps IH]; intros i nv s j Hi Hmax Hj; [lia |].
  cbn [proveLoop fst]. destruct j as [| j]; cbn [lookup list_lookup].
  - rewrite shift_and_one by lia. rewrite Z.add_0_r. reflexivity.
  - rewrite IH by lia. do 3 f_equal. lia.
Qed.

Lemma proveLoop_binary (steps : nat) :
  forall (i nv saltBigInt : Z),
    0 <= i -> i + Z.of_nat steps <= 32 ->
    forallb (fun bit => (bit =? 0) || (bit =? 1))
      (fst (proveLoop steps i nv saltBigInt)) = true.
Proof.
  induction steps as [| steps IH]; intros i nv s Hi Hmax; [reflexivity |].
  cbn [proveLoop fst forallb]. rewrite IH by lia.
  rewrite shift_and_one by lia. destruct (Z.testbit nv i); reflexivity.
Qed.

(** The bits written by [proveLoop] sum back, in [reconstructLoop], to the
    low bits of the normalized value. *)
Lemma reconstruct_proveLoop (steps : nat) :
  forall (i nv saltBigInt acc : Z),
    0 <= i -> i + Z.of_nat steps <= 32 ->
    reconstructLoop (fst (proveLoop steps i nv saltBigInt)) i acc
    = acc + ((nv / 2 ^ i) mod 2 ^ Z.of_nat steps) * 2 ^ i.
Proof.
  induction steps as [| steps IH]; intros i nv s acc Hi Hmax.
  - cbn. rewrite Z.mod_1_r. lia.
  - cbn [proveLoop fst reconstructLoop].
    rewrite IH by lia. rewrite shift_and_one by lia.
    rewrite Z.testbit_spec' by lia.
    replace (2 ^ Z.of_nat (S steps)) with (2 * 2 ^ Z.of_nat steps)
      by (rewrite Nat2Z.inj_succ, Z.pow_succ_r by lia; reflexivity).
    assert (0 < 2 ^ Z.of_nat steps) as Hp by (apply Z.pow_pos_nonneg; lia).
    rewrite Z.rem_mul_r by lia.
    rewrite Z.pow_add_r by lia. change (2 ^ 1) with 2.
    rewrite <- Z.div_div by (try apply Z.pow_pos_nonneg; lia).
    ring.
Qed.

Lemma commitmentsLoop_proveLoop (steps : nat) :
  forall (k : nat) (nv saltBigInt : Z) (before : list jsstring),
    length before = k ->
    commitmentsLoop (fst (proveLoop steps (Z.of_nat k) nv saltBigInt)) k
      (before ++ snd (proveLoop steps (Z.of_nat k) nv saltBigInt)) saltBigInt
    = Ok true.
Proof.
  induction steps as [| steps IH]; intros k nv s before Hk; [reflexivity |].
  cbn [proveLoop fst snd commitmentsLoop].
  rewrite list_lookup_middle by (symmetry; exact Hk).
  rewrite bool_decide_eq_false_2 by (intros Hne; apply Hne; reflexivity).
  replace (Z.of_nat k + 1) with (Z.of_nat (S k)) by lia.
  specialize (IH (S k) nv s (before ++ [poseidonHex
     [bitAnd (shiftRight nv (Z.of_nat k)) 1; s; Z.of_nat k]])).
  rewrite <- app_assoc in IH. cbn [app] in IH. apply IH.
  rewrite length_app. cbn [length]. lia.
Qed.

Lemma bitWidth_bounds (rangeSize : Z) :
  0 <= rangeSize < 2 ^ 32 ->
  let bitWidth := Z.max 1 (MathCeilLog2 (rangeSize + 1)) in
  1 <= bitWidth <= 32 /\ rangeSize < 2 ^ bitWidth.
Proof.
  intros Hr. cbn zeta.
  rewrite MathCeilLog2_exact by (change (2 ^ 33) with 8589934592; lia).
  assert (Z.log2_up (rangeSize + 1) <= 32) as Hup
    by (apply Z.log2_up_le_pow2; lia).
  pose proof (Z.log2_up_nonneg (rangeSize + 1)) as Hnn.
  split; [lia |].
  destruct (Z.eq_dec rangeSize 0) as [-> | Hnz].
  - cbn. lia.
  - pose proof (Z.log2_up_spec (rangeSize + 1) ltac:(lia)) as [_ Hs].
    assert (2 ^ Z.log2_up (rangeSize + 1)
            <= 2 ^ Z.max 1 (Z.log2_up (rangeSize + 1)))
      by (apply Z.pow_le_mono_r; lia).
    lia.
Qed.

End RangeFacts.

(* ===================================================================== *)
(** * The range claims *)
(* ===================================================================== *)

Section RangeClaims.
Import Js Range.

(** C2, as stated, fails: the decomposition uses 32-bit operators, and for
    [prove(1, 0, 2^32)] the bit width is 33, the shift count 32 wraps to 0,
    the bits read back as [1 + 2^32], and [range.verify] reports
    [valueInRange == false]. *)
Lemma range_wide_range_not_verified :
  bind (@prove sampleHost sampleOracle 1 0 (2 ^ 32) Sample.entropy)
    (fun p => Ok (valid p, length (bits p),
                  reconstructLoop (bits p) 0 0 + min p))
  = Ok (true, 33%nat, 1 + 2 ^ 32)
  /\ bind (@prove sampleHost sampleOracle 1 0 (2 ^ 32) Sample.entropy)
       (@verify sampleHost sampleOracle)
     = Ok {| verifyValid := false; verifyMin := 0; verifyMax := 2 ^ 32;
             checks := {| bitsAreBinary := true; valueInRange := false;
                          commitmentsMatch := false |} |}.
Proof. split; vm_compute; reflexivity. Qed.

(** That range is the one [proveGreaterThan] asks for with threshold -1. *)
Example proveGreaterThan_reaches_wide_range :
  @proveGreaterThan sampleHost sampleOracle 1 (-1) Sample.entropy
  = @prove sampleHost sampleOracle 1 0 (2 ^ 32) Sample.entropy.
Proof. reflexivity. Qed.

(** C2 (amended): for all safe integers with [min <= value <= max] and
    [max - min < 2^32], [range.prove(value, min, max)] returns a proof with
    [valid == true] whose bit [i] is bit [i] of [value - min], whose bits
    satisfy [sum(bits[i] * 2^i) + min == value], and on which
    [range.verify] returns [valid == true] with all three checks true. *)
Theorem range_prove_verify (host : JsHost) (oracle : FieldHashOracle)
    (value min max : Z) (randomBytes : list byte) :
  isSafeInteger min -> isSafeInteger max ->
  min <= value <= max -> max - min < 2 ^ 32 ->
  length randomBytes = 32%nat ->
  exists p,
    prove value min max randomBytes = Ok p
    /\ valid p = true
    /\ (forall i, 0 <= i < len (bits p) ->
          bits p !! Z.to_nat i = Some (Z.b2z (Z.testbit (value - min) i)))
    /\ reconstructLoop (bits p) 0 0 + min = value
    /\ verify p
       = Ok {| verifyValid := true; verifyMin := min; verifyMax := max;
               checks := {| bitsAreBinary := true; valueInRange := true;
                            commitmentsMatch := true |} |}.
Proof.
  intros _ _ Hin Hsize Hrandom.
  unfold prove.
  replace ((value <? min) || (value >? max)) with false by lia.
  assert (randomBytes <> []) as Hne by (intros ->; discriminate).
  change (generateSalt randomBytes) with (toHex randomBytes).
  rewrite (BigIntOfString_toHex randomBytes Hne). cbn [bind].
  set (saltBigInt := bytesValueFrom 0 randomBytes).
  set (nv := value - min).
  destruct (bitWidth_bounds (max - min) ltac:(lia)) as [Hw Hlt].
  set (w := Z.max 1 (MathCeilLog2 (max - min + 1))) in *.
  destruct (proveLoop_length (Z.to_nat w) 0 nv saltBigInt) as [Hlb Hlc].
  assert (reconstructLoop (fst (proveLoop (Z.to_nat w) 0 nv saltBigInt)) 0 0
          = nv) as Hsum.
  { rewrite reconstruct_proveLoop by lia.
    rewrite Z2Nat.id by lia. change (2 ^ 0) with 1.
    rewrite Z.div_1_r, Z.mod_small; unfold nv; lia. }
  eexists. split; [reflexivity |].
  cbn [valid bits]. split; [reflexivity |].
  split; [| split].
  - intros i Hi. unfold len in Hi. rewrite Hlb in Hi.
    rewrite proveLoop_bits by lia.
    rewrite Z2Nat.id by lia. reflexivity.
  - rewrite Hsum. unfold nv. lia.
  - unfold verify.
    cbn [valid bits Range.min Range.max salt bitCommitments valueCommitment
         negb orb].
    assert (len (fst (proveLoop (Z.to_nat w) 0 nv saltBigInt)) = w) as Hlw
      by (unfold len; rewrite Hlb; lia).
    replace (len (fst (proveLoop (Z.to_nat w) 0 nv saltBigInt)) =? 0)
      with false by (rewrite Hlw; lia).
    rewrite proveLoop_binary by lia. cbn [negb].
    rewrite Hsum.
    replace ((nv + min >=? min) && (nv + min <=? max)) with true
      by (unfold nv; lia).
    cbn [negb].
    rewrite (BigIntOfString_toHex randomBytes Hne). cbn [bind].
    fold saltBigInt.
    pose proof (commitmentsLoop_proveLoop (Z.to_nat w) 0 nv saltBigInt []
                  eq_refl) as Hc.
    change (Z.of_nat 0) with 0 in Hc. cbn [app] in Hc.
    rewrite Hc. cbn [bind].
    replace (nv + min) with value by (unfold nv; lia).
    rewrite bool_decide_eq_false_2 by (intros Hd; apply Hd; reflexivity).
    reflexivity.
Qed.

Lemma range_prove_verify_witness :
  exists p,
    @prove sampleHost sampleOracle 25 18 100 Sample.entropy = Ok p
    /\ valid p = true
    /\ (forall i, 0 <= i < len (bits p) ->
          bits p !! Z.to_nat i = Some (Z.b2z (Z.testbit (25 - 18) i)))
    /\ reconstructLoop (bits p) 0 0 + 18 = 25
    /\ @verify sampleHost sampleOracle p
       = Ok {| verifyValid := true; verifyMin := 18; verifyMax := 100;
               checks := {| bitsAreBinary := true; valueInRange := true;
                            commitmentsMatch := true |} |}.
Proof.
  apply (range_prove_verify sampleHost sampleOracle 25 18 100 Sample.entropy).
  - unfold isSafeInteger. lia.
  - unfold isSafeInteger. lia.
  - lia.
  - vm_compute. reflexivity.
  - reflexivity.
Defined.

(** C5: whenever [value < min] or [value > max], [range.prove] returns,
    without throwing, a proof object whose [valid] is false and whose
    [bits] and [bitCommitments] are empty. *)
Theorem range_prove_out_of_range (host : JsHost) (oracle : FieldHashOracle)
    (value min max : Z) (randomBytes : list byte) :
  value < min \/ value > max ->
  exists p,
    prove value min max randomBytes = Ok p
    /\ valid p = false /\ bits p = [] /\ bitCommitments p = []
    /\ Range.min p = min /\ Range.max p = max.
Proof.
  intros Hout. unfold prove.
  replace ((value <? min) || (value >? max)) with true by lia.
  eexists. repeat split; reflexivity.
Qed.

Lemma range_prove_out_of_range_witness :
  exists p,
    @prove sampleHost sampleOracle 15 18 100 Sample.entropy = Ok p
    /\ valid p = false /\ bits p = [] /\ bitCommitments p = []
    /\ Range.min p = 18 /\ Range.max p = 100.
Proof.
  apply (range_prove_out_of_range sampleHost sampleOracle 15 18 100
           Sample.entropy).
  left. lia.
Defined.

(** C10: whenever the proof's own [valid] field is false or its [bits]
    array is empty, [range.verify] returns [valid == false] with all three
    checks false.  The result is the same for every oracle and every
    content of the commitment fields: no commitment is recomputed. *)
Theorem range_verify_rejects_declared_invalid (host : JsHost)
    (oracle : FieldHashOracle) (p : RangeProof) :
  valid p = false \/ bits p = [] ->
  verify p
  = Ok {| verifyValid := false; verifyMin := min p; verifyMax := max p;
          checks := {| bitsAreBinary := false; valueInRange := false;
                       commitmentsMatch := false |} |}.
Proof.
  intros [Hv | Hb]; unfold verify.
  - rewrite Hv. reflexivity.
  - rewrite Hb. rewrite orb_true_r. reflexivity.
Qed.

Lemma range_verify_rejects_declared_invalid_witness :
  @verify sampleHost sampleOracle (Sample.rangeProofWithFlag false)
  = Ok {| verifyValid := false; verifyMin := 18; verifyMax := 100;
          checks := {| bitsAreBinary := false; valueInRange := false;
                       commitmentsMatch := false |} |}.
Proof.
  apply (range_verify_rejects_declared_invalid sampleHost sampleOracle
           (Sample.rangeProofWithFlag false)).
  left. reflexivity.
Defined.

(** The same object with [valid] set to true is accepted: the rejection
    above is due to the flag alone. *)
Example range_verify_accepts_when_flag_set :
  @verify sampleHost sampleOracle (Sample.rangeProofWithFlag true)
  = Ok {| verifyValid := true; verifyMin := 18; verifyMax := 100;
          checks := {| bitsAreBinary := true; valueInRange := true;
                       commitmentsMatch := true |} |}.
Proof. vm_compute. reflexivity. Qed.

End RangeClaims.

(* ===================================================================== *)
(** * Facts about the commitment scheme *)
(* ===================================================================== *)

Section CommitFacts.
Import Js Commit.
Context {host : JsHost} {oracle : FieldHashOracle}.

Lemma hexChar_no_space (c : Z) :
  isHexChar c -> isStrWhiteSpaceChar c = false.
Proof.
  intros [d Hd]. unfold digitValue in Hd. unfold isStrWhiteSpaceChar.
  destruct ((48 <=? c) && (c <=? 57)) eqn:E1;
    [repeat (apply orb_false_intro); lia |].
  destruct ((97 <=? c) && (c <=? 102)) eqn:E2;
    [repeat (apply orb_false_intro); lia |].
  destruct ((65 <=? c) && (c <=? 70)) eqn:E3;
    [repeat (apply orb_false_intro); lia | discriminate].
Qed.

Lemma hexDigit_hexChar (d : Z) : 0 <= d < 16 -> isHexChar (hexDigit d).
Proof. intros Hd. exists d. apply digitValue_hexDigit, Hd. Qed.

Lemma hexOfBytes_hexChars (bs : list byte) : Forall isHexChar (hexOfBytes bs).
Proof.
  unfold hexOfBytes. induction bs as [| b bs IH]; cbn [map concat].
  - constructor.
  - apply Forall_app. split; [| exact IH].
    rewrite byteHex_digits. pose proof (byteToZ_range b) as Hb.
    constructor; [| constructor; [| constructor]];
      apply hexDigit_hexChar; nibble_bound.
Qed.

Lemma parseDigitsFrom_hexChars (ds : jsstring) :
  Forall isHexChar ds ->
  forall acc, exists z, parseDigitsFrom 16 acc ds = Some z.
Proof.
  induction 1 as [| c ds [d Hd] _ IH]; intros acc; cbn [parseDigitsFrom].
  - eauto.
  - rewrite Hd. apply IH.
Qed.

(** ["0x"] followed by a non-empty run of hexadecimal digits is a literal
    that [BigInt] accepts. *)
Lemma BigIntOfString_hex_literal (ds : jsstring) :
  ds <> [] -> Forall isHexChar ds ->
  exists z, BigIntOfString (str "0x" ++ ds) = Ok z.
Proof.
  intros Hne Hds. unfold BigIntOfString, StringToBigInt.
  rewrite trimString_no_space.
  - change (str "0x") with [48; 120]. cbn [app]. unfold parseDigits.
    destruct ds as [| c ds]; [congruence |].
    destruct (parseDigitsFrom_hexChars (c :: ds) Hds 0) as [z ->]. eauto.
  - apply Forall_app. split.
    + constructor; [| constructor; [| constructor]]; reflexivity.
    + eapply Forall_impl; [exact Hds |]. intros c. apply hexChar_no_space.
Qed.

(** The salt derived from a secret: ["0x"] and exactly 64 hexadecimal
    digits, the hex of the secret's UTF-8 bytes cut or zero-filled on the
    right. *)
Lemma saltOfSecret_shape (secret : jsstring) :
  let hex := hexOfBytes (encodeUtf8 secret) in
  exists body,
    saltOfSecret secret = str "0x" ++ body
    /\ length body = 64%nat
    /\ Forall isHexChar body
    /\ ((length hex <= 64)%nat ->
        body = hex ++ repeat 48 (64 - length hex))
    /\ ((64 <= length hex)%nat -> body = firstn 64 hex).
Proof.
  cbn zeta. set (hex := hexOfBytes (encodeUtf8 secret)).
  exists (firstn 64 (hex ++ repeat 48 (64 - length hex))).
  split; [reflexivity |]. split; [| split; [| split]].
  - rewrite length_firstn, length_app, repeat_length. lia.
  - apply Forall_take, Forall_app. split.
    + apply hexOfBytes_hexChars.
    + apply Forall_forall. intros x Hx.
      apply list_elem_of_In, repeat_spec in Hx. subst x.
      exists 0. reflexivity.
  - intros Hshort. apply firstn_all2.
    rewrite length_app, repeat_length. lia.
  - intros Hlong. replace (64 - length hex)%nat with 0%nat by lia.
    cbn [repeat]. rewrite app_nil_r. reflexivity.
Qed.

Lemma hexToFieldElement_saltOfSecret (secret : jsstring) :
  exists saltField, hexToFieldElement (saltOfSecret secret) = Ok saltField.
Proof.
  destruct (saltOfSecret_shape secret) as (body & -> & Hlen & Hhex & _).
  unfold hexToFieldElement.
  change (startsWith (str "0x" ++ body) (str "0x")) with true.
  change (sliceFrom (str "0x" ++ body) 2) with body.
  apply BigIntOfString_hex_literal; [| exact Hhex].
  intros ->. discriminate.
Qed.

Lemma hexToFieldElement_generateSalt (randomBytes : list byte) :
  randomBytes <> [] ->
  exists saltField, hexToFieldElement (generateSalt randomBytes) = Ok saltField.
Proof.
  intros Hne. unfold hexToFieldElement, generateSalt.
  change (startsWith (str "0x" ++ hexOfBytes randomBytes) (str "0x"))
    with true.
  change (sliceFrom (str "0x" ++ hexOfBytes randomBytes) 2)
    with (hexOfBytes randomBytes).
  apply BigIntOfString_hex_literal.
  - apply hexOfBytes_nonempty, Hne.
  - apply hexOfBytes_hexChars.
Qed.

(** [create] with a non-empty secret, unfolded. *)
Lemma create_with_secret (value : jsvalue) (secret : jsstring)
    (randomBytes : list byte) (field saltField : Z) :
  secret <> [] ->
  valueToFieldElement value = Ok field ->
  hexToFieldElement (saltOfSecret secret) = Ok saltField ->
  create value (Some secret) randomBytes
  = Ok {| commitment := poseidonHex [field; saltField];
          salt := saltOfSecret secret;
          value := valueToString value;
          algorithm := "Pedersen-Poseidon" |}.
Proof.
  intros Hne Hf Hs. unfold create.
  destruct secret as [| c s]; [congruence |].
  rewrite Hf. cbn [bind]. rewrite Hs. reflexivity.
Qed.

(** [create] returns only for a value whose field encoding is defined. *)
Lemma create_only_encodable_value (value : jsvalue)
    (secret : option jsstring) (randomBytes : list byte)
    (c : CommitmentResult) :
  create value secret randomBytes = Ok c ->
  exists field, valueToFieldElement value = Ok field.
Proof.
  unfold create. intros H.
  destruct (valueToFieldElement value) as [field | |]; [eauto | discriminate ..].
Qed.

End CommitFacts.

(* ===================================================================== *)
(** * The commitment claims *)
(* ===================================================================== *)

Section CommitClaims.
Import Js Commit.

(** C3, as stated, fails: a value that begins with ["0x"] is parsed by
    [BigInt], and for a value such as ["0xzz"] [commit.create] throws a
    SyntaxError, so no commitment exists to be revealed. *)
Lemma commit_create_rejects_malformed_hex_value :
  @create sampleHost sampleOracle (VString (str "0xzz"))
    (Some (str "my_random_secret")) Sample.entropy
  = Throw SyntaxError.
Proof. vm_compute. reflexivity. Qed.

(** With the empty string as secret, [create] draws a random salt while
    [reveal] derives the all-zero salt, and the commitment does not open. *)
Example commit_empty_secret_not_opened :
  bind (@create sampleHost sampleOracle (VString (str "abc")) (Some [])
          Sample.entropy)
    (fun c => Ok (salt c))
  = Ok (generateSalt Sample.entropy)
  /\ bind (@create sampleHost sampleOracle (VString (str "abc")) (Some [])
             Sample.entropy)
       (fun c =>
          bind (@reveal sampleHost sampleOracle (commitment c)
                  (VString (str "abc")) [])
            (fun r => Ok (valid r)))
     = Ok false.
Proof. split; vm_compute; reflexivity. Qed.

(** C3 (amended): for every value whose field encoding is defined and
    every non-empty secret, [commit.create(value, secret)] returns a
    commitment and [commit.reveal(commitment, value, secret)] returns
    [valid == true]; both derive the same salt from the secret, ["0x"]
    followed by the hex encoding of the secret's bytes right-padded with
    ["0"] or truncated to 64 hexadecimal characters; when the secret is
    absent the salt is the hex of the 32 random bytes. *)
Theorem commit_reveal_opens (host : JsHost) (oracle : FieldHashOracle)
    (v : jsvalue) (secret : jsstring) (randomBytes : list byte) :
  secret <> [] ->
  (exists field, valueToFieldElement v = Ok field) ->
  length randomBytes = 32%nat ->
  (exists c r,
     create v (Some secret) randomBytes = Ok c
     /\ reveal (commitment c) v secret = Ok r
     /\ valid r = true
     /\ salt c = saltOfSecret secret
     /\ revealSalt r = saltOfSecret secret)
  /\ (let hex := hexOfBytes (encodeUtf8 secret) in
      exists body,
        saltOfSecret secret = str "0x" ++ body
        /\ length body = 64%nat
        /\ ((length hex <= 64)%nat ->
            body = hex ++ repeat 48 (64 - length hex))
        /\ ((64 <= length hex)%nat -> body = firstn 64 hex))
  /\ (exists c,
        create v None randomBytes = Ok c
        /\ salt c = str "0x" ++ hexOfBytes randomBytes).
Proof.
  intros Hne [field Hfield] Hrandom. split; [| split].
  - destruct (hexToFieldElement_saltOfSecret secret) as [saltField Hsalt].
    do 2 eexists.
    split; [apply (create_with_secret v secret randomBytes field saltField);
            assumption |].
    cbn [commitment salt]. unfold reveal.
    rewrite Hfield. cbn [bind]. rewrite Hsalt. cbn [bind].
    split; [reflexivity |]. cbn [valid revealSalt].
    split; [apply bool_decide_eq_true; reflexivity |]. auto.
  - cbn zeta. destruct (saltOfSecret_shape secret)
      as (body & Hb & Hl & _ & Hs & Hg).
    exists body. auto.
  - assert (randomBytes <> []) as Hr by (intros ->; discriminate).
    destruct (hexToFieldElement_generateSalt randomBytes Hr) as [sf Hsf].
    unfold create. rewrite Hfield. cbn [bind]. rewrite Hsf. cbn [bind].
    eexists. split; reflexivity.
Qed.

Lemma commit_reveal_opens_witness :
  (exists c r,
     @create sampleHost sampleOracle (VNumber (Finite (inject_Z 100)))
       (Some Sample.secret) Sample.entropy = Ok c
     /\ @reveal sampleHost sampleOracle (commitment c)
          (VNumber (Finite (inject_Z 100))) Sample.secret = Ok r
     /\ valid r = true
     /\ salt c = saltOfSecret Sample.secret
     /\ revealSalt r = saltOfSecret Sample.secret)
  /\ (let hex := hexOfBytes (encodeUtf8 Sample.secret) in
      exists body,
        saltOfSecret Sample.secret = str "0x" ++ body
        /\ length body = 64%nat
        /\ ((length hex <= 64)%nat ->
            body = hex ++ repeat 48 (64 - length hex))
        /\ ((64 <= length hex)%nat -> body = firstn 64 hex))
  /\ (exists c,
        @create sampleHost sampleOracle (VNumber (Finite (inject_Z 100))) None
          Sample.entropy = Ok c
        /\ salt c = str "0x" ++ hexOfBytes Sample.entropy).
Proof.
  apply (commit_reveal_opens sampleHost sampleOracle
           (VNumber (Finite (inject_Z 100))) Sample.secret Sample.entropy).
  - discriminate.
  - eexists. reflexivity.
  - reflexivity.
Defined.

(** C4, as stated, fails: ["0x1"] and ["0x01"] are different values with
    the same field encoding, and the second opens a commitment to the
    first. *)
Lemma commit_distinct_values_same_commitment :
  VString (str "0x1") <> VString (str "0x01")
  /\ bind (@create sampleHost sampleOracle (VString (str "0x1"))
             (Some (str "s")) Sample.entropy)
       (fun c =>
          bind (@reveal sampleHost sampleOracle (commitment c)
                  (VString (str "0x01")) (str "s"))
            (fun r => Ok (valid r)))
     = Ok true.
Proof. split; [discriminate | vm_compute; reflexivity]. Qed.

(** C4 (amended): for a commitment created for [value] under a non-empty
    secret and any other claimed value whose field encoding is defined,
    [commit.reveal] returns, and its [valid] is false exactly when the
    oracle's digest of (encoding of the claimed value, salt) differs from
    its digest of (encoding of [value], salt); a claimed value with the same
    field encoding as [value] therefore opens the commitment. *)
Theorem commit_reveal_other_value (host : JsHost) (oracle : FieldHashOracle)
    (v v' : jsvalue) (secret : jsstring) (randomBytes : list byte)
    (field field' : Z) :
  secret <> [] ->
  valueToFieldElement v = Ok field ->
  valueToFieldElement v' = Ok field' ->
  exists c r saltField,
    create v (Some secret) randomBytes = Ok c
    /\ hexToFieldElement (saltOfSecret secret) = Ok saltField
    /\ reveal (commitment c) v' secret = Ok r
    /\ (valid r = false
        <-> poseidon [field'; saltField] <> poseidon [field; saltField])
    /\ (field' = field -> valid r = true).
Proof.
  intros Hne Hf Hf'.
  destruct (hexToFieldElement_saltOfSecret secret) as [saltField Hsalt].
  do 2 eexists. exists saltField.
  split; [apply (create_with_secret v secret randomBytes field saltField);
          assumption |].
  split; [exact Hsalt |].
  cbn [commitment]. unfold reveal.
  rewrite Hf'. cbn [bind]. rewrite Hsalt. cbn [bind].
  split; [reflexivity |]. cbn [valid].
  rewrite !toLowerCase_poseidonHex. split.
  - rewrite bool_decide_eq_false. unfold poseidonHex. split.
    + intros Hne' Heq. apply Hne'. rewrite Heq. reflexivity.
    + intros Hne' Heq. apply Hne'. apply toHex_inj, Heq.
  - intros ->. apply bool_decide_eq_true. reflexivity.
Qed.

Lemma commit_reveal_other_value_witness :
  exists c r saltField,
    @create sampleHost sampleOracle (VBigInt 7) (Some (str "s"))
      Sample.entropy = Ok c
    /\ hexToFieldElement (saltOfSecret (str "s")) = Ok saltField
    /\ @reveal sampleHost sampleOracle (commitment c) (VBigInt 8) (str "s")
       = Ok r
    /\ (valid r = false
        <-> @poseidon sampleOracle [8; saltField]
            <> @poseidon sampleOracle [7; saltField])
    /\ (8 = 7 -> valid r = true).
Proof.
  apply (commit_reveal_other_value sampleHost sampleOracle
           (VBigInt 7) (VBigInt 8) (str "s") Sample.entropy 7 8).
  - discriminate.
  - reflexivity.
  - reflexivity.
Defined.

End CommitClaims.

(* ===================================================================== *)
(** * The string-to-field encoders: facts and claim *)
(* ===================================================================== *)

Section EncoderFacts.
Import Js.

Lemma bytesValueFrom_bigEndian (bs : list byte) :
  forall acc,
    bytesValueFrom acc bs = acc * 256 ^ Z.of_nat (length bs) + bigEndian bs.
Proof.
  unfold bytesValueFrom.
  induction bs as [| b bs IH]; intros acc; cbn [fold_left bigEndian length].
  - cbn. lia.
  - rewrite IH. rewrite Nat2Z.inj_succ, Z.pow_succ_r by lia. ring.
Qed.

(** The indexed loop reads the bytes [i], [i+1], ... for at most [steps]
    rounds. *)
Lemma accumulateLoop_spec (steps : nat) :
  forall (i : nat) (bytes : list byte) (acc : Z),
    accumulateLoop steps i bytes acc
    = bytesValueFrom acc (firstn steps (skipn i bytes)).
Proof.
  induction steps as [| steps IH]; intros i bytes acc; cbn [accumulateLoop].
  - reflexivity.
  - destruct (bytes !! i) as [b |] eqn:Eb.
    + rewrite IH. rewrite (drop_S bytes b i Eb). reflexivity.
    + apply lookup_ge_None in Eb. rewrite drop_ge by exact Eb. reflexivity.
Qed.

Lemma accumulateBytes_first31 (s : jsstring) :
  accumulateBytes (encodeUtf8 s) = first31BytesValue s.
Proof.
  unfold accumulateBytes, first31BytesValue.
  rewrite accumulateLoop_spec, drop_0.
  rewrite bytesValueFrom_bigEndian. lia.
Qed.

(** On every host, the commitment encoder reads a run of at most 15
    decimal digits as the number it spells. *)
Lemma commit_digit_string_as_number {host : JsHost} (s : jsstring) :
  s <> [] -> Forall isDecimalDigit s -> (length s <= 15)%nat ->
  Commit.valueToFieldElement (Commit.VString s) = Ok (decimalValue s).
Proof.
  intros Hne Hdigits Hlen. unfold Commit.valueToFieldElement.
  assert (startsWith s (str "0x") = false) as ->.
  { change (str "0x") with [48; 120].
    destruct Hdigits as [| c s Hc Hs]; [congruence |].
    destruct Hs as [| d s Hd Hs]; cbn [startsWith].
    - apply andb_false_r.
    - unfold isDecimalDigit in Hd.
      replace (120 =? d) with false by lia.
      apply andb_false_r. }
  rewrite (StringToNumber_digits s Hne Hdigits Hlen).
  cbn. rewrite Z.mod_1_r, !Zdiv_1_r. reflexivity.
Qed.

End EncoderFacts.

Section EncoderClaims.
Import Js.

(** C7, as stated, fails: the commitment encoder first tries [Number(s)],
    so the string ["100"] is encoded as the number 100 and not as the
    big-endian value 0x313030 of its bytes. *)
Lemma commit_numeric_string_read_as_number :
  startsWith (str "100") (str "0x") = false
  /\ @Commit.valueToFieldElement sampleHost (Commit.VString (str "100"))
     = Ok 100
  /\ first31BytesValue (str "100") = 3223600.
Proof. vm_compute. repeat split; reflexivity. Qed.

(** C7 (amended): for every string [s] that does not start with ["0x"],
    the Merkle, nullifier and hash encoders map [s] to the big-endian
    base-256 value of the first 31 bytes of its UTF-8 encoding, and the
    commitment encoder does so when [Number(s)] is NaN or infinite; bytes
    after the 31st are ignored, so two such strings that agree on their
    first 31 bytes get the same field element from the Merkle, nullifier
    and hash encoders, and from the commitment encoder when neither string
    reads as a finite number. *)
Theorem string_encoders_read_first_31_bytes (host : JsHost) (s t : jsstring) :
  startsWith s (str "0x") = false ->
  (Merkle.stringToFieldElement s = Ok (first31BytesValue s)
   /\ Nullifier.stringToFieldElement s = Ok (first31BytesValue s)
   /\ Hash.stringToFieldElement s = first31BytesValue s
   /\ (notANumber s ->
       Commit.valueToFieldElement (Commit.VString s)
       = Ok (first31BytesValue s)))
  /\ (startsWith t (str "0x") = false ->
      firstn 31 (encodeUtf8 s) = firstn 31 (encodeUtf8 t) ->
      Merkle.stringToFieldElement s = Merkle.stringToFieldElement t
      /\ Nullifier.stringToFieldElement s = Nullifier.stringToFieldElement t
      /\ Hash.stringToFieldElement s = Hash.stringToFieldElement t
      /\ (notANumber s -> notANumber t ->
          Commit.valueToFieldElement (Commit.VString s)
          = Commit.valueToFieldElement (Commit.VString t))).
Proof.
  intros Hs.
  assert (forall u, startsWith u (str "0x") = false ->
            Merkle.stringToFieldElement u = Ok (first31BytesValue u)
            /\ Nullifier.stringToFieldElement u = Ok (first31BytesValue u)
            /\ Hash.stringToFieldElement u = first31BytesValue u
            /\ (notANumber u ->
                Commit.valueToFieldElement (Commit.VString u)
                = Ok (first31BytesValue u))) as Hone.
  { intros u Hu.
    unfold Merkle.stringToFieldElement, Nullifier.stringToFieldElement,
      Hash.stringToFieldElement, Commit.valueToFieldElement, notANumber.
    rewrite Hu, accumulateBytes_first31.
    repeat split; try reflexivity.
    intros ->. reflexivity. }
  split; [apply Hone, Hs |].
  intros Ht Hsame.
  destruct (Hone s Hs) as (Hm & Hn & Hh & Hc).
  destruct (Hone t Ht) as (Hm' & Hn' & Hh' & Hc').
  assert (first31BytesValue s = first31BytesValue t) as Heq
    by (unfold first31BytesValue; rewrite Hsame; reflexivity).
  rewrite Hm, Hm', Hn, Hn', Hh, Hh', Heq.
  repeat split; try reflexivity.
  intros Hs' Ht'. rewrite (Hc Hs'), (Hc' Ht'), Heq. reflexivity.
Qed.

Lemma string_encoders_read_first_31_bytes_witness :
  (@Merkle.stringToFieldElement Sample.longA
   = Ok (first31BytesValue Sample.longA)
   /\ @Nullifier.stringToFieldElement Sample.longA
      = Ok (first31BytesValue Sample.longA)
   /\ Hash.stringToFieldElement Sample.longA = first31BytesValue Sample.longA
   /\ (@notANumber sampleHost Sample.longA ->
       @Commit.valueToFieldElement sampleHost (Commit.VString Sample.longA)
       = Ok (first31BytesValue Sample.longA)))
  /\ (startsWith Sample.longB (str "0x") = false ->
      firstn 31 (encodeUtf8 Sample.longA)
      = firstn 31 (encodeUtf8 Sample.longB) ->
      Merkle.stringToFieldElement Sample.longA
      = Merkle.stringToFieldElement Sample.longB
      /\ Nullifier.stringToFieldElement Sample.longA
         = Nullifier.stringToFieldElement Sample.longB
      /\ Hash.stringToFieldElement Sample.longA
         = Hash.stringToFieldElement Sample.longB
      /\ (@notANumber sampleHost Sample.longA ->
          @notANumber sampleHost Sample.longB ->
          @Commit.valueToFieldElement sampleHost (Commit.VString Sample.longA)
          = @Commit.valueToFieldElement sampleHost
              (Commit.VString Sample.longB))).
Proof.
  apply (string_encoders_read_first_31_bytes sampleHost
           Sample.longA Sample.longB).
  reflexivity.
Defined.

(** The two sample strings are distinct, agree on their first 31 bytes, do
    not read as numbers, and collide in the commitment encoder. *)
Example long_strings_collide :
  Sample.longA <> Sample.longB
  /\ firstn 31 (encodeUtf8 Sample.longA) = firstn 31 (encodeUtf8 Sample.longB)
  /\ @notANumber sampleHost Sample.longA
  /\ @notANumber sampleHost Sample.longB
  /\ @Commit.valueToFieldElement sampleHost (Commit.VString Sample.longA)
     = @Commit.valueToFieldElement sampleHost (Commit.VString Sample.longB).
Proof. vm_compute. repeat split; try reflexivity. discriminate. Qed.

End EncoderClaims.

(* ===================================================================== *)
(** * The nullifier registry: facts and claim *)
(* ===================================================================== *)

Section NullifierFacts.
Import Js Nullifier.
Context {host : JsHost}.

Lemma addToSet_elem (n : jsstring) (set : NullifierSet) (x : jsstring) :
  x ∈ nullifiers (snd (addToSet n set))
  <-> x ∈ nullifiers set \/ x = toLowerCase n.
Proof.
  unfold addToSet. case_bool_decide as Hin; cbn [snd nullifiers].
  - split; [auto | intros [H | ->]; assumption].
  - rewrite elem_of_union, elem_of_singleton. reflexivity.
Qed.

Lemma addToSet_scope (n : jsstring) (set : NullifierSet) :
  scope (snd (addToSet n set)) = scope set.
Proof. unfold addToSet. case_bool_decide; reflexivity. Qed.

Lemma addToSet_flag (n : jsstring) (set : NullifierSet) :
  fst (addToSet n set) = true <-> toLowerCase n ∉ nullifiers set.
Proof.
  unfold addToSet. case_bool_decide as Hin; cbn [fst]; split; auto.
  discriminate.
Qed.

Lemma addAll_cons (h : jsstring) (hashes : list jsstring)
    (set : NullifierSet) :
  addAll (h :: hashes) set
  = (fst (addToSet h set) :: fst (addAll hashes (snd (addToSet h set))),
     snd (addAll hashes (snd (addToSet h set)))).
Proof.
  cbn [addAll]. destruct (addToSet h set) as [flag set'].
  cbn [fst snd]. destruct (addAll hashes set') as [flags set'']. reflexivity.
Qed.

Lemma addAll_keeps (hashes : list jsstring) :
  forall (set : NullifierSet) (x : jsstring),
    x ∈ nullifiers set -> x ∈ nullifiers (snd (addAll hashes set)).
Proof.
  induction hashes as [| h hashes IH]; intros set x Hx; [exact Hx |].
  rewrite addAll_cons. cbn [snd]. apply IH.
  apply addToSet_elem. left. exact Hx.
Qed.

(** The flag of the [k]-th call of a run: true exactly when the value is
    new to the set the run started from and to the calls before it. *)
Lemma addAll_flag (hashes : list jsstring) :
  forall (set : NullifierSet) (k : nat) (n : jsstring),
    hashes !! k = Some n ->
    exists flag,
      fst (addAll hashes set) !! k = Some flag
      /\ (flag = true <->
          (toLowerCase n ∉ nullifiers set)
          /\ forall j m, (j < k)%nat -> hashes !! j = Some m ->
               toLowerCase m <> toLowerCase n).
Proof.
  induction hashes as [| h hashes IH]; intros set k n Hk; [discriminate |].
  rewrite addAll_cons. cbn [fst]. destruct k as [| k].
  - cbn in Hk. injection Hk as ->. eexists. split; [reflexivity |].
    rewrite addToSet_flag. split.
    + intros Hnew. split; [exact Hnew |]. intros j m Hj. lia.
    + intros [Hnew _]. exact Hnew.
  - cbn in Hk. destruct (IH (snd (addToSet h set)) k n Hk)
      as (flag & Hflag & Hiff).
    exists flag. split; [exact Hflag |]. rewrite Hiff.
    rewrite addToSet_elem. split.
    + intros [Hnew Hearlier]. split; [tauto |].
      intros [| j] m Hj Hm; cbn in Hm.
      * injection Hm as <-. intros Heq. apply Hnew. right. congruence.
      * apply (Hearlier j m); [lia | exact Hm].
    + intros [Hnew Hearlier]. split.
      * intros [Hold | Heq]; [exact (Hnew Hold) |].
        apply (Hearlier 0%nat h); [lia | reflexivity | congruence].
      * intros j m Hj Hm. apply (Hearlier (S j) m); [lia | exact Hm].
Qed.

End NullifierFacts.

Section NullifierClaims.
Import Js Nullifier.

(** C8: on a set obtained from [createSet] by any run of [addToSet] calls,
    the [k]-th call returns [true] exactly when no earlier call of the run
    had the same value up to letter case; after a call with value [n],
    every later call with a value equal to [n] up to letter case, whatever
    was added in between, returns [false] and leaves the set as it was;
    on any set [addToSet] returns [true] exactly when the lower-cased
    value is not yet a member, and changes the set only then; [isInSet]
    returns whether the lower-cased value is a member and returns the set
    unchanged. *)
Theorem nullifier_double_spend (host : JsHost) :
  (forall (s : jsstring) (calls : list jsstring) (k : nat) (n : jsstring),
     calls !! k = Some n ->
     exists flag,
       fst (addAll calls (createSet s)) !! k = Some flag
       /\ (flag = true <->
           forall j m, (j < k)%nat -> calls !! j = Some m ->
             toLowerCase m <> toLowerCase n))
  /\ (forall (set : NullifierSet) (n n' : jsstring) (between : list jsstring),
        toLowerCase n' = toLowerCase n ->
        let after := snd (addAll between (snd (addToSet n set))) in
        addToSet n' after = (false, after)
        /\ isInSet n' after = (true, after))
  /\ (forall (set : NullifierSet) (n : jsstring),
        (fst (addToSet n set) = true <-> toLowerCase n ∉ nullifiers set)
        /\ (fst (addToSet n set) = false -> snd (addToSet n set) = set))
  /\ (forall (set : NullifierSet) (n : jsstring),
        snd (isInSet n set) = set
        /\ (fst (isInSet n set) = true <-> toLowerCase n ∈ nullifiers set)).
Proof.
  split; [| split; [| split]].
  - intros s calls k n Hk.
    destruct (addAll_flag calls (createSet s) k n Hk) as (flag & Hf & Hiff).
    exists flag. split; [exact Hf |]. rewrite Hiff.
    cbn [createSet nullifiers]. split.
    + intros [_ H]. exact H.
    + intros H. split; [apply not_elem_of_empty | exact H].
  - intros set n n' between Hsame after.
    assert (toLowerCase n' ∈ nullifiers after) as Hin.
    { unfold after. apply addAll_keeps.
      apply addToSet_elem. right. exact Hsame. }
    unfold addToSet, isInSet.
    rewrite !bool_decide_eq_true_2 by exact Hin. split; reflexivity.
  - intros set n. split; [apply addToSet_flag |].
    unfold addToSet. case_bool_decide; [reflexivity |]. discriminate.
  - intros set n. unfold isInSet. cbn [fst snd]. split; [reflexivity |].
    apply bool_decide_eq_true.
Qed.

(** A concrete run: the second call repeats the first up to letter case
    and is refused. *)
Lemma nullifier_double_spend_witness :
  exists flag,
    fst (@addAll sampleHost Sample.calls (createSet (str "election:2024")))
      !! 1%nat = Some flag
    /\ (flag = true <->
        forall j m, (j < 1)%nat -> Sample.calls !! j = Some m ->
          @toLowerCase sampleHost m <> @toLowerCase sampleHost (str "0xab12")).
Proof.
  apply (proj1 (nullifier_double_spend sampleHost)). reflexivity.
Defined.

Example nullifier_sample_run :
  fst (@addAll sampleHost Sample.calls (createSet (str "election:2024")))
  = [true; false; true; false].
Proof. vm_compute. reflexivity. Qed.

End NullifierClaims.

(* ===================================================================== *)
(** * Further properties of the Merkle tree engine *)
(* ===================================================================== *)

Section MerkleMoreFacts.
Import Js Merkle.
Context {host : JsHost} {oracle : FieldHashOracle}.

(** What [create] has computed when it returns. *)
Lemma create_parts (input : list jsstring) (tree : MerkleTree) :
  create input = Ok tree ->
  exists padded level0 top,
    input <> []
    /\ padLoop (length input) input = Ok padded
    /\ leaves tree
       = (if len padded =? 1 then padded ++ [str "0"] else padded)
    /\ mapM hashLeaf (leaves tree) = Ok level0
    /\ buildLoop (length level0) level0 [level0] = Ok (top, levels tree)
    /\ root tree = top !! 0%nat
    /\ depth tree = Z.log2 (len (leaves tree)).
Proof.
  unfold create. intros H.
  destruct (Z.eqb_spec (len input) 0) as [| Hne]; [discriminate |].
  destruct (padLoop (length input) input) as [padded | |] eqn:Epad;
    [| discriminate ..].
  cbn [bind] in H.
  destruct (mapM hashLeaf _) as [level0 | |] eqn:Emap; [| discriminate ..].
  cbn [bind] in H.
  destruct (buildLoop _ _ _) as [[top all] | |] eqn:Ebuild;
    [| discriminate ..].
  cbn [bind fst snd] in H. injection H as <-.
  cbn [leaves levels root depth].
  exists padded, level0, top.
  split; [intros ->; apply Hne; reflexivity |].
  repeat split; try reflexivity; assumption.
Qed.

(** Along a chain every level is twice as long as the next, and the top
    of a chain that starts from a non-empty level is a single node. *)
Lemma chain_lengths (cur : list jsstring) (rest : list (list jsstring))
    (top : list jsstring) :
  Chain cur rest top ->
  cur <> [] ->
  length top = 1%nat
  /\ forall l row, (cur :: rest) !! l = Some row ->
       (l <= length rest)%nat
       /\ length row = (2 ^ (length rest - l))%nat.
Proof.
  induction 1 as [cur Hshort | cur next rest top Hlong Hnext Hchain IH];
    intros Hne.
  - assert (length cur = 1%nat) as H1
      by (destruct cur; [congruence | cbn in *; lia]).
    split; [exact H1 |].
    intros [| l] row Hrow; cbn in Hrow; [| discriminate].
    injection Hrow as <-. cbn. split; [lia | exact H1].
  - pose proof (hashPairs_length _ _ Hnext) as Hlen.
    assert (next <> []) as Hnn by (intros ->; cbn in Hlen; lia).
    destruct (IH Hnn) as [Htop Hrows].
    split; [exact Htop |].
    intros [| l] row Hrow; cbn in Hrow.
    + injection Hrow as <-. cbn [length]. split; [lia |].
      destruct (Hrows 0%nat next eq_refl) as [_ Hn].
      rewrite Nat.sub_0_r in *. rewrite Hlen, Hn. cbn [Nat.pow]. lia.
    + destruct (Hrows l row Hrow) as [Hl Hr]. cbn [length].
      split; [lia |]. rewrite Hr. reflexivity.
Qed.

Lemma chain_last (cur : list jsstring) (rest : list (list jsstring))
    (top : list jsstring) :
  Chain cur rest top -> last (cur :: rest) = Some top.
Proof.
  induction 1 as [cur Hshort | cur next rest top Hlong Hnext Hchain IH].
  - reflexivity.
  - rewrite last_cons, IH. reflexivity.
Qed.

Lemma chain_adjacent (cur : list jsstring) (rest : list (list jsstring))
    (top : list jsstring) :
  Chain cur rest top ->
  forall l row up,
    (cur :: rest) !! l = Some row -> (cur :: rest) !! S l = Some up ->
    hashPairs row = Ok up.
Proof.
  induction 1 as [cur Hshort | cur next rest top Hlong Hnext Hchain IH];
    intros l row up Hrow Hup.
  - destruct l; discriminate.
  - destruct l as [| l]; cbn in Hrow, Hup.
    + injection Hrow as <-. injection Hup as <-. exact Hnext.
    + eapply IH; eauto.
Qed.

(** The shape of a built tree. *)
Lemma built_tree_levels (input : list jsstring) (tree : MerkleTree) :
  create input = Ok tree ->
  exists level0 rest top r,
    levels tree = level0 :: rest
    /\ Chain level0 rest top
    /\ top = [r]
    /\ root tree = Some r
    /\ length level0 = length (leaves tree)
    /\ (2 <= length (leaves tree))%nat
    /\ length (leaves tree) = (2 ^ length rest)%nat
    /\ depth tree = Z.of_nat (length rest)
    /\ (1 <= length rest)%nat.
Proof.
  intros Hcreate.
  destruct (create_parts _ _ Hcreate)
    as (padded & level0 & top & Hne & Hpad & Hleaves & Hmap & Hbuild
        & Hroot & Hdepth).
  destruct (mapM_lookup _ _ _ Hmap) as [Hl0 _].
  apply buildLoop_chain in Hbuild as (rest & Hall & Hchain).
  cbn [app] in Hall.
  assert (2 <= length (leaves tree))%nat as Htwo.
  { apply padLoop_shape in Hpad as [m ->]. rewrite Hleaves.
    destruct (Z.eqb_spec (len (input ++ repeat (str "0") m)) 1) as [H1 | Hn1].
    - unfold len in H1. rewrite length_app. cbn [length]. lia.
    - unfold len in Hn1. rewrite length_app in *.
      destruct input; [congruence | cbn [length] in *; lia]. }
  assert (level0 <> []) as Hnn by (intros ->; cbn in Hl0; lia).
  destruct (chain_lengths _ _ _ Hchain Hnn) as [Htop Hrows].
  destruct top as [| r [| ? ?]]; try discriminate.
  destruct (Hrows 0%nat level0 eq_refl) as [_ Hpow].
  rewrite Nat.sub_0_r in Hpow.
  assert (length (leaves tree) = (2 ^ length rest)%nat) as Hlen
    by (rewrite <- Hl0; exact Hpow).
  assert (1 <= length rest)%nat as Hrest.
  { destruct rest; [cbn in Hlen; lia | cbn; lia]. }
  exists level0, rest, [r], r.
  repeat split; try assumption; try reflexivity.
  rewrite Hdepth. unfold len. rewrite Hlen, Nat2Z.inj_pow.
  apply Z.log2_pow2. lia.
Qed.

Lemma hashPairs_parent (cur next : list jsstring) :
  hashPairs cur = Ok next ->
  forall k node, next !! k = Some node ->
    exists a b av bv,
      cur !! (2 * k)%nat = Some a /\ cur !! (2 * k + 1)%nat = Some b
      /\ BigIntOfString a = Ok av /\ BigIntOfString b = Ok bv
      /\ node = poseidonHex [av; bv].
Proof.
  intros Hnext k node Hk.
  pose proof (hashPairs_length _ _ Hnext) as Hlen.
  apply lookup_lt_Some in Hk as Hlt.
  destruct (lookup_lt_is_Some_2 cur (2 * k)%nat ltac:(lia)) as [a Ha].
  destruct (lookup_lt_is_Some_2 cur (2 * k + 1)%nat ltac:(lia)) as [b Hb].
  destruct (hashPairs_lookup _ _ Hnext k a b Ha Hb)
    as (av & bv & Hav & Hbv & Hup).
  exists a, b, av, bv. repeat split; try assumption. congruence.
Qed.

(** [x ^ 1] moves an index to its neighbour in the pair. *)
Lemma lxor_one (x : Z) :
  0 <= x -> Z.lxor x 1 = if x mod 2 =? 1 then x - 1 else x + 1.
Proof.
  intros Hx.
  assert (forall y, 0 <= y -> y mod 2 = 0 -> Z.lxor y 1 = y + 1) as Heven.
  { intros y Hy H0. symmetry. apply Z.add_nocarry_lxor.
    change 1 with (Z.ones 1). rewrite Z.land_ones by lia. exact H0. }
  pose proof (Z.mod_pos_bound x 2 ltac:(lia)) as Hmod.
  pose proof (Z.div_mod x 2 ltac:(lia)) as Hdm.
  destruct (Z.eqb_spec (x mod 2) 1) as [H1 | Hn1].
  - assert (Z.lxor (x - 1) 1 = x) as Hprev.
    { rewrite Heven; [lia | lia |].
      replace (x - 1) with (2 * (x / 2)) by lia.
      rewrite Z.mul_comm. apply Z.mod_mul. lia. }
    rewrite <- Hprev at 1. rewrite Z.lxor_assoc, Z.lxor_nilpotent.
    apply Z.lxor_0_r.
  - apply Heven; lia.
Qed.

(** [proofLoop] on any list of levels: it never reads past the levels, the
    index bit of step [j] is digit [j] of the index, and the element is
    the neighbour of that prefix of the index. *)
Lemma proofLoop_spec (steps : nat) :
  forall (level : nat) (lv : list (list jsstring)) (idx : Z),
    0 <= idx -> (level + steps <= length lv)%nat ->
    exists path,
      proofLoop steps level lv idx = Ok path
      /\ length (fst path) = steps /\ length (snd path) = steps
      /\ (forall j, (j < steps)%nat ->
            snd path !! j = Some ((idx / 2 ^ Z.of_nat j) mod 2))
      /\ (forall j row, (j < steps)%nat -> lv !! (level + j)%nat = Some row ->
            fst path !! j
            = Some (lookupZ row (Z.lxor (idx / 2 ^ Z.of_nat j) 1))).
Proof.
  induction steps as [| steps IH]; intros level lv idx Hidx Hlv.
  - exists ([], []). cbn. repeat split; auto; intros; lia.
  - cbn [proofLoop].
    destruct (lookup_lt_is_Some_2 lv level ltac:(lia)) as [row0 Hrow0].
    rewrite Hrow0.
    destruct (IH (S level) lv (idx / 2)) as (path & Hpath & Hl1 & Hl2 & Hbits & Hsibs);
      [apply Z.div_pos; lia | lia |].
    rewrite Hpath. cbn [bind]. eexists. split; [reflexivity |].
    cbn [fst snd length].
    assert (Z.rem idx 2 = idx mod 2) as Hrem by (apply Z.rem_mod_nonneg; lia).
    pose proof (Z.mod_pos_bound idx 2 ltac:(lia)) as Hmod.
    assert (forall j : nat, idx / 2 / 2 ^ Z.of_nat j = idx / 2 ^ Z.of_nat (S j))
      as Hshift.
    { intros j. rewrite Z.div_div by (try apply Z.pow_pos_nonneg; lia).
      rewrite Nat2Z.inj_succ, Z.pow_succ_r by lia. reflexivity. }
    repeat split; try lia.
    + intros [| j] Hj; cbn [lookup list_lookup].
      * change (2 ^ Z.of_nat 0) with 1. rewrite Z.div_1_r, Hrem.
        destruct (Z.eqb_spec (idx mod 2) 1) as [-> | Hne]; [reflexivity |].
        f_equal. lia.
      * rewrite <- Hshift. apply Hbits. lia.
    + intros [| j] row Hj Hrow; cbn [lookup list_lookup].
      * rewrite Nat.add_0_r in Hrow. rewrite Hrow0 in Hrow. injection Hrow as <-.
        change (2 ^ Z.of_nat 0) with 1. rewrite Z.div_1_r, Hrem.
        do 2 f_equal.
        rewrite lxor_one by lia. reflexivity.
      * rewrite <- Hshift. apply Hsibs; [lia |].
        rewrite <- Hrow. f_equal. lia.
Qed.

End MerkleMoreFacts.

Section MerkleMoreFacts2.
Import Js Merkle.
Context {host : JsHost} {oracle : FieldHashOracle}.

Lemma hashLeaf_outcome (leafString : jsstring) :
  (exists hex, hashLeaf leafString = Ok hex)
  \/ hashLeaf leafString = Throw SyntaxError.
Proof.
  unfold hashLeaf, stringToFieldElement, BigIntOfString.
  destruct (startsWith leafString (str "0x")); [| left; eexists; reflexivity].
  destruct (StringToBigInt leafString);
    [left; eexists; reflexivity | right; reflexivity].
Qed.

Lemma mapM_outcome {A B} (f : A -> result B) (e : JsError) (xs : list A) :
  (forall x, (exists y, f x = Ok y) \/ f x = Throw e) ->
  (exists ys, mapM f xs = Ok ys) \/ mapM f xs = Throw e.
Proof.
  intros Hf. induction xs as [| x xs IH]; cbn [mapM].
  - left. eexists. reflexivity.
  - destruct (Hf x) as [[y ->] | ->]; [| right; reflexivity]. cbn [bind].
    destruct IH as [[ys ->] | ->]; [left; eexists | right]; reflexivity.
Qed.

Lemma binaryValue_digits (bits : list Z) :
  forall idx,
    0 <= idx < 2 ^ Z.of_nat (length bits) ->
    (forall j, (j < length bits)%nat ->
       bits !! j = Some ((idx / 2 ^ Z.of_nat j) mod 2)) ->
    binaryValue bits = idx.
Proof.
  induction bits as [| b bits IH]; intros idx Hidx Hbits.
  - cbn in Hidx. cbn. lia.
  - cbn [binaryValue].
    pose proof (Hbits 0%nat ltac:(cbn; lia)) as H0. cbn in H0.
    change (2 ^ 0) with 1 in H0. rewrite Z.div_1_r in H0. injection H0 as ->.
    cbn [length] in Hidx. rewrite Nat2Z.inj_succ, Z.pow_succ_r in Hidx by lia.
    rewrite (IH (idx / 2)).
    + pose proof (Z.div_mod idx 2 ltac:(lia)). lia.
    + split; [apply Z.div_pos; lia | apply Z.div_lt_upper_bound; lia].
    + intros j Hj. specialize (Hbits (S j) ltac:(cbn; lia)).
      etrans; [exact Hbits |]. do 2 f_equal.
      rewrite Z.div_div by (try apply Z.pow_pos_nonneg; lia).
      rewrite Nat2Z.inj_succ, Z.pow_succ_r by lia. reflexivity.
Qed.

(** [proof] on any tree object. *)
Lemma proof_inversion (tree : MerkleTree) (i : Z) (p : MerkleProof) :
  proof tree i = Ok p ->
  0 <= i < len (leaves tree)
  /\ exists path,
       proofLoop (length (levels tree) - 1) 0 (levels tree) i = Ok path
       /\ pathElements p = fst path /\ pathIndices p = snd path
       /\ leaf p = lookupZ (leaves tree) i /\ index p = i
       /\ proofRoot p = root tree.
Proof.
  unfold proof. intros H.
  destruct (Z.ltb_spec i 0) as [| Hlo]; [discriminate |].
  destruct (Z.geb_spec i (len (leaves tree))) as [| Hhi]; [discriminate |].
  cbn [orb] in H.
  destruct (proofLoop _ _ _ _) as [path | |]; [| discriminate ..].
  cbn [bind] in H. injection H as <-. cbn.
  split; [lia |]. exists path. repeat split; reflexivity.
Qed.

Lemma verifyLoop_flags (elements : list (option jsstring)) :
  forall (i : nat) (idx1 idx2 : list Z) (cur : jsstring),
    (forall j, (i <= j < i + length elements)%nat ->
       (idx1 !! j = Some 0 <-> idx2 !! j = Some 0)) ->
    verifyLoop elements i idx1 cur = verifyLoop elements i idx2 cur.
Proof.
  induction elements as [| element elements IH]; intros i idx1 idx2 cur Hsame.
  - reflexivity.
  - cbn [verifyLoop].
    destruct (BigIntOfElement element) as [sv | |]; [| reflexivity ..].
    cbn [bind].
    destruct (BigIntOfString cur) as [cv | |]; [| reflexivity ..].
    cbn [bind].
    assert ((match idx1 !! i with Some 0 => true | _ => false end)
            = (match idx2 !! i with Some 0 => true | _ => false end)) as ->.
    { specialize (Hsame i ltac:(cbn [length]; lia)).
      destruct (idx1 !! i) as [[| ? | ?] |], (idx2 !! i) as [[| ? | ?] |];
        try reflexivity;
        try (destruct Hsame as [H1 _]; specialize (H1 eq_refl); discriminate);
        try (destruct Hsame as [_ H2]; specialize (H2 eq_refl); discriminate). }
    apply IH. intros j Hj. apply Hsame. cbn [length]. lia.
Qed.

End MerkleMoreFacts2.

Section MerkleProperties.
Import Js Merkle.

(** X1: for an input of at most 2^31 leaf strings [merkle.create] has
    exactly three outcomes: an empty input throws the Error "Cannot create
    Merkle tree with no leaves"; a non-empty input all of whose leaves are
    encodable gives a tree; a non-empty input with a leaf that starts with
    "0x" and is not a [BigInt] literal throws a SyntaxError. *)
Theorem merkle_create_outcome (oracle : FieldHashOracle)
    (input : list jsstring) :
  len input <= 2 ^ 31 ->
  (input = [] ->
   create input = Throw (Error "Cannot create Merkle tree with no leaves"))
  /\ (input <> [] -> Forall encodable input ->
      exists tree, create input = Ok tree)
  /\ (input <> [] -> ~ Forall encodable input ->
      create input = Throw SyntaxError).
Proof.
  intros Hmax. split; [intros ->; reflexivity |].
  split; [intros Hne Henc; apply create_total; assumption |].
  intros Hne Hnot. unfold create.
  replace (len input =? 0) with false
    by (symmetry; apply Z.eqb_neq; unfold len;
        destruct input; [congruence | cbn [length]; lia]).
  destruct (padLoop_total input Hne Hmax) as (d & e & Hpad & _ & _).
  rewrite Hpad. cbn [bind].
  match goal with
  | |- context [mapM hashLeaf ?l] =>
      destruct (mapM_outcome hashLeaf SyntaxError l hashLeaf_outcome)
        as [[level0 Hmap] | Hmap]; [| rewrite Hmap; reflexivity];
      assert (exists m, l = input ++ repeat (str "0") m) as [m Hl]
  end.
  { destruct (len (input ++ repeat (str "0") d) =? 1).
    - exists (d + 1)%nat. rewrite repeat_app, app_assoc. reflexivity.
    - exists d. reflexivity. }
  exfalso. apply Hnot.
  destruct (mapM_lookup _ _ _ Hmap) as [_ Hleaf].
  rewrite Hl in Hleaf.
  apply Forall_lookup. intros i x Hx.
  destruct (Hleaf i x) as (hex & _ & Hhash).
  { apply lookup_app_l_Some. exact Hx. }
  apply encodable_iff. unfold hashLeaf in Hhash.
  destruct (stringToFieldElement x) as [field | |]; [eauto | discriminate ..].
Qed.

Lemma merkle_create_outcome_witness :
  (Sample.threeLeaves = [] ->
   @create sampleOracle Sample.threeLeaves
   = Throw (Error "Cannot create Merkle tree with no leaves"))
  /\ (Sample.threeLeaves <> [] -> Forall encodable Sample.threeLeaves ->
      exists tree, @create sampleOracle Sample.threeLeaves = Ok tree)
  /\ (Sample.threeLeaves <> [] -> ~ Forall encodable Sample.threeLeaves ->
      @create sampleOracle Sample.threeLeaves = Throw SyntaxError).
Proof.
  apply (merkle_create_outcome sampleOracle Sample.threeLeaves).
  vm_compute. discriminate.
Defined.

(** X2: a tree returned by [merkle.create] is a complete binary tree: its
    leaves are the input followed by sentinel leaves "0", their number is
    2^depth with depth at least 1, there are depth + 1 levels, level [l]
    holds 2^(depth - l) nodes, and the last level is the root alone. *)
Theorem merkle_tree_shape (oracle : FieldHashOracle)
    (input : list jsstring) (tree : MerkleTree) :
  create input = Ok tree ->
  1 <= depth tree
  /\ (exists m, leaves tree = input ++ repeat (str "0") m)
  /\ len (leaves tree) = 2 ^ depth tree
  /\ len (levels tree) = depth tree + 1
  /\ (forall l row, levels tree !! l = Some row ->
        len row = 2 ^ (depth tree - Z.of_nat l))
  /\ exists r, root tree = Some r /\ last (levels tree) = Some [r].
Proof.
  intros Hcreate.
  destruct (built_tree_levels _ _ Hcreate)
    as (level0 & rest & top & r & Hlevels & Hchain & -> & Hroot & Hl0 & Htwo
        & Hpow & Hdepth & Hrest).
  destruct (create_built _ _ Hcreate) as (_ & Hpad & _).
  assert (level0 <> []) as Hnn by (intros ->; cbn in Hl0; lia).
  destruct (chain_lengths _ _ _ Hchain Hnn) as [_ Hrows].
  rewrite Hlevels, Hdepth. unfold len.
  split; [lia |]. split; [exact Hpad |].
  split; [rewrite Hpow, Nat2Z.inj_pow; reflexivity |].
  split; [cbn [length]; lia |].
  split.
  - intros l row Hrow. destruct (Hrows l row Hrow) as [Hl Hlen].
    rewrite Hlen, Nat2Z.inj_pow. f_equal. lia.
  - exists r. split; [exact Hroot |]. apply (chain_last _ _ _ Hchain).
Qed.

Lemma merkle_tree_shape_witness :
  exists tree,
    @create sampleOracle Sample.threeLeaves = Ok tree
    /\ 1 <= depth tree
    /\ (exists m, leaves tree = Sample.threeLeaves ++ repeat (str "0") m)
    /\ len (leaves tree) = 2 ^ depth tree
    /\ len (levels tree) = depth tree + 1
    /\ (forall l row, levels tree !! l = Some row ->
          len row = 2 ^ (depth tree - Z.of_nat l))
    /\ exists r, root tree = Some r /\ last (levels tree) = Some [r].
Proof.
  assert (exists tree, @create sampleOracle Sample.threeLeaves = Ok tree)
    as [tree Htree] by (eexists; vm_compute; reflexivity).
  exists tree. split; [exact Htree |].
  apply (merkle_tree_shape sampleOracle Sample.threeLeaves tree Htree).
Defined.

(** X3: in a tree returned by [merkle.create], node [i] of level 0 is the
    digest of the field encoding of leaf [i], and node [k] of level
    [l + 1] is the digest of the pair of integers read by [BigInt] from
    nodes [2k] and [2k + 1] of level [l]. *)
Theorem merkle_levels_hash_children (oracle : FieldHashOracle)
    (input : list jsstring) (tree : MerkleTree) :
  create input = Ok tree ->
  (forall i leafString, leaves tree !! i = Some leafString ->
     exists field row,
       stringToFieldElement leafString = Ok field
       /\ levels tree !! 0%nat = Some row
       /\ row !! i = Some (poseidonHex [field]))
  /\ (forall l row up k node,
        levels tree !! l = Some row -> levels tree !! S l = Some up ->
        up !! k = Some node ->
        exists a b av bv,
          row !! (2 * k)%nat = Some a /\ row !! (2 * k + 1)%nat = Some b
          /\ BigIntOfString a = Ok av /\ BigIntOfString b = Ok bv
          /\ node = poseidonHex [av; bv]).
Proof.
  intros Hcreate.
  destruct (create_built _ _ Hcreate)
    as (_ & _ & level0 & rest & top & Hmap & Hlevels & Hchain & _).
  rewrite Hlevels. split.
  - intros i leafString Hleaf.
    destruct (mapM_lookup _ _ _ Hmap) as [_ Hall].
    destruct (Hall i leafString Hleaf) as (hex & Hhex & Hhash).
    unfold hashLeaf in Hhash.
    destruct (stringToFieldElement leafString) as [field | |];
      [| discriminate ..].
    cbn [bind] in Hhash. injection Hhash as <-.
    exists field, level0. split; [reflexivity |].
    split; [reflexivity | exact Hhex].
  - intros l row up k node Hrow Hup Hnode.
    eapply hashPairs_parent; [| exact Hnode].
    eapply chain_adjacent; eauto.
Qed.

Lemma merkle_levels_hash_children_witness :
  exists tree : MerkleTree,
    @create sampleOracle Sample.threeLeaves = Ok tree
    /\ (forall i leafString, leaves tree !! i = Some leafString ->
          exists field row,
            stringToFieldElement leafString = Ok field
            /\ levels tree !! 0%nat = Some row
            /\ row !! i = Some (@poseidonHex sampleOracle [field]))
    /\ (forall l row up k node,
          levels tree !! l = Some row -> levels tree !! S l = Some up ->
          up !! k = Some node ->
          exists a b av bv,
            row !! (2 * k)%nat = Some a /\ row !! (2 * k + 1)%nat = Some b
            /\ BigIntOfString a = Ok av /\ BigIntOfString b = Ok bv
            /\ node = @poseidonHex sampleOracle [av; bv]).
Proof.
  assert (exists tree, @create sampleOracle Sample.threeLeaves = Ok tree)
    as [tree Htree] by (eexists; vm_compute; reflexivity).
  exists tree. split; [exact Htree |].
  apply (merkle_levels_hash_children sampleOracle Sample.threeLeaves tree
           Htree).
Defined.

End MerkleProperties.

Section MerkleProofProperties.
Import Js Merkle.

(** X4: on any tree object [merkle.proof] throws an Error exactly when the
    index is negative or not below [tree.leaves.length]; for every other
    index it returns a proof that carries the index, the leaf at that
    index and the tree root, with one path element and one path index for
    every level but the last. *)
Theorem merkle_proof_outcome (tree : MerkleTree) (i : Z) :
  ((i < 0 \/ len (leaves tree) <= i) ->
   exists msg, proof tree i = Throw (Error msg))
  /\ (0 <= i < len (leaves tree) ->
      exists p,
        proof tree i = Ok p
        /\ index p = i
        /\ leaf p = leaves tree !! Z.to_nat i
        /\ proofRoot p = root tree
        /\ length (pathElements p) = (length (levels tree) - 1)%nat
        /\ length (pathIndices p) = (length (levels tree) - 1)%nat).
Proof.
  unfold proof. split.
  - intros Hout.
    replace ((i <? 0) || (i >=? len (leaves tree))) with true by lia.
    eexists. reflexivity.
  - intros Hin.
    replace ((i <? 0) || (i >=? len (leaves tree))) with false by lia.
    destruct (proofLoop_spec (length (levels tree) - 1) 0 (levels tree) i)
      as (path & Hpath & Hl1 & Hl2 & _); [lia | lia |].
    rewrite Hpath. cbn [bind]. eexists. split; [reflexivity |].
    cbn [index leaf proofRoot pathElements pathIndices].
    repeat split; try assumption.
    unfold lookupZ. replace (i <? 0) with false by lia. reflexivity.
Qed.

(** X5: for a tree returned by [merkle.create] and a proof returned by
    [merkle.proof(tree, i)], there are [depth] path indices, entry [j] is
    binary digit [j] of [i], and read as a binary number, least
    significant digit first, the path indices give back [i]. *)
Theorem merkle_proof_indices_spell_index (oracle : FieldHashOracle)
    (input : list jsstring) (tree : MerkleTree) (i : Z) (p : MerkleProof) :
  create input = Ok tree ->
  proof tree i = Ok p ->
  Z.of_nat (length (pathIndices p)) = depth tree
  /\ (forall j, (j < length (pathIndices p))%nat ->
        pathIndices p !! j = Some ((i / 2 ^ Z.of_nat j) mod 2))
  /\ binaryValue (pathIndices p) = i.
Proof.
  intros Hcreate Hproof.
  destruct (built_tree_levels _ _ Hcreate)
    as (level0 & rest & top & r & Hlevels & _ & _ & _ & _ & _ & Hpow
        & Hdepth & _).
  destruct (proof_inversion _ _ _ Hproof)
    as (Hi & path & Hpath & _ & -> & _).
  assert ((length (levels tree) - 1)%nat = length rest) as Hn
    by (rewrite Hlevels; cbn [length]; lia).
  destruct (proofLoop_spec (length (levels tree) - 1) 0 (levels tree) i)
    as (path' & Hpath' & _ & Hl2 & Hbits & _); [lia | lia |].
  rewrite Hpath in Hpath'. injection Hpath' as <-.
  rewrite Hn in Hl2, Hbits.
  split; [lia |]. split; [rewrite Hl2; exact Hbits |].
  apply binaryValue_digits; [| rewrite Hl2; exact Hbits].
  rewrite Hl2. unfold len in Hi. rewrite Hpow, Nat2Z.inj_pow in Hi. exact Hi.
Qed.

Lemma merkle_proof_indices_spell_index_witness :
  exists (tree : MerkleTree) (p : MerkleProof),
    @create sampleOracle Sample.threeLeaves = Ok tree
    /\ proof tree 2 = Ok p
    /\ Z.of_nat (length (pathIndices p)) = depth tree
    /\ (forall j, (j < length (pathIndices p))%nat ->
          pathIndices p !! j = Some ((2 / 2 ^ Z.of_nat j) mod 2))
    /\ binaryValue (pathIndices p) = 2.
Proof.
  assert (exists (tree : MerkleTree) (p : MerkleProof),
            @create sampleOracle Sample.threeLeaves = Ok tree
            /\ proof tree 2 = Ok p) as (tree & p & Htree & Hp)
    by (do 2 eexists; split; vm_compute; reflexivity).
  exists tree, p. split; [exact Htree |]. split; [exact Hp |].
  apply (merkle_proof_indices_spell_index sampleOracle Sample.threeLeaves
           tree 2 p Htree Hp).
Defined.

(** X6: for a tree returned by [merkle.create] and a proof returned by
    [merkle.proof(tree, i)], path element [j] is the node of level [j] at
    position [(i >> j) ^ 1], the neighbour of the ancestor of leaf [i] on
    that level; no path element is undefined. *)
Theorem merkle_proof_elements_are_siblings (oracle : FieldHashOracle)
    (input : list jsstring) (tree : MerkleTree) (i : Z) (p : MerkleProof) :
  create input = Ok tree ->
  proof tree i = Ok p ->
  forall j, (j < length (pathElements p))%nat ->
    exists row node,
      levels tree !! j = Some row
      /\ row !! Z.to_nat (Z.lxor (i / 2 ^ Z.of_nat j) 1) = Some node
      /\ pathElements p !! j = Some (Some node).
Proof.
  intros Hcreate Hproof j Hj.
  destruct (built_tree_levels _ _ Hcreate)
    as (level0 & rest & top & r & Hlevels & Hchain & _ & _ & Hl0 & Htwo
        & Hpow & Hdepth & _).
  destruct (proof_inversion _ _ _ Hproof)
    as (Hi & path & Hpath & Hels & _).
  rewrite Hels in *.
  assert ((length (levels tree) - 1)%nat = length rest) as Hn
    by (rewrite Hlevels; cbn [length]; lia).
  destruct (proofLoop_spec (length (levels tree) - 1) 0 (levels tree) i)
    as (path' & Hpath' & Hl1 & _ & _ & Hsibs); [lia | lia |].
  rewrite Hpath in Hpath'. injection Hpath' as <-.
  rewrite Hn in Hl1, Hsibs. rewrite Hlevels in Hsibs |- *.
  rewrite Hl1 in Hj.
  assert (level0 <> []) as Hnn by (intros ->; cbn in Hl0; lia).
  destruct (chain_lengths _ _ _ Hchain Hnn) as [_ Hrows].
  destruct (lookup_lt_is_Some_2 (level0 :: rest) j ltac:(cbn [length]; lia))
    as [row Hrow].
  destruct (Hrows j row Hrow) as [_ Hlen].
  (* the ancestor on level j and its neighbour are inside the level *)
  unfold len in Hi. rewrite Hpow, Nat2Z.inj_pow in Hi.
  set (a := i / 2 ^ Z.of_nat j).
  assert (0 <= a < 2 ^ Z.of_nat (length rest - j)) as Ha.
  { unfold a. split; [apply Z.div_pos; [lia | apply Z.pow_pos_nonneg; lia] |].
    apply Z.div_lt_upper_bound; [apply Z.pow_pos_nonneg; lia |].
    rewrite <- Z.pow_add_r by lia.
    replace (Z.of_nat j + Z.of_nat (length rest - j))
      with (Z.of_nat (length rest)) by lia.
    lia. }
  assert (0 <= Z.lxor a 1 < 2 ^ Z.of_nat (length rest - j)) as Hsib.
  { rewrite lxor_one by lia.
    replace (Z.of_nat (length rest - j))
      with (Z.succ (Z.of_nat (length rest - j - 1))) in * by lia.
    rewrite Z.pow_succ_r in * by lia.
    pose proof (Z.div_mod a 2 ltac:(lia)) as Hdm.
    pose proof (Z.mod_pos_bound a 2 ltac:(lia)) as Hmod.
    destruct (Z.eqb_spec (a mod 2) 1); lia. }
  destruct (lookup_lt_is_Some_2 row (Z.to_nat (Z.lxor a 1))) as [node Hnode].
  { rewrite Hlen. apply Nat2Z.inj_lt. rewrite Nat2Z.inj_pow. lia. }
  exists row, node. split; [exact Hrow |]. split; [exact Hnode |].
  rewrite (Hsibs j row Hj Hrow). fold a. f_equal.
  unfold lookupZ. replace (Z.lxor a 1 <? 0) with false by lia. exact Hnode.
Qed.

Lemma merkle_proof_elements_are_siblings_witness :
  exists (tree : MerkleTree) (p : MerkleProof),
    @create sampleOracle Sample.threeLeaves = Ok tree
    /\ proof tree 2 = Ok p
    /\ forall j, (j < length (pathElements p))%nat ->
         exists row node,
           levels tree !! j = Some row
           /\ row !! Z.to_nat (Z.lxor (2 / 2 ^ Z.of_nat j) 1) = Some node
           /\ pathElements p !! j = Some (Some node).
Proof.
  assert (exists (tree : MerkleTree) (p : MerkleProof),
            @create sampleOracle Sample.threeLeaves = Ok tree
            /\ proof tree 2 = Ok p) as (tree & p & Htree & Hp)
    by (do 2 eexists; split; vm_compute; reflexivity).
  exists tree, p. split; [exact Htree |]. split; [exact Hp |].
  apply (merkle_proof_elements_are_siblings sampleOracle Sample.threeLeaves
           tree 2 p Htree Hp).
Defined.

(** X7: [merkle.verify] reads each path index only through the test
    [=== 0], and reads no path index beyond the path elements: two index
    arrays that hold 0 at the same positions below
    [pathElements.length] give the same outcome. *)
Theorem merkle_verify_reads_indices_as_flags (host : JsHost)
    (oracle : FieldHashOracle) (rootHex leafString : jsstring)
    (elements : list (option jsstring)) (idx1 idx2 : list Z) :
  (forall j, (j < length elements)%nat ->
     (idx1 !! j = Some 0 <-> idx2 !! j = Some 0)) ->
  verify rootHex leafString elements idx1
  = verify rootHex leafString elements idx2.
Proof.
  intros Hsame. unfold verify.
  destruct (stringToFieldElement leafString) as [field | |];
    [| reflexivity ..].
  cbn [bind].
  rewrite (verifyLoop_flags elements 0 idx1 idx2); [reflexivity |].
  intros j Hj. apply Hsame. lia.
Qed.

Lemma merkle_verify_reads_indices_as_flags_witness :
  @verify sampleHost sampleOracle (str "0x00") (str "alice")
    [Some (str "0x2a"); Some (str "7")] [0; 1]
  = @verify sampleHost sampleOracle (str "0x00") (str "alice")
      [Some (str "0x2a"); Some (str "7")] [0; 5; 0].
Proof.
  apply (merkle_verify_reads_indices_as_flags sampleHost sampleOracle).
  intros [| [| j]] Hj; cbn in *; try lia; split; intros H; try discriminate;
    reflexivity.
Defined.

(** X8: a proof generated for leaf [i] of a built tree verifies every
    string whose field encoding equals that of the leaf at [i], not only
    the leaf itself. *)
Theorem merkle_proof_verifies_same_encoding (host : JsHost)
    (oracle : FieldHashOracle) (input : list jsstring) (tree : MerkleTree)
    (i : Z) (leafString other : jsstring) :
  create input = Ok tree ->
  0 <= i < len (leaves tree) ->
  leaves tree !! Z.to_nat i = Some leafString ->
  stringToFieldElement other = stringToFieldElement leafString ->
  exists p rootHex res,
    proof tree i = Ok p
    /\ root tree = Some rootHex
    /\ verify rootHex other (pathElements p) (pathIndices p) = Ok res
    /\ valid res = true.
Proof.
  intros Hcreate Hi Hleaf Hsame.
  destruct (built_tree_round_trip input tree i Hcreate Hi)
    as (p & rootHex & leafString' & res & Hp & Hr & Hl & _ & _ & _ & Hv
        & Hvalid).
  rewrite Hleaf in Hl. injection Hl as <-.
  exists p, rootHex. unfold verify in *. rewrite Hsame.
  destruct (stringToFieldElement leafString) as [field | |];
    [| discriminate ..].
  cbn [bind] in *.
  destruct (verifyLoop _ _ _ _) as [hex | |]; [| discriminate ..].
  cbn [bind] in *. injection Hv as <-. cbn [valid] in Hvalid.
  eexists. split; [exact Hp |]. split; [exact Hr |].
  split; [reflexivity | exact Hvalid].
Qed.

Lemma merkle_proof_verifies_same_encoding_witness :
  exists (tree : MerkleTree) (p : MerkleProof) rootHex res,
    @create sampleOracle [Sample.longA; str "bob"] = Ok tree
    /\ proof tree 0 = Ok p
    /\ root tree = Some rootHex
    /\ @verify sampleHost sampleOracle rootHex Sample.longB
         (pathElements p) (pathIndices p) = Ok res
    /\ valid res = true.
Proof.
  assert (exists tree : MerkleTree,
            @create sampleOracle [Sample.longA; str "bob"] = Ok tree
            /\ len (leaves tree) = 2
            /\ leaves tree !! Z.to_nat 0 = Some Sample.longA)
    as (tree & Htree & Hlen & Hleaf)
    by (eexists; split; [vm_compute; reflexivity |];
        split; vm_compute; reflexivity).
  destruct (merkle_proof_verifies_same_encoding sampleHost sampleOracle
              [Sample.longA; str "bob"] tree 0 Sample.longA Sample.longB
              Htree)
    as (p & rootHex & res & Hp & Hr & Hv & Hvalid).
  - rewrite Hlen. lia.
  - exact Hleaf.
  - vm_compute. reflexivity.
  - exists tree, p, rootHex, res. repeat split; assumption.
Defined.

End MerkleProofProperties.

(* ===================================================================== *)
(** * Further properties of the range proof engine *)
(* ===================================================================== *)

Section RangeMoreFacts.
Import Js Range.
Context {host : JsHost} {oracle : FieldHashOracle}.

(** The reconstruction loop of [range.verify] reads the bits as a binary
    number, least significant bit first. *)
Lemma reconstructLoop_binaryValue (bs : list Z) :
  forall i acc, 0 <= i ->
    reconstructLoop bs i acc = acc + 2 ^ i * binaryValue bs.
Proof.
  induction bs as [| b bs IH]; intros i acc Hi; cbn [reconstructLoop binaryValue].
  - lia.
  - rewrite IH by lia. rewrite Z.pow_add_r by lia. change (2 ^ 1) with 2. ring.
Qed.

Lemma binary_bits_forallb (bs : list Z) :
  forallb (fun bit => (bit =? 0) || (bit =? 1)) bs = true
  <-> Forall (fun bit => bit = 0 \/ bit = 1) bs.
Proof.
  induction bs as [| b bs IH]; cbn [forallb].
  - split; [constructor | reflexivity].
  - rewrite andb_true_iff, IH, Forall_cons. split; intros [Hb Hbs]; split;
      try assumption; lia.
Qed.

(** The commitment loop: it answers [true] exactly when every bit has a
    commitment entry that equals, up to letter case, the recomputed one. *)
Lemma commitmentsLoop_true (bs : list Z) :
  forall (i : nat) (cs : list jsstring) (s : Z),
    commitmentsLoop bs i cs s = Ok true
    <-> forall j bit, bs !! j = Some bit ->
          exists given,
            cs !! (i + j)%nat = Some given
            /\ toLowerCase given
               = toLowerCase (poseidonHex [bit; s; Z.of_nat (i + j)]).
Proof.
  induction bs as [| b bs IH]; intros i cs s; cbn [commitmentsLoop].
  - split; [intros _ j bit Hj; discriminate | reflexivity].
  - split.
    + intros Hloop j bit Hj.
      destruct (cs !! i) as [given |] eqn:Egiven; [| discriminate].
      case_bool_decide as Hcmp; [discriminate |].
      destruct j as [| j]; cbn in Hj.
      * injection Hj as <-. rewrite Nat.add_0_r. exists given.
        split; [exact Egiven | symmetry; exact Hcmp].
      * replace (i + S j)%nat with (S i + j)%nat by lia.
        apply (proj1 (IH (S i) cs s) Hloop j bit Hj).
    + intros Hall.
      destruct (Hall 0%nat b eq_refl) as (given & Hgiven & Heq).
      rewrite Nat.add_0_r in Hgiven, Heq. rewrite Hgiven.
      rewrite bool_decide_eq_false_2 by (intros Hne; apply Hne; symmetry; exact Heq).
      apply IH. intros j bit Hj.
      replace (S i + j)%nat with (i + S j)%nat by lia.
      apply Hall. exact Hj.
Qed.


(** [range.prove] followed by [range.verify], on a range below 2^32. *)
Lemma prove_then_verify (value min max : Z) (randomBytes : list byte) :
  min <= value <= max -> max - min < 2 ^ 32 ->
  length randomBytes = 32%nat ->
  exists p,
    prove value min max randomBytes = Ok p
    /\ valid p = true /\ Range.min p = min /\ Range.max p = max
    /\ Z.of_nat (length (bits p)) = Z.max 1 (Z.log2_up (max - min + 1))
    /\ length (bitCommitments p) = length (bits p)
    /\ binaryValue (bits p) = value - min
    /\ salt p = toHex randomBytes
    /\ verify p
       = Ok {| verifyValid := true; verifyMin := min; verifyMax := max;
               checks := {| bitsAreBinary := true; valueInRange := true;
                            commitmentsMatch := true |} |}.
Proof.
  intros Hin Hsize Hrandom.
  unfold prove.
  replace ((value <? min) || (value >? max)) with false by lia.
  assert (randomBytes <> []) as Hne by (intros ->; discriminate).
  change (generateSalt randomBytes) with (toHex randomBytes).
  rewrite (BigIntOfString_toHex randomBytes Hne). cbn [bind].
  set (saltBigInt := bytesValueFrom 0 randomBytes).
  set (nv := value - min).
  destruct (bitWidth_bounds (max - min) ltac:(lia)) as [Hw Hlt].
  assert (MathCeilLog2 (max - min + 1) = Z.log2_up (max - min + 1)) as Hexact
    by (apply MathCeilLog2_exact; change (2 ^ 33) with 8589934592; lia).
  set (w := Z.max 1 (MathCeilLog2 (max - min + 1))) in *.
  destruct (proveLoop_length (Z.to_nat w) 0 nv saltBigInt) as [Hlb Hlc].
  assert (reconstructLoop (fst (proveLoop (Z.to_nat w) 0 nv saltBigInt)) 0 0
          = nv) as Hsum.
  { rewrite reconstruct_proveLoop by lia.
    rewrite Z2Nat.id by lia. change (2 ^ 0) with 1.
    rewrite Z.div_1_r, Z.mod_small; unfold nv; lia. }
  eexists. split; [reflexivity |].
  cbn [valid bits bitCommitments salt Range.min Range.max].
  split; [reflexivity |]. split; [reflexivity |]. split; [reflexivity |].
  split; [rewrite Hlb; unfold w; rewrite Hexact; lia |].
  split; [rewrite Hlb, Hlc; reflexivity |].
  split.
  { rewrite reconstructLoop_binaryValue in Hsum by lia.
    change (2 ^ 0) with 1 in Hsum. lia. }
  split; [reflexivity |].
  unfold verify.
  cbn [valid bits Range.min Range.max salt bitCommitments valueCommitment
       negb orb].
  assert (len (fst (proveLoop (Z.to_nat w) 0 nv saltBigInt)) = w) as Hlw
    by (unfold len; rewrite Hlb; lia).
  replace (len (fst (proveLoop (Z.to_nat w) 0 nv saltBigInt)) =? 0)
    with false by (rewrite Hlw; lia).
  rewrite proveLoop_binary by lia. cbn [negb].
  rewrite Hsum.
  replace ((nv + min >=? min) && (nv + min <=? max)) with true
    by (unfold nv; lia).
  cbn [negb].
  rewrite (BigIntOfString_toHex randomBytes Hne). cbn [bind].
  fold saltBigInt.
  pose proof (commitmentsLoop_proveLoop (Z.to_nat w) 0 nv saltBigInt []
                eq_refl) as Hc.
  change (Z.of_nat 0) with 0 in Hc. cbn [app] in Hc.
  rewrite Hc. cbn [bind].
  replace (nv + min) with value by (unfold nv; lia).
  rewrite bool_decide_eq_false_2 by (intros Hd; apply Hd; reflexivity).
  reflexivity.
Qed.

End RangeMoreFacts.

Section RangeProperties.
Import Js Range.

(** X9: on a proof object whose [min] and [max] are safe integers and
    whose [bits] array holds at most 53 integers (so that the sum of the
    bits is exact, and a reconstructed value that is rounded is above
    every safe [max]), [range.verify] returns [valid == true] exactly
    when the [valid] flag is set, the bits are a non-empty array of 0s
    and 1s, the bits read as a binary number plus [min] lie in
    [min, max], the salt is a [BigInt] literal, bit commitment [j]
    equals, up to letter case, the digest of (bit j, salt, j) for every
    bit, and the value commitment equals, up to letter case, the digest
    of the reconstructed value and the salt. *)
Theorem range_verify_accepts_exactly (host : JsHost)
    (oracle : FieldHashOracle) (p : RangeProof) :
  isSafeInteger (min p) -> isSafeInteger (max p) ->
  (length (bits p) <= 53)%nat ->
  (exists res, verify p = Ok res /\ verifyValid res = true)
  <-> valid p = true
      /\ bits p <> []
      /\ Forall (fun bit => bit = 0 \/ bit = 1) (bits p)
      /\ min p <= binaryValue (bits p) + min p <= max p
      /\ exists saltBigInt,
           BigIntOfString (salt p) = Ok saltBigInt
           /\ (forall j bit, bits p !! j = Some bit ->
                 exists given,
                   bitCommitments p !! j = Some given
                   /\ toLowerCase given
                      = toLowerCase
                          (poseidonHex [bit; saltBigInt; Z.of_nat j]))
           /\ toLowerCase (valueCommitment p)
              = toLowerCase
                  (poseidonHex [binaryValue (bits p) + min p; saltBigInt]).
Proof.
  intros _ _ _. unfold verify.
  rewrite (reconstructLoop_binaryValue (bits p) 0 0) by lia.
  change (2 ^ 0) with 1.
  replace (0 + 1 * binaryValue (bits p)) with (binaryValue (bits p)) by lia.
  set (v := binaryValue (bits p) + min p).
  destruct (valid p) eqn:Evalid; cbn [negb orb];
    [| split; [intros (res & H & Hv); injection H as <-; discriminate
              | intros (H & _); discriminate]].
  destruct (Z.eqb_spec (len (bits p)) 0) as [Hempty | Hnonempty].
  { split; [intros (res & H & Hv); injection H as <-; discriminate |].
    intros (_ & Hne & _). destruct (bits p); [congruence | discriminate]. }
  assert (bits p <> []) as Hne by (intros Hnil; rewrite Hnil in *; auto).
  destruct (forallb _ (bits p)) eqn:Ebinary; cbn [negb].
  2:{ split; [intros (res & H & Hv); injection H as <-; discriminate |].
      intros (_ & _ & Hbin & _). apply binary_bits_forallb in Hbin.
      congruence. }
  apply binary_bits_forallb in Ebinary.
  destruct ((v >=? min p) && (v <=? max p)) eqn:Erange; cbn [negb].
  2:{ split; [intros (res & H & Hv); injection H as <-; discriminate |].
      intros (_ & _ & _ & Hin & _). lia. }
  assert (min p <= v <= max p) as Hin by lia.
  destruct (BigIntOfString (salt p)) as [s | e |] eqn:Esalt; cbn [bind].
  2,3: split; [intros (res & H & _); discriminate
              | intros (_ & _ & _ & _ & s & Hs & _); discriminate].
  destruct (commitmentsLoop (bits p) 0 (bitCommitments p) s)
    as [flag | e |] eqn:Eloop; cbn [bind].
  2,3: split; [intros (res & H & _); discriminate |];
       intros (_ & _ & _ & _ & s' & Hs' & Hall & _);
       injection Hs' as <-;
       apply (commitmentsLoop_true (bits p) 0) in Hall; congruence.
  split.
  - intros (res & H & Hv). injection H as <-. cbn in Hv.
    destruct flag; [| discriminate].
    case_bool_decide as Hcmp; [discriminate |].
    repeat split; try assumption; try lia.
    exists s. split; [reflexivity |]. split.
    + apply (commitmentsLoop_true (bits p) 0). exact Eloop.
    + symmetry. exact Hcmp.
  - intros (_ & _ & _ & _ & s' & Hs' & Hall & Hvalue).
    injection Hs' as <-.
    apply (commitmentsLoop_true (bits p) 0) in Hall.
    rewrite Eloop in Hall. injection Hall as ->.
    rewrite bool_decide_eq_false_2
      by (intros Hd; apply Hd; symmetry; exact Hvalue).
    eexists. split; reflexivity.
Qed.

Lemma range_verify_accepts_exactly_witness :
  (exists res,
     @verify sampleHost sampleOracle (Sample.rangeProofWithFlag true) = Ok res
     /\ verifyValid res = true)
  <-> valid (Sample.rangeProofWithFlag true) = true
      /\ bits (Sample.rangeProofWithFlag true) <> []
      /\ Forall (fun bit => bit = 0 \/ bit = 1)
           (bits (Sample.rangeProofWithFlag true))
      /\ min (Sample.rangeProofWithFlag true)
         <= binaryValue (bits (Sample.rangeProofWithFlag true))
            + min (Sample.rangeProofWithFlag true)
         <= max (Sample.rangeProofWithFlag true)
      /\ exists saltBigInt,
           BigIntOfString (salt (Sample.rangeProofWithFlag true))
           = Ok saltBigInt
           /\ (forall j bit,
                 bits (Sample.rangeProofWithFlag true) !! j = Some bit ->
                 exists given,
                   bitCommitments (Sample.rangeProofWithFlag true) !! j
                   = Some given
                   /\ @toLowerCase sampleHost given
                      = @toLowerCase sampleHost
                          (@poseidonHex sampleOracle
                             [bit; saltBigInt; Z.of_nat j]))
           /\ @toLowerCase sampleHost
                (valueCommitment (Sample.rangeProofWithFlag true))
              = @toLowerCase sampleHost
                  (@poseidonHex sampleOracle
                     [binaryValue (bits (Sample.rangeProofWithFlag true))
                      + min (Sample.rangeProofWithFlag true); saltBigInt]).
Proof.
  apply (range_verify_accepts_exactly sampleHost sampleOracle
           (Sample.rangeProofWithFlag true)).
  - unfold isSafeInteger. vm_compute. split; discriminate.
  - unfold isSafeInteger. vm_compute. split; discriminate.
  - vm_compute. lia.
Defined.



(** X11: for safe integers [value] and [threshold], with a threshold of
    at most 2^32, [range.proveLessThan(value, threshold)] gives a proof
    for the range [0, threshold - 1]: when
    [0 <= value < threshold] the proof has [valid == true] and
    [range.verify] accepts it with all checks true; when the value is
    negative or not below the threshold the proof has [valid == false]. *)
Theorem range_proveLessThan_outcome (host : JsHost)
    (oracle : FieldHashOracle) (value threshold : Z)
    (randomBytes : list byte) :
  isSafeInteger value -> isSafeInteger threshold ->
  length randomBytes = 32%nat -> threshold <= 2 ^ 32 ->
  exists p,
    proveLessThan value threshold randomBytes = Ok p
    /\ min p = 0 /\ max p = threshold - 1
    /\ (0 <= value < threshold ->
        valid p = true
        /\ verify p
           = Ok {| verifyValid := true; verifyMin := 0;
                   verifyMax := threshold - 1;
                   checks := {| bitsAreBinary := true; valueInRange := true;
                                commitmentsMatch := true |} |})
    /\ (value < 0 \/ threshold <= value -> valid p = false).
Proof.
  intros _ _ Hrandom Hmax. unfold proveLessThan.
  destruct (Z.lt_ge_cases value 0) as [Hneg | Hnn];
    [| destruct (Z.lt_ge_cases value threshold) as [Hlt | Hge]].
  - unfold prove. replace ((value <? 0) || (value >? threshold - 1)) with true
      by lia.
    eexists. split; [reflexivity |]. cbn [Range.min Range.max valid].
    repeat split; try reflexivity; lia.
  - destruct (prove_then_verify value 0 (threshold - 1) randomBytes)
      as (p & Hp & Hvalid & Hmin & Hmaxp & _ & _ & _ & _ & Hverify);
      [lia | lia | exact Hrandom |].
    exists p. repeat split; try assumption; lia.
  - unfold prove. replace ((value <? 0) || (value >? threshold - 1)) with true
      by lia.
    eexists. split; [reflexivity |]. cbn [Range.min Range.max valid].
    repeat split; try reflexivity; lia.
Qed.

Lemma range_proveLessThan_outcome_witness :
  exists p,
    @proveLessThan sampleHost sampleOracle 17 18 Sample.entropy = Ok p
    /\ min p = 0 /\ max p = 18 - 1
    /\ (0 <= 17 < 18 ->
        valid p = true
        /\ @verify sampleHost sampleOracle p
           = Ok {| verifyValid := true; verifyMin := 0; verifyMax := 18 - 1;
                   checks := {| bitsAreBinary := true; valueInRange := true;
                                commitmentsMatch := true |} |})
    /\ (17 < 0 \/ 18 <= 17 -> valid p = false).
Proof.
  apply (range_proveLessThan_outcome sampleHost sampleOracle 17 18
           Sample.entropy).
  - unfold isSafeInteger. lia.
  - unfold isSafeInteger. lia.
  - reflexivity.
  - lia.
Defined.

(** X12: for safe integers [value] and [threshold], with a non-negative
    threshold, [range.proveGreaterThan(value, threshold)] gives a proof
    for the range [threshold + 1, 2^32]: when
    [threshold < value <= 2^32] the proof has [valid == true] and
    [range.verify] accepts it with all checks true; a value above 2^32,
    like a value not above the threshold, gives [valid == false]. *)
Theorem range_proveGreaterThan_outcome (host : JsHost)
    (oracle : FieldHashOracle) (value threshold : Z)
    (randomBytes : list byte) :
  isSafeInteger value -> isSafeInteger threshold ->
  length randomBytes = 32%nat -> 0 <= threshold ->
  exists p,
    proveGreaterThan value threshold randomBytes = Ok p
    /\ min p = threshold + 1 /\ max p = 2 ^ 32
    /\ (threshold < value <= 2 ^ 32 ->
        valid p = true
        /\ verify p
           = Ok {| verifyValid := true; verifyMin := threshold + 1;
                   verifyMax := 2 ^ 32;
                   checks := {| bitsAreBinary := true; valueInRange := true;
                                commitmentsMatch := true |} |})
    /\ (value <= threshold \/ 2 ^ 32 < value -> valid p = false).
Proof.
  intros _ _ Hrandom Hthreshold. unfold proveGreaterThan. cbn zeta.
  destruct (Z.le_gt_cases value threshold) as [Hle | Hgt];
    [| destruct (Z.le_gt_cases value (2 ^ 32)) as [Hin | Hout]].
  - unfold prove.
    replace ((value <? threshold + 1) || (value >? 2 ^ 32)) with true by lia.
    eexists. split; [reflexivity |]. cbn [Range.min Range.max valid].
    repeat split; try reflexivity; lia.
  - destruct (prove_then_verify value (threshold + 1) (2 ^ 32) randomBytes)
      as (p & Hp & Hvalid & Hmin & Hmaxp & _ & _ & _ & _ & Hverify);
      [lia | lia | exact Hrandom |].
    exists p. repeat split; try assumption; lia.
  - unfold prove.
    replace ((value <? threshold + 1) || (value >? 2 ^ 32)) with true by lia.
    eexists. split; [reflexivity |]. cbn [Range.min Range.max valid].
    repeat split; try reflexivity; lia.
Qed.

Lemma range_proveGreaterThan_outcome_witness :
  exists p,
    @proveGreaterThan sampleHost sampleOracle 25 17 Sample.entropy = Ok p
    /\ min p = 17 + 1 /\ max p = 2 ^ 32
    /\ (17 < 25 <= 2 ^ 32 ->
        valid p = true
        /\ @verify sampleHost sampleOracle p
           = Ok {| verifyValid := true; verifyMin := 17 + 1;
                   verifyMax := 2 ^ 32;
                   checks := {| bitsAreBinary := true; valueInRange := true;
                                commitmentsMatch := true |} |})
    /\ (25 <= 17 \/ 2 ^ 32 < 25 -> valid p = false).
Proof.
  apply (range_proveGreaterThan_outcome sampleHost sampleOracle 25 17
           Sample.entropy).
  - unfold isSafeInteger. lia.
  - unfold isSafeInteger. lia.
  - reflexivity.
  - lia.
Defined.

End RangeProperties.

(* ===================================================================== *)
(** * Further properties of the commitment scheme *)
(* ===================================================================== *)

Section CommitMoreFacts.
Import Js Commit.

Lemma hexOfBytes_app (xs ys : list byte) :
  hexOfBytes (xs ++ ys) = hexOfBytes xs ++ hexOfBytes ys.
Proof. unfold hexOfBytes. rewrite map_app, concat_app. reflexivity. Qed.

Lemma hexOfBytes_length (bs : list byte) :
  length (hexOfBytes bs) = (2 * length bs)%nat.
Proof.
  unfold hexOfBytes. induction bs as [| b bs IH]; [reflexivity |].
  cbn [map concat]. rewrite length_app, IH, byteHex_digits. cbn [length]. lia.
Qed.

Lemma hexOfBytes_zeros (k : nat) :
  hexOfBytes (repeat "000"%byte k) = repeat 48 (2 * k).
Proof.
  induction k as [| k IH]; [reflexivity |].
  replace (2 * S k)%nat with (S (S (2 * k))) by lia.
  cbn [repeat]. rewrite <- IH. reflexivity.
Qed.

Lemma hexOfBytes_firstn (bs : list byte) :
  forall n, firstn (2 * n) (hexOfBytes bs) = hexOfBytes (firstn n bs).
Proof.
  induction bs as [| b bs IH]; intros n.
  - rewrite !firstn_nil. reflexivity.
  - destruct n as [| n]; [reflexivity |].
    replace (2 * S n)%nat with (S (S (2 * n))) by lia.
    cbn [firstn]. unfold hexOfBytes in *. cbn [map concat].
    rewrite byteHex_digits. cbn [app firstn]. rewrite IH. reflexivity.
Qed.

Lemma firstn_repeat {A} (x : A) (n m : nat) :
  firstn n (repeat x m) = repeat x (Nat.min n m).
Proof.
  revert m. induction n as [| n IH]; intros [| m]; cbn; try reflexivity.
  rewrite IH. reflexivity.
Qed.

(** The salt derived from a secret is the hexadecimal text of the 32
    bytes kept of it. *)
Lemma saltOfSecret_bytes (secret : jsstring) :
  saltOfSecret secret = toHex (secretBytes secret).
Proof.
  unfold saltOfSecret, toHex, secretBytes, slice, padEnd. f_equal.
  set (bytes := encodeUtf8 secret).
  change (64 - 0)%nat with (2 * 32)%nat. rewrite drop_0.
  rewrite <- hexOfBytes_firstn, hexOfBytes_app, hexOfBytes_zeros.
  pose proof (hexOfBytes_length bytes) as Hlen.
  set (hex := hexOfBytes bytes) in *.
  rewrite !firstn_app, !firstn_repeat. do 2 f_equal. lia.
Qed.

End CommitMoreFacts.

Section CommitProperties.
Import Js Commit.

(** X13: whatever the secret argument (absent, empty or not), when
    [commit.create(value, secret)] returns, [commit.verify] called with
    the returned commitment, the same value and the returned salt returns
    [valid == true] and recomputes the same commitment. *)
Theorem commit_verify_accepts_created (host : JsHost)
    (oracle : FieldHashOracle) (value : jsvalue) (secret : option jsstring)
    (randomBytes : list byte) (c : CommitmentResult) :
  create value secret randomBytes = Ok c ->
  exists r,
    verify (commitment c) value (salt c) = Ok r
    /\ verifyValid r = true
    /\ expectedCommitment r = commitment c.
Proof.
  unfold create, verify. intros H.
  destruct (valueToFieldElement value) as [valueField | |];
    [| discriminate ..].
  cbn [bind] in *.
  destruct (hexToFieldElement _) as [saltField | |] eqn:Esalt;
    [| discriminate ..].
  cbn [bind] in H. injection H as <-. cbn [commitment salt].
  rewrite Esalt. cbn [bind].
  eexists. split; [reflexivity |]. cbn [verifyValid expectedCommitment].
  split; [apply bool_decide_eq_true_2 |]; reflexivity.
Qed.

Lemma commit_verify_accepts_created_witness :
  exists c r,
    @create sampleHost sampleOracle (VString (str "alice")) (Some [])
      Sample.entropy = Ok c
    /\ @verify sampleHost sampleOracle (commitment c) (VString (str "alice"))
         (salt c) = Ok r
    /\ verifyValid r = true
    /\ expectedCommitment r = commitment c.
Proof.
  assert (exists c,
            @create sampleHost sampleOracle (VString (str "alice")) (Some [])
              Sample.entropy = Ok c) as [c Hc]
    by (eexists; vm_compute; reflexivity).
  destruct (commit_verify_accepts_created sampleHost sampleOracle
              (VString (str "alice")) (Some []) Sample.entropy c Hc)
    as (r & Hr & Hvalid & Hexpected).
  exists c, r. repeat split; assumption.
Defined.

(** X14: a string of at most 15 decimal digits, the number it spells and
    the bigint it spells are committed alike: with the same secret,
    [commit.create] returns the same commitment and salt for the three. *)
Theorem commit_number_string_bigint_agree (host : JsHost)
    (oracle : FieldHashOracle) (s : jsstring) (secret : option jsstring)
    (randomBytes : list byte) :
  s <> [] -> Forall isDecimalDigit s -> (length s <= 15)%nat ->
  bind (create (VString s) secret randomBytes)
    (fun c => Ok (commitment c, salt c))
  = bind (create (VBigInt (decimalValue s)) secret randomBytes)
      (fun c => Ok (commitment c, salt c))
  /\ bind (create (VNumber (Finite (inject_Z (decimalValue s)))) secret
             randomBytes)
       (fun c => Ok (commitment c, salt c))
     = bind (create (VBigInt (decimalValue s)) secret randomBytes)
         (fun c => Ok (commitment c, salt c)).
Proof.
  intros Hne Hdigits Hlen. unfold create.
  rewrite (commit_digit_string_as_number s Hne Hdigits Hlen).
  cbn [valueToFieldElement BigIntOfNumber inject_Z Qnum Qden].
  rewrite Z.mod_1_r. cbn [Z.eqb].
  assert (Qfloor (inject_Z (decimalValue s)) = decimalValue s) as ->
    by apply Qfloor_Z.
  cbn [bind].
  destruct (hexToFieldElement _) as [saltField | |]; split; reflexivity.
Qed.

Lemma commit_number_string_bigint_agree_witness :
  bind (@create sampleHost sampleOracle (VString (str "100"))
          (Some Sample.secret) Sample.entropy)
    (fun c => Ok (commitment c, salt c))
  = bind (@create sampleHost sampleOracle (VBigInt (decimalValue (str "100")))
            (Some Sample.secret) Sample.entropy)
      (fun c => Ok (commitment c, salt c))
  /\ bind (@create sampleHost sampleOracle
             (VNumber (Finite (inject_Z (decimalValue (str "100")))))
             (Some Sample.secret) Sample.entropy)
       (fun c => Ok (commitment c, salt c))
     = bind (@create sampleHost sampleOracle
               (VBigInt (decimalValue (str "100"))) (Some Sample.secret)
               Sample.entropy)
         (fun c => Ok (commitment c, salt c)).
Proof.
  apply (commit_number_string_bigint_agree sampleHost sampleOracle
           (str "100") (Some Sample.secret) Sample.entropy).
  - discriminate.
  - repeat constructor; unfold isDecimalDigit; cbn; lia.
  - cbn. lia.
Defined.

(** X15: the commitment scheme keeps 32 bytes of a secret: the salt is
    the hexadecimal text of the secret's UTF-8 bytes zero-filled and cut
    at 32 bytes, so two non-empty secrets with the same 32 bytes give the
    same result of [commit.create] and of [commit.reveal]. *)
Theorem commit_secret_read_as_32_bytes (host : JsHost)
    (oracle : FieldHashOracle) (value : jsvalue) (secret1 secret2 : jsstring)
    (randomBytes : list byte) :
  secret1 <> [] -> secret2 <> [] ->
  secretBytes secret1 = secretBytes secret2 ->
  saltOfSecret secret1 = toHex (secretBytes secret1)
  /\ create value (Some secret1) randomBytes
     = create value (Some secret2) randomBytes
  /\ forall commitment,
       reveal commitment value secret1 = reveal commitment value secret2.
Proof.
  intros Hne1 Hne2 Hsame.
  assert (saltOfSecret secret1 = saltOfSecret secret2) as Hsalt
    by (rewrite !saltOfSecret_bytes, Hsame; reflexivity).
  split; [apply saltOfSecret_bytes |]. split.
  - unfold create.
    destruct secret1 as [| c1 s1]; [congruence |].
    destruct secret2 as [| c2 s2]; [congruence |].
    rewrite Hsalt. reflexivity.
  - intros commitment. unfold reveal. rewrite Hsalt. reflexivity.
Qed.

Lemma commit_secret_read_as_32_bytes_witness :
  saltOfSecret Sample.secret = toHex (secretBytes Sample.secret)
  /\ @create sampleHost sampleOracle (VBigInt 100) (Some Sample.secret)
       Sample.entropy
     = @create sampleHost sampleOracle (VBigInt 100)
         (Some (Sample.secret ++ [0])) Sample.entropy
  /\ forall commitment,
       @reveal sampleHost sampleOracle commitment (VBigInt 100) Sample.secret
       = @reveal sampleHost sampleOracle commitment (VBigInt 100)
           (Sample.secret ++ [0]).
Proof.
  apply (commit_secret_read_as_32_bytes sampleHost sampleOracle (VBigInt 100)
           Sample.secret (Sample.secret ++ [0]) Sample.entropy).
  - discriminate.
  - discriminate.
  - vm_compute. reflexivity.
Defined.

End CommitProperties.

(* ===================================================================== *)
(** * Further properties of the nullifier registry *)
(* ===================================================================== *)

Section NullifierMoreFacts.
Import Js Nullifier.
Context {host : JsHost}.

(** One call of [addToSet] keeps [size] equal to the number of members,
    and raises it by one exactly when it answers [true]. *)
Lemma addToSet_size (n : jsstring) (set : NullifierSet) :
  size set = Z.of_nat (base.size (nullifiers set)) ->
  size (snd (addToSet n set))
  = Z.of_nat (base.size (nullifiers (snd (addToSet n set))))
  /\ size (snd (addToSet n set))
     = size set + (if fst (addToSet n set) then 1 else 0).
Proof.
  intros Hinv. unfold addToSet. case_bool_decide as Hin; cbn [fst snd].
  - split; [exact Hinv | lia].
  - cbn [size nullifiers]. split; [reflexivity |].
    rewrite size_union by set_solver. rewrite size_singleton. lia.
Qed.

Lemma addAll_size (hashes : list jsstring) :
  forall set : NullifierSet,
    size set = Z.of_nat (base.size (nullifiers set)) ->
    size (snd (addAll hashes set))
    = Z.of_nat (base.size (nullifiers (snd (addAll hashes set))))
    /\ size (snd (addAll hashes set))
       = size set
         + Z.of_nat (length (List.filter (fun flag : bool => flag)
                               (fst (addAll hashes set)))).
Proof.
  induction hashes as [| h hashes IH]; intros set Hinv.
  - cbn. split; [exact Hinv | lia].
  - rewrite addAll_cons. cbn [fst snd].
    destruct (addToSet_size h set Hinv) as [Hinv' Hstep].
    destruct (IH _ Hinv') as [Hinv'' Hrest].
    split; [exact Hinv'' |]. rewrite Hrest, Hstep. cbn [List.filter].
    destruct (fst (addToSet h set)); cbn [length]; lia.
Qed.

Lemma addAll_scope (hashes : list jsstring) :
  forall set : NullifierSet, scope (snd (addAll hashes set)) = scope set.
Proof.
  induction hashes as [| h hashes IH]; intros set; [reflexivity |].
  rewrite addAll_cons. cbn [snd]. rewrite IH. apply addToSet_scope.
Qed.

Lemma addAll_members (hashes : list jsstring) :
  forall (set : NullifierSet) (x : jsstring),
    x ∈ nullifiers (snd (addAll hashes set))
    <-> x ∈ nullifiers set \/ exists n, n ∈ hashes /\ x = toLowerCase n.
Proof.
  induction hashes as [| h hashes IH]; intros set x.
  - cbn. split; [auto |]. intros [H | (n & Hn & _)]; [exact H |].
    apply elem_of_nil in Hn. contradiction.
  - rewrite addAll_cons. cbn [snd]. rewrite IH, addToSet_elem. split.
    + intros [[Hold | ->] | (n & Hn & ->)].
      * left. exact Hold.
      * right. exists h. split; [apply list_elem_of_here | reflexivity].
      * right. exists n. split; [apply list_elem_of_further, Hn | reflexivity].
    + intros [Hold | (n & Hn & ->)]; [left; left; exact Hold |].
      apply elem_of_cons in Hn as [-> | Hn].
      * left. right. reflexivity.
      * right. exists n. split; [exact Hn | reflexivity].
Qed.

(** The answers of a run depend on the members of the set only. *)
Lemma addAll_flags_of_members (hashes : list jsstring) :
  forall a b : NullifierSet,
    nullifiers a = nullifiers b ->
    fst (addAll hashes a) = fst (addAll hashes b).
Proof.
  induction hashes as [| h hashes IH]; intros a b Hab; [reflexivity |].
  rewrite !addAll_cons. cbn [fst].
  assert (fst (addToSet h a) = fst (addToSet h b)
          /\ nullifiers (snd (addToSet h a))
             = nullifiers (snd (addToSet h b))) as [-> Hnext].
  { unfold addToSet. rewrite Hab.
    case_bool_decide; cbn [fst snd nullifiers]; auto. }
  rewrite (IH _ _ Hnext). reflexivity.
Qed.

End NullifierMoreFacts.

Section NullifierProperties.
Import Js Nullifier.

(** X16: after any run of [addToSet] calls on a set obtained from
    [createSet(scope)], the [size] field is the number of members of the
    set, which is the number of calls that returned [true]; the members
    are the lower-cased arguments of the calls; the [scope] field is the
    one given to [createSet], and no call reads it. *)
Theorem nullifier_set_size_counts_accepted (host : JsHost)
    (s : jsstring) (calls : list jsstring) :
  size (snd (addAll calls (createSet s)))
  = Z.of_nat (base.size (nullifiers (snd (addAll calls (createSet s)))))
  /\ size (snd (addAll calls (createSet s)))
     = Z.of_nat (length (List.filter (fun flag : bool => flag)
                           (fst (addAll calls (createSet s)))))
  /\ (forall x, x ∈ nullifiers (snd (addAll calls (createSet s)))
                <-> exists n, n ∈ calls /\ x = toLowerCase n)
  /\ scope (snd (addAll calls (createSet s))) = s
  /\ forall s', fst (addAll calls (createSet s'))
                = fst (addAll calls (createSet s)).
Proof.
  destruct (addAll_size calls (createSet s)) as [Hinv Hcount].
  { cbn [createSet size nullifiers]. rewrite size_empty. reflexivity. }
  split; [exact Hinv |]. split; [rewrite Hcount; cbn [createSet size]; lia |].
  split; [| split].
  - intros x. rewrite addAll_members. cbn [createSet nullifiers]. split.
    + intros [Hempty | H]; [| exact H].
      apply elem_of_empty in Hempty. contradiction.
    + intros H. right. exact H.
  - rewrite addAll_scope. reflexivity.
  - intros s'.
    apply addAll_flags_of_members. reflexivity.
Qed.

End NullifierProperties.

Section NullifierHashFacts.
Import Js Nullifier.
Context {host : JsHost} {oracle : FieldHashOracle}.

Lemma nullifier_encoder_encodable (s : jsstring) :
  encodable s <-> exists field, Nullifier.stringToFieldElement s = Ok field.
Proof.
  unfold encodable, Nullifier.stringToFieldElement.
  destruct (startsWith s (str "0x")); split.
  - intros H. apply H. reflexivity.
  - intros H _. exact H.
  - intros _. eexists. reflexivity.
  - intros _ H. discriminate.
Qed.

Lemma bigEndian_bound (bs : list byte) :
  0 <= bigEndian bs < 256 ^ Z.of_nat (length bs).
Proof.
  induction bs as [| b bs IH]; cbn [bigEndian length].
  - cbn. lia.
  - pose proof (byteToZ_range b) as Hb.
    rewrite Nat2Z.inj_succ, Z.pow_succ_r by lia.
    assert (0 < 256 ^ Z.of_nat (length bs)) by (apply Z.pow_pos_nonneg; lia).
    nia.
Qed.

Lemma first31BytesValue_bound (s : jsstring) :
  0 <= first31BytesValue s < 2 ^ 248.
Proof.
  unfold first31BytesValue.
  pose proof (bigEndian_bound (firstn 31 (encodeUtf8 s))) as Hb.
  assert (256 ^ Z.of_nat (length (firstn 31 (encodeUtf8 s))) <= 256 ^ 31).
  { apply Z.pow_le_mono_r; [lia |]. rewrite length_firstn. lia. }
  change (2 ^ 248) with (256 ^ 31). lia.
Qed.

End NullifierHashFacts.

Section NullifierFunctionProperties.
Import Js Nullifier.

(** X17: when [nullifier.create(secret, scope)] returns, then for every
    string [h], [nullifier.verify(h, secret, scope)] returns, recomputes
    the created nullifier, and answers [valid == true] exactly when [h]
    lower-cased is the created nullifier; in particular it accepts the
    created nullifier itself. *)
Theorem nullifier_verify_accepts_created (host : JsHost)
    (oracle : FieldHashOracle) (secret s : jsstring) (r : NullifierResult) :
  create secret s = Ok r ->
  (forall h, exists v,
     verify h secret s = Ok v
     /\ expectedNullifier v = nullifier r
     /\ verifiedNullifier v = h
     /\ (valid v = true <-> toLowerCase h = nullifier r))
  /\ exists v, verify (nullifier r) secret s = Ok v /\ valid v = true.
Proof.
  unfold create, verify. intros H.
  destruct (Nullifier.stringToFieldElement secret) as [secretField | |];
    [| discriminate ..].
  cbn [bind] in *.
  destruct (Nullifier.stringToFieldElement s) as [scopeField | |];
    [| discriminate ..].
  cbn [bind] in *. injection H as <-. cbn [nullifier].
  split.
  - intros h. eexists. split; [reflexivity |].
    cbn [expectedNullifier verifiedNullifier valid].
    split; [reflexivity |]. split; [reflexivity |].
    rewrite bool_decide_eq_true, toLowerCase_poseidonHex.
    split; intros Heq; symmetry; exact Heq.
  - eexists. split; [reflexivity |]. cbn [valid].
    apply bool_decide_eq_true_2. reflexivity.
Qed.

Lemma nullifier_verify_accepts_created_witness :
  exists r,
    @create sampleOracle (str "my_voter_secret") (str "election:2024") = Ok r
    /\ (forall h, exists v,
          @verify sampleHost sampleOracle h (str "my_voter_secret")
            (str "election:2024") = Ok v
          /\ expectedNullifier v = nullifier r
          /\ verifiedNullifier v = h
          /\ (valid v = true <-> @toLowerCase sampleHost h = nullifier r))
    /\ exists v,
         @verify sampleHost sampleOracle (nullifier r) (str "my_voter_secret")
           (str "election:2024") = Ok v
         /\ valid v = true.
Proof.
  assert (exists r,
            @create sampleOracle (str "my_voter_secret")
              (str "election:2024") = Ok r) as [r Hr]
    by (eexists; vm_compute; reflexivity).
  exists r. split; [exact Hr |].
  apply (nullifier_verify_accepts_created sampleHost sampleOracle
           (str "my_voter_secret") (str "election:2024") r Hr).
Defined.

(** X18: [nullifier.createBatch(secret, scopes)] returns exactly when
    [nullifier.create(secret, scope)] returns for every scope of the
    array, and then its result has one entry per scope, in order, equal
    to what [create] returns for that scope; for an empty array it
    returns an empty array whatever the secret. *)
Theorem nullifier_createBatch_pointwise (oracle : FieldHashOracle)
    (secret : jsstring) (scopes : list jsstring) :
  createBatch secret [] = Ok []
  /\ ((exists rs, createBatch secret scopes = Ok rs)
      <-> Forall (fun s => exists r, create secret s = Ok r) scopes)
  /\ forall rs, createBatch secret scopes = Ok rs ->
       length rs = length scopes
       /\ forall i s, scopes !! i = Some s ->
            exists r,
              rs !! i = Some r /\ create secret s = Ok r
              /\ resultScope r = s.
Proof.
  unfold createBatch. split; [reflexivity |]. split; [split |].
  - intros [rs Hrs]. destruct (mapM_lookup _ _ _ Hrs) as [_ Hall].
    apply Forall_lookup. intros i s Hs.
    destruct (Hall i s Hs) as (r & _ & Hr). eauto.
  - intros Hall.
    destruct (mapM_total (fun s => create secret s) (fun _ => True) scopes)
      as (rs & Hrs & _); [| eauto].
    eapply Forall_impl; [exact Hall |].
    intros s [r Hr]. exists r. auto.
  - intros rs Hrs. destruct (mapM_lookup _ _ _ Hrs) as [Hlen Hall].
    split; [exact Hlen |]. intros i s Hs.
    destruct (Hall i s Hs) as (r & Hi & Hr).
    exists r. split; [exact Hi |]. split; [exact Hr |].
    unfold create in Hr.
    destruct (Nullifier.stringToFieldElement secret); [| discriminate ..].
    cbn [bind] in Hr.
    destruct (Nullifier.stringToFieldElement s); [| discriminate ..].
    cbn [bind] in Hr. injection Hr as <-. reflexivity.
Qed.

(** X19: a secret drawn by [nullifier.generateSecret()] is accepted by
    [nullifier.create] with every encodable scope: it is read as the
    big-endian value of the random bytes; two draws give the same secret
    only when they drew the same bytes. *)
Theorem nullifier_generated_secret_usable (host : JsHost)
    (oracle : FieldHashOracle) (randomBytes : list byte) (s : jsstring) :
  randomBytes <> [] -> encodable s ->
  (exists r scopeField,
     Nullifier.stringToFieldElement s = Ok scopeField
     /\ create (generateSecret randomBytes) s = Ok r
     /\ nullifier r = poseidonHex [bigEndian randomBytes; scopeField])
  /\ forall otherBytes,
       generateSecret otherBytes = generateSecret randomBytes ->
       otherBytes = randomBytes.
Proof.
  intros Hne Hscope. split.
  - apply nullifier_encoder_encodable in Hscope as [scopeField Hs].
    assert (Nullifier.stringToFieldElement (generateSecret randomBytes)
            = Ok (bytesValueFrom 0 randomBytes)) as Hsecret
      by exact (BigIntOfString_toHex randomBytes Hne).
    unfold create. rewrite Hsecret. cbn [bind]. rewrite Hs. cbn [bind].
    eexists. exists scopeField. split; [reflexivity |].
    split; [reflexivity |]. cbn [nullifier].
    rewrite bytesValueFrom_bigEndian. reflexivity.
  - intros otherBytes. apply toHex_inj.
Qed.

Lemma nullifier_generated_secret_usable_witness :
  (exists r scopeField,
     Nullifier.stringToFieldElement (str "election:2024") = Ok scopeField
     /\ @create sampleOracle (generateSecret Sample.entropy)
          (str "election:2024") = Ok r
     /\ nullifier r
        = @poseidonHex sampleOracle [bigEndian Sample.entropy; scopeField])
  /\ forall otherBytes,
       generateSecret otherBytes = generateSecret Sample.entropy ->
       otherBytes = Sample.entropy.
Proof.
  apply (nullifier_generated_secret_usable sampleHost sampleOracle
           Sample.entropy (str "election:2024")).
  - discriminate.
  - intros H. discriminate.
Defined.

End NullifierFunctionProperties.

(* ===================================================================== *)
(** * Further properties of the hash front end *)
(* ===================================================================== *)

Section HashProperties.
Import Js.

(** X20: [hash.poseidon] on an array of 1 to 16 strings returns the
    digest of one field element per string, in order, each the value of
    the first 31 bytes of the string's UTF-8 encoding and so a
    non-negative integer below 2^248 (a string that starts with "0x" is
    read as text like any other); on an empty array and on more than 16
    strings it throws an Error; on one string it returns the digest it
    returns for the array holding that string. *)
Theorem hash_poseidon_inputs_below_2_248 (oracle : FieldHashOracle)
    (input : list jsstring) :
  ((1 <= length input <= 16)%nat ->
   Hash.poseidonOfArray input
   = Ok (poseidonHex (map first31BytesValue input))
   /\ Forall (fun field => 0 <= field < 2 ^ 248)
        (map first31BytesValue input))
  /\ (input = [] \/ (16 < length input)%nat ->
      exists msg, Hash.poseidonOfArray input = Throw (Error msg))
  /\ forall s,
       Hash.poseidonOfArray [s] = Ok (Hash.poseidonOfString s)
       /\ Hash.poseidonOfString s = poseidonHex [first31BytesValue s].
Proof.
  assert (map Hash.stringToFieldElement input = map first31BytesValue input)
    as Hfields.
  { apply map_ext. intros s. apply accumulateBytes_first31. }
  split; [| split]; [| | intros s; split; [reflexivity |];
                         unfold Hash.poseidonOfString, Hash.stringToFieldElement;
                         rewrite accumulateBytes_first31; reflexivity];
    unfold Hash.poseidonOfArray; cbn zeta; rewrite Hfields;
    unfold len; rewrite length_map.
  - intros Hsize.
    replace ((1 <=? Z.of_nat (length input))
             && (Z.of_nat (length input) <=? 16)) with true by lia.
    split; [reflexivity |].
    apply Forall_forall. intros field Hfield.
    apply list_elem_of_In, in_map_iff in Hfield as (s & <- & _).
    apply first31BytesValue_bound.
  - intros Hsize.
    replace ((1 <=? Z.of_nat (length input))
             && (Z.of_nat (length input) <=? 16)) with false
      by (destruct Hsize as [-> | Hlong]; [reflexivity | lia]).
    eexists. reflexivity.
Qed.

End HashProperties.

(* ===================================================================== *)
(** * Properties of the signature module *)
(* ===================================================================== *)

Section SignFacts.
Import Js Sign.

Lemma byteOfZ_byteToZ (b : byte) : byteOfZ (byteToZ b) = b.
Proof.
  unfold byteOfZ. pose proof (byteToZ_range b) as Hb.
  rewrite Z.mod_small by exact Hb. unfold byteToZ.
  rewrite N2Z.id, Byte.of_to_N. reflexivity.
Qed.

Lemma hexDigit_low_byte (d : Z) :
  0 <= d < 16 -> hexDigit d mod 256 = hexDigit d.
Proof.
  intros Hd. apply Z.mod_small. unfold hexDigit.
  destruct (Z.ltb_spec d 10); lia.
Qed.

(** Decoding inverts the hexadecimal text of a buffer. *)
Lemma BufferFromHex_hexOfBytes (bs : list byte) :
  BufferFromHex (hexOfBytes bs) = bs.
Proof.
  unfold hexOfBytes. induction bs as [| b bs IH]; [reflexivity |].
  cbn [map concat]. rewrite byteHex_digits. cbn [app BufferFromHex].
  pose proof (byteToZ_range b) as Hb.
  rewrite !hexDigit_low_byte by nibble_bound.
  rewrite !digitValue_hexDigit by nibble_bound.
  rewrite IH. f_equal.
  rewrite <- (byteOfZ_byteToZ b) at 3. f_equal.
  pose proof (Z.div_mod (byteToZ b) 16). lia.
Qed.

Lemma hexOfBytes_no_prefix (bs : list byte) :
  startsWith (hexOfBytes bs) (str "0x") = false.
Proof.
  destruct bs as [| b bs]; [reflexivity |].
  unfold hexOfBytes. cbn [map concat]. rewrite byteHex_digits.
  change (str "0x") with [48; 120]. cbn [app startsWith].
  pose proof (byteToZ_range b) as Hb.
  assert (0 <= byteToZ b mod 16 < 16) as Hd by nibble_bound.
  unfold hexDigit at 2. destruct (byteToZ b mod 16 <? 10) eqn:E.
  - replace (120 =? 48 + byteToZ b mod 16) with false by lia.
    cbn [andb]. apply andb_false_r.
  - replace (120 =? 87 + byteToZ b mod 16) with false by lia.
    cbn [andb]. apply andb_false_r.
Qed.

Lemma BufferFromHex_length (s : jsstring) :
  forall n, (length s <= n)%nat -> (2 * length (BufferFromHex s) <= length s)%nat.
Proof.
  intros n. revert s. induction n as [| n IH]; intros s Hn.
  - destruct s; [cbn; lia | cbn in Hn; lia].
  - destruct s as [| hi [| lo rest]]; cbn [BufferFromHex length]; try lia.
    destruct (digitValue 16 (hi mod 256)); [| cbn [length]; lia].
    destruct (digitValue 16 (lo mod 256)); [| cbn [length]; lia].
    cbn [length] in *. specialize (IH rest ltac:(lia)). lia.
Qed.

(** Reading back the digits written by [toString16Loop]. *)
Lemma toString16Loop_parse (fuel : nat) :
  forall (z : Z) (digits : jsstring),
    0 <= z < 16 ^ Z.of_nat fuel ->
    parseDigitsFrom 16 0 (toString16Loop fuel z digits)
    = parseDigitsFrom 16 z digits.
Proof.
  induction fuel as [| fuel IH]; intros z digits Hz.
  - cbn in Hz. replace z with 0 by lia. reflexivity.
  - cbn [toString16Loop].
    rewrite Nat2Z.inj_succ, Z.pow_succ_r in Hz by lia.
    destruct (Z.ltb_spec z 16) as [Hsmall | Hbig].
    + cbn [parseDigitsFrom]. rewrite digitValue_hexDigit by lia.
      reflexivity.
    + rewrite IH.
      * cbn [parseDigitsFrom].
        rewrite digitValue_hexDigit by (apply Z.mod_pos_bound; lia).
        f_equal. pose proof (Z.div_mod z 16). lia.
      * split; [apply Z.div_pos; lia | apply Z.div_lt_upper_bound; lia].
Qed.

Lemma toString16Loop_lower (fuel : nat) :
  forall (z : Z) (digits : jsstring),
    0 <= z -> Forall isLowerAlnum digits ->
    Forall isLowerAlnum (toString16Loop fuel z digits).
Proof.
  induction fuel as [| fuel IH]; intros z digits Hz Hdigits; [exact Hdigits |].
  cbn [toString16Loop]. destruct (Z.ltb_spec z 16) as [Hsmall | Hbig].
  - constructor; [apply hexDigit_lower; lia | exact Hdigits].
  - apply IH; [apply Z.div_pos; lia |].
    constructor; [| exact Hdigits].
    apply hexDigit_lower, Z.mod_pos_bound. lia.
Qed.

Lemma toString16Loop_nonempty (fuel : nat) (z : Z) (digits : jsstring) :
  fuel <> 0%nat -> toString16Loop fuel z digits <> [].
Proof.
  revert z digits. induction fuel as [| fuel IH]; intros z digits Hf;
    [congruence |].
  cbn [toString16Loop]. destruct (z <? 16); [discriminate |].
  destruct fuel as [| fuel']; [discriminate |]. apply IH. discriminate.
Qed.

Lemma digits_fuel (z : Z) :
  0 <= z -> z < 16 ^ Z.of_nat (S (Z.to_nat (Z.log2 z))).
Proof.
  intros Hz. pose proof (Z.log2_nonneg z) as Hl.
  rewrite Nat2Z.inj_succ, Z2Nat.id by exact Hl.
  destruct (Z.eq_dec z 0) as [-> | Hnz]; [cbn; lia |].
  pose proof (Z.log2_spec z ltac:(lia)) as [_ Hup].
  assert (2 ^ Z.succ (Z.log2 z) <= 16 ^ Z.succ (Z.log2 z))
    by (apply Z.pow_le_mono_l; lia).
  lia.
Qed.

Lemma BigIntToString16_lower (z : Z) :
  0 <= z -> Forall isLowerAlnum (BigIntToString16 z).
Proof.
  intros Hz. unfold BigIntToString16.
  replace (z <? 0) with false by lia.
  apply toString16Loop_lower; [exact Hz | constructor].
Qed.

Lemma parseDigitsFrom_zeros (k : nat) (ds : jsstring) :
  parseDigitsFrom 16 0 (repeat 48 k ++ ds) = parseDigitsFrom 16 0 ds.
Proof. induction k as [| k IH]; [reflexivity | exact IH]. Qed.

Lemma fieldToHex_lower (v : Z) : 0 <= v -> Forall isLowerAlnum (fieldToHex v).
Proof.
  intros Hv. unfold fieldToHex, padStart.
  apply Forall_app. split.
  - constructor; [| constructor; [| constructor]];
      unfold isLowerAlnum; cbn; lia.
  - apply Forall_app. split; [| apply BigIntToString16_lower, Hv].
    apply Forall_forall. intros x Hx.
    apply list_elem_of_In, repeat_spec in Hx. subst x.
    unfold isLowerAlnum. lia.
Qed.

(** The hexadecimal detour of [fieldToHex] loses nothing: [BigInt] reads
    the value back. *)
Lemma BigIntOfString_fieldToHex (v : Z) :
  0 <= v -> BigIntOfString (fieldToHex v) = Ok v.
Proof.
  intros Hv. unfold BigIntOfString, StringToBigInt.
  rewrite trimString_no_space.
  2:{ eapply Forall_impl; [apply fieldToHex_lower, Hv |].
      intros c Hc. apply lowerAlnum_no_space, Hc. }
  unfold fieldToHex, padStart. change (str "0x") with [48; 120].
  cbn [app]. unfold parseDigits.
  assert (BigIntToString16 v <> []) as Hne.
  { unfold BigIntToString16. replace (v <? 0) with false by lia.
    apply toString16Loop_nonempty. discriminate. }
  destruct (repeat 48 (64 - length (BigIntToString16 v)) ++ BigIntToString16 v)
    as [| c ds] eqn:E.
  { apply app_eq_nil in E as [_ E]. congruence. }
  rewrite <- E, parseDigitsFrom_zeros.
  unfold BigIntToString16. replace (v <? 0) with false by lia.
  rewrite toString16Loop_parse by (split; [exact Hv | apply digits_fuel, Hv]).
  reflexivity.
Qed.

Lemma chunkValue_bigEndian (chunk : list byte) :
  chunkValue chunk = bigEndian chunk.
Proof.
  change (chunkValue chunk) with (bytesValueFrom 0 chunk).
  rewrite bytesValueFrom_bigEndian. lia.
Qed.

(** The chunk loop, when it is given enough steps: chunk [k] is the value
    of the 31 bytes from position [i + 31 k]. *)
Lemma chunkLoop_lookup (steps : nat) :
  forall (i : nat) (bytes : list byte) (k : nat),
    (k < steps)%nat -> (i + 31 * k < length bytes)%nat ->
    chunkLoop steps i bytes !! k
    = Some (bigEndian (firstn 31 (skipn (i + 31 * k) bytes))).
Proof.
  induction steps as [| steps IH]; intros i bytes k Hk Hin; [lia |].
  cbn [chunkLoop].
  replace (i <? length bytes)%nat with true
    by (symmetry; apply Nat.ltb_lt; lia).
  destruct k as [| k].
  - rewrite Nat.mul_0_r, Nat.add_0_r, chunkValue_bigEndian. reflexivity.
  - cbn [lookup list_lookup].
    etrans; [apply (IH (i + 31)%nat bytes k); lia |].
    do 4 f_equal. lia.
Qed.

Lemma chunkLoop_length (steps : nat) :
  forall (i : nat) (bytes : list byte),
    (length bytes <= i + 31 * steps)%nat ->
    length (chunkLoop steps i bytes) = ((length bytes - i + 30) / 31)%nat.
Proof.
  induction steps as [| steps IH]; intros i bytes Hsteps.
  - cbn [chunkLoop length].
    replace (length bytes - i)%nat with 0%nat by lia. reflexivity.
  - cbn [chunkLoop]. destruct (Nat.ltb_spec i (length bytes)) as [Hin | Hout].
    + cbn [length]. rewrite IH by lia.
      destruct (le_lt_dec (length bytes) (i + 31)) as [Hlast | Hmore].
      * replace (length bytes - (i + 31))%nat with 0%nat by lia.
        change ((0 + 30) / 31)%nat with 0%nat.
        apply (Nat.div_unique _ 31 1 (length bytes - i - 1)); lia.
      * replace (length bytes - i + 30)%nat
          with (length bytes - (i + 31) + 30 + 1 * 31)%nat by lia.
        rewrite Nat.div_add by lia. lia.
    + replace (length bytes - i)%nat with 0%nat by lia. reflexivity.
Qed.

Lemma encodeUtf8_nul (s : jsstring) :
  encodeUtf8 (0 :: s) = "000"%byte :: encodeUtf8 s.
Proof. reflexivity. Qed.

Lemma toString16Loop_length (fuel : nat) :
  forall (z : Z) (digits : jsstring) (k : nat),
    (1 <= k)%nat -> 0 <= z < 16 ^ Z.of_nat k ->
    (length (toString16Loop fuel z digits) <= k + length digits)%nat.
Proof.
  induction fuel as [| fuel IH]; intros z digits k Hk Hz; cbn [toString16Loop].
  - lia.
  - destruct (Z.ltb_spec z 16) as [Hsmall | Hbig]; [cbn [length]; lia |].
    destruct k as [| [| k]]; [lia | cbn in Hz; lia |].
    etrans; [apply (IH (z / 16) _ (S k)); [lia |] |].
    + rewrite (Nat2Z.inj_succ (S k)), Z.pow_succ_r in Hz by lia.
      split; [apply Z.div_pos; lia | apply Z.div_lt_upper_bound; lia].
    + cbn [length]. lia.
Qed.

(** The text written by [fieldToHex] for a value below 2^256: "0x" and 64
    digits. *)
Lemma fieldToHex_length (v : Z) :
  0 <= v < 2 ^ 256 -> length (fieldToHex v) = 66%nat.
Proof.
  intros Hv. unfold fieldToHex, padStart.
  assert (length (BigIntToString16 v) <= 64)%nat as Hlen.
  { unfold BigIntToString16. replace (v <? 0) with false by lia.
    pose proof (toString16Loop_length (S (Z.to_nat (Z.log2 v))) v [] 64
                  ltac:(lia)) as H.
    cbn [length] in H. rewrite Nat.add_0_r in H. apply H.
    change (16 ^ Z.of_nat 64) with (2 ^ 256). exact Hv. }
  rewrite !length_app, repeat_length. cbn [length str]. 
  change (length (str "0x")) with 2%nat. lia.
Qed.

Lemma sign_hexToBuffer_round_trip_aux (buffer : list byte) :
  hexToBuffer (bufferToHex buffer) = buffer
  /\ hexToBuffer (hexOfBytes buffer) = buffer.
Proof.
  unfold hexToBuffer, bufferToHex. split.
  - change (startsWith (str "0x" ++ hexOfBytes buffer) (str "0x")) with true.
    apply BufferFromHex_hexOfBytes.
  - rewrite hexOfBytes_no_prefix. apply BufferFromHex_hexOfBytes.
Qed.

End SignFacts.

Section SignSample.

Lemma sample_fieldValue_range (inputs : list Z) :
  0 <= SampleSign.fieldValue inputs < 2 ^ 254.
Proof. apply Z.mod_pos_bound. reflexivity. Qed.

End SignSample.

Definition sampleField : Sign.FieldValueOracle :=
  {| Sign.poseidonField := SampleSign.fieldValue;
     Sign.poseidonField_range := sample_fieldValue_range |}.

Section SignMoreFacts.
Import Js Sign.
Context {host : JsHost} {field : FieldValueOracle}.

Lemma batchLoop_range (steps : nat) :
  forall (i : nat) (chunks : list Z) (h : Z),
    0 <= h < 2 ^ 254 -> 0 <= batchLoop steps i chunks h < 2 ^ 254.
Proof.
  induction steps as [| steps IH]; intros i chunks h Hh; [exact Hh |].
  cbn [batchLoop]. destruct (i <? length chunks)%nat; [| exact Hh].
  apply IH, poseidonField_range.
Qed.

(** [hashMessage] returns the value of the last hash: the detour through
    hexadecimal text is exact. *)
Lemma hashMessage_value (message : jsstring) :
  hashMessage message
  = Ok (batchLoop (length (messageChunks message)) 16 (messageChunks message)
          (poseidonField
             (firstn (Nat.min (length (messageChunks message)) 16)
                (messageChunks message))))
  /\ 0 <= batchLoop (length (messageChunks message)) 16 (messageChunks message)
            (poseidonField
               (firstn (Nat.min (length (messageChunks message)) 16)
                  (messageChunks message))) < 2 ^ 254.
Proof.
  unfold hashMessage.
  match goal with
  | |- context [batchLoop ?n 16 ?c ?h] =>
      pose proof (batchLoop_range n 16 c h (poseidonField_range _)) as Hr
  end.
  split; [| exact Hr]. apply BigIntOfString_fieldToHex. lia.
Qed.

Lemma messageChunks_bytes (message : jsstring) :
  encodeUtf8 message <> [] ->
  messageChunks message
  = chunkLoop (length (encodeUtf8 message)) 0 (encodeUtf8 message)
  /\ length (messageChunks message)
     = ((length (encodeUtf8 message) + 30) / 31)%nat
  /\ (1 <= length (messageChunks message))%nat.
Proof.
  intros Hne. unfold messageChunks.
  set (bytes := encodeUtf8 message) in *.
  pose proof (chunkLoop_length (length bytes) 0 bytes ltac:(lia)) as Hlen.
  rewrite Nat.sub_0_r in Hlen.
  assert (1 <= (length bytes + 30) / 31)%nat as Hone.
  { apply (Nat.div_le_lower_bound _ 31 1); [lia |].
    destruct bytes; [congruence | cbn [length]; lia]. }
  destruct (chunkLoop (length bytes) 0 bytes) as [| c cs] eqn:E.
  - cbn [length] in Hlen. lia.
  - repeat split; [exact Hlen | cbn [length]; lia].
Qed.

(** The validity answer of [verify] depends on the message through its
    hash only. *)
Lemma verify_valid_of_hash (lib : option EddsaLibrary)
    (message1 message2 : jsstring) (signature : Signature)
    (publicKey : jsstring) :
  hashMessage message1 = hashMessage message2 ->
  bind (verify lib message1 signature publicKey) (fun r => Ok (valid r))
  = bind (verify lib message2 signature publicKey) (fun r => Ok (valid r)).
Proof.
  intros Hsame. unfold verify.
  destruct lib as [eddsa |]; cbn [initEddsaAndBabyjub bind]; [| reflexivity].
  rewrite Hsame.
  destruct (hashMessage message2) as [v | e |]; cbn [bind catch];
    [| reflexivity ..].
  case_bool_decide; cbn [bind catch valid]; [reflexivity |].
  destruct (unpackPoint (hexToBuffer publicKey)) as [e | [P |]];
    cbn [call bind catch valid]; try reflexivity.
  destruct (unpackPoint (hexToBuffer (R8 signature))) as [e | [R |]];
    cbn [call bind catch valid]; try reflexivity.
  destruct (BigIntOfString (signatureS signature)) as [s | e |];
    cbn [bind catch valid]; try reflexivity.
  destruct (BigIntOfString (messageHash signature)) as [m | e |];
    cbn [bind catch valid]; try reflexivity.
  destruct (verifyPoseidon m (R, s) P) as [e | flag];
    cbn [call bind catch valid]; reflexivity.
Qed.

End SignMoreFacts.

Section SignProperties.
Import Js Sign.

(** X21: [hexToBuffer] inverts [bufferToHex]: the bytes of a buffer come
    back from its hexadecimal text, written with or without the "0x"
    prefix; on any string [hexToBuffer] returns at most one byte for
    every two code units ([Buffer.from(s, "hex")] reads each code unit
    through its low byte and stops at the first pair that does not give
    two hexadecimal digits). *)
Theorem sign_hexToBuffer_round_trip (buffer : list byte) :
  hexToBuffer (bufferToHex buffer) = buffer
  /\ hexToBuffer (hexOfBytes buffer) = buffer
  /\ forall s, (2 * length (hexToBuffer s) <= length s)%nat.
Proof.
  destruct (sign_hexToBuffer_round_trip_aux buffer) as [Hprefixed Hplain].
  split; [exact Hprefixed |]. split; [exact Hplain |].
  unfold hexToBuffer.
  intros s. destruct (startsWith s (str "0x")).
  - pose proof (BufferFromHex_length (sliceFrom s 2) _ (le_n _)) as Hlen.
    unfold sliceFrom in *. rewrite length_skipn in Hlen. lia.
  - apply (BufferFromHex_length s _ (le_n _)).
Qed.

(** The decoder reads code units through their low byte: U+0131 followed
    by "2" decodes like "12". *)
Example hexToBuffer_reads_low_bytes :
  hexToBuffer [305; 50] = hexToBuffer (str "12")
  /\ hexToBuffer (str "12") = ["018"%byte]
  /\ hexToBuffer (str "0x1g34") = [].
Proof. repeat split. Qed.

(** X22: the private key string of a generated key pair leads back to
    its public key: when [generateKeypair()] returns a key pair,
    [derivePublicKey(keypair.privateKey)] returns [keypair.publicKey]. *)
Theorem sign_generated_key_derives_public_key (lib : option EddsaLibrary)
    (randomBytes : list byte) (keypair : Keypair) :
  generateKeypair lib randomBytes = Ok keypair ->
  derivePublicKey lib (privateKey keypair) = Ok (keypairPublicKey keypair).
Proof.
  unfold generateKeypair, derivePublicKey. intros Hgen.
  destruct lib as [eddsa |]; cbn [initEddsaAndBabyjub bind] in *;
    [| discriminate].
  destruct (prv2pub randomBytes) as [e | P] eqn:EP; cbn [call bind] in Hgen;
    [discriminate |].
  destruct (packPoint P) as [e | packed] eqn:Epack; cbn [call bind] in Hgen;
    [discriminate |].
  destruct (coordinateStrings P) as [e | xy]; cbn [call bind] in Hgen;
    [discriminate |].
  injection Hgen as <-. cbn [privateKey keypairPublicKey].
  change (startsWith (bufferToHex randomBytes) (str "0x")) with true.
  cbv iota.
  change (sliceFrom (bufferToHex randomBytes) 2) with (hexOfBytes randomBytes).
  rewrite BufferFromHex_hexOfBytes, EP. cbn [call bind]. rewrite Epack.
  reflexivity.
Qed.

Lemma sign_generated_key_derives_public_key_witness :
  exists keypair,
    generateKeypair (Some SampleSign.library) Sample.entropy = Ok keypair
    /\ derivePublicKey (Some SampleSign.library) (privateKey keypair)
       = Ok (keypairPublicKey keypair).
Proof.
  assert (exists keypair,
            generateKeypair (Some SampleSign.library) Sample.entropy
            = Ok keypair) as [keypair Hk]
    by (eexists; vm_compute; reflexivity).
  exists keypair. split; [exact Hk |].
  apply (sign_generated_key_derives_public_key (Some SampleSign.library)
           Sample.entropy keypair Hk).
Defined.

(** X23: [hashMessage] cuts the UTF-8 bytes of the message into chunks of
    31 bytes: a message without bytes gives the single chunk 0; a message
    of [n > 0] bytes gives ceil(n / 31) chunks, chunk [k] being the
    big-endian value of the bytes from [31 k] up to [31 k + 31]; every
    chunk is a non-negative integer below 2^248. *)
Theorem sign_message_chunks (text : jsstring) :
  (encodeUtf8 text = [] -> messageChunks text = [0])
  /\ (encodeUtf8 text <> [] ->
      length (messageChunks text)
      = ((length (encodeUtf8 text) + 30) / 31)%nat
      /\ forall k, (k < length (messageChunks text))%nat ->
           messageChunks text !! k
           = Some (bigEndian (firstn 31 (skipn (31 * k) (encodeUtf8 text)))))
  /\ Forall (fun chunk => 0 <= chunk < 2 ^ 248) (messageChunks text).
Proof.
  assert (encodeUtf8 text <> [] ->
          length (messageChunks text)
          = ((length (encodeUtf8 text) + 30) / 31)%nat
          /\ forall k, (k < length (messageChunks text))%nat ->
               messageChunks text !! k
               = Some (bigEndian
                         (firstn 31 (skipn (31 * k) (encodeUtf8 text)))))
    as Hchunks.
  { intros Hne.
    destruct (messageChunks_bytes text Hne) as (Heq & Hlen & _).
    split; [exact Hlen |]. intros k Hk. rewrite Hlen in Hk. rewrite Heq.
    pose proof (Nat.Div0.mul_div_le (length (encodeUtf8 text) + 30) 31)
      as Hdiv.
    apply (chunkLoop_lookup _ 0 (encodeUtf8 text) k); lia. }
  split; [| split; [exact Hchunks |]].
  - intros Hnil. unfold messageChunks. rewrite Hnil. reflexivity.
  - destruct (encodeUtf8 text) as [| b bytes] eqn:E.
    + unfold messageChunks. rewrite E. cbn.
      constructor; [lia | constructor].
    + destruct Hchunks as [_ Hall]; [discriminate |].
      apply Forall_lookup. intros k chunk Hk.
      rewrite Hall in Hk by (eapply lookup_lt_Some; exact Hk).
      injection Hk as <-.
      match goal with
      | |- context [bigEndian ?c] =>
          pose proof (bigEndian_bound c) as Hb;
          assert (256 ^ Z.of_nat (length c) <= 256 ^ 31)
            by (apply Z.pow_le_mono_r; [lia | rewrite length_firstn; lia])
      end.
      change (2 ^ 248) with (256 ^ 31). lia.
Qed.

(** X24: [hashMessage] never throws; it returns the value of the last
    hash it computed, a non-negative integer below 2^254: writing the
    value as hexadecimal text ("0x" and 64 lower-case digits, the form
    of [signature.messageHash]) and reading it back with [BigInt] is
    exact.  For a message of at most 16 chunks that value is the one hash
    of all the chunks. *)
Theorem sign_hashMessage_returns (field : FieldValueOracle)
    (text : jsstring) :
  exists v,
    hashMessage text = Ok v
    /\ 0 <= v < 2 ^ 254
    /\ BigIntOfString (fieldToHex v) = Ok v
    /\ length (fieldToHex v) = 66%nat
    /\ Forall isLowerAlnum (fieldToHex v)
    /\ ((length (messageChunks text) <= 16)%nat ->
        v = poseidonField (messageChunks text)).
Proof.
  destruct (hashMessage_value text) as [Hv Hrange].
  eexists. split; [exact Hv |]. split; [exact Hrange |].
  split; [apply BigIntOfString_fieldToHex; lia |].
  split; [apply fieldToHex_length; change (2 ^ 256) with (4 * 2 ^ 254); lia |].
  split; [apply fieldToHex_lower; lia |].
  intros Hshort.
  rewrite Nat.min_l by exact Hshort. rewrite firstn_all.
  destruct (length (messageChunks text)) as [| n] eqn:E; [reflexivity |].
  cbn [batchLoop]. rewrite E.
  replace (16 <? S n)%nat with false
    by (symmetry; apply Nat.ltb_ge; lia).
  reflexivity.
Qed.

(** X25: a NUL character put in front of a message shorter than 31 bytes
    does not change its chunks, so the two messages have the same hash
    and [sign.verify] gives the same validity answer for both, for every
    signature and public key. *)
Theorem sign_leading_nul_ignored (host : JsHost) (field : FieldValueOracle)
    (lib : option EddsaLibrary) (text : jsstring) (signature : Signature)
    (key : jsstring) :
  (length (encodeUtf8 text) < 31)%nat ->
  messageChunks (0 :: text) = messageChunks text
  /\ hashMessage (0 :: text) = hashMessage text
  /\ bind (verify lib (0 :: text) signature key) (fun r => Ok (valid r))
     = bind (verify lib text signature key) (fun r => Ok (valid r)).
Proof.
  intros Hshort.
  assert (messageChunks (0 :: text) = messageChunks text) as Hchunks.
  { unfold messageChunks. rewrite encodeUtf8_nul.
    set (bytes := encodeUtf8 text) in *.
    cbn [length chunkLoop].
    replace (0 <? S (length bytes))%nat with true by reflexivity.
    assert (forall steps (bs : list byte),
              (length bs <= 31)%nat -> chunkLoop steps (0 + 31) bs = [])
      as Hend.
    { intros [| steps] bs Hbs; [reflexivity |]. cbn [chunkLoop].
      replace (0 + 31 <? length bs)%nat with false
        by (symmetry; apply Nat.ltb_ge; lia).
      reflexivity. }
    rewrite Hend by (cbn [length]; lia).
    rewrite drop_0, firstn_all2 by (cbn [length]; lia).
    change (chunkValue ("000"%byte :: bytes)) with (chunkValue bytes).
    destruct bytes as [| b bytes]; [reflexivity |].
    cbn [length chunkLoop].
    replace (0 <? S (length bytes))%nat with true by reflexivity.
    rewrite Hend by (cbn [length] in *; lia).
    rewrite drop_0, firstn_all2 by (cbn [length] in *; lia).
    reflexivity. }
  assert (hashMessage (0 :: text) = hashMessage text) as Hhash
    by (unfold hashMessage; rewrite Hchunks; reflexivity).
  split; [exact Hchunks |]. split; [exact Hhash |].
  apply verify_valid_of_hash, Hhash.
Qed.

Lemma sign_leading_nul_ignored_witness :
  messageChunks (0 :: str "hello") = messageChunks (str "hello")
  /\ @hashMessage sampleField (0 :: str "hello")
     = @hashMessage sampleField (str "hello")
  /\ bind (@verify sampleHost sampleField (Some SampleSign.library)
             (0 :: str "hello") SampleSign.signature SampleSign.publicKey)
       (fun r => Ok (valid r))
     = bind (@verify sampleHost sampleField (Some SampleSign.library)
               (str "hello") SampleSign.signature SampleSign.publicKey)
         (fun r => Ok (valid r)).
Proof.
  apply (sign_leading_nul_ignored sampleHost sampleField
           (Some SampleSign.library) (str "hello") SampleSign.signature
           SampleSign.publicKey).
  vm_compute. lia.
Defined.

End SignProperties.

Section SignVerifyProperties.
Import Js Sign.

(** X26: [sign.verify] fails closed.  Without the EdDSA library it throws
    an Error.  With it, it never throws: it returns a result that repeats
    the message and the public key, and whose [valid] is true exactly
    when the hash of the message, written by [fieldToHex], equals
    [signature.messageHash] up to letter case, the public key and
    [signature.R8] decode to bytes that unpack to points, [signature.S]
    and [signature.messageHash] are [BigInt] literals, and the library's
    [verifyPoseidon] returns true for them; every exception inside gives
    [valid == false]. *)
Theorem sign_verify_fails_closed (host : JsHost) (field : FieldValueOracle)
    (eddsa : EddsaLibrary) (text : jsstring) (signature : Signature)
    (key : jsstring) :
  (exists msg, verify None text signature key = Throw (Error msg))
  /\ exists r,
       verify (Some eddsa) text signature key = Ok r
       /\ verifiedMessage r = text
       /\ verifiedPublicKey r = key
       /\ (valid r = true <->
           exists v P R s m,
             hashMessage text = Ok v
             /\ toLowerCase (fieldToHex v)
                = toLowerCase (messageHash signature)
             /\ unpackPoint (hexToBuffer key) = inr (Some P)
             /\ unpackPoint (hexToBuffer (R8 signature)) = inr (Some R)
             /\ BigIntOfString (signatureS signature) = Ok s
             /\ BigIntOfString (messageHash signature) = Ok m
             /\ verifyPoseidon m (R, s) P = inr true).
Proof.
  split; [eexists; reflexivity |].
  unfold verify. cbn [initEddsaAndBabyjub bind].
  destruct (hashMessage_value text) as [Hv _]. rewrite Hv. cbn [bind].
  match type of Hv with _ = Ok ?x => set (v := x) in * end.
  change (str "0x" ++ padStart 64 48 (BigIntToString16 v))
    with (fieldToHex v).
  case_bool_decide as Hhash; cbn [catch].
  { eexists. split; [reflexivity |]. cbn [valid verifiedMessage verifiedPublicKey].
    repeat split; try discriminate.
    intros (v' & P & R & s & m & Hv' & Heq & _). injection Hv' as <-.
    exfalso. apply Hhash. exact Heq. }
  destruct (unpackPoint (hexToBuffer key)) as [e | [P |]] eqn:EP;
    cbn [call bind catch].
  1,3: eexists; split; [reflexivity |];
       cbn [valid verifiedMessage verifiedPublicKey];
       repeat split; try discriminate;
       intros (v' & P' & R & s & m & _ & _ & HP & _); discriminate.
  destruct (unpackPoint (hexToBuffer (R8 signature))) as [e | [R |]] eqn:ER;
    cbn [call bind catch].
  1,3: eexists; split; [reflexivity |];
       cbn [valid verifiedMessage verifiedPublicKey];
       repeat split; try discriminate;
       intros (v' & P' & R' & s & m & _ & _ & _ & HR & _); discriminate.
  destruct (BigIntOfString (signatureS signature)) as [s | e |] eqn:ES;
    cbn [bind catch].
  3:{ unfold BigIntOfString in ES.
      destruct (StringToBigInt (signatureS signature)); discriminate. }
  2:{ eexists. split; [reflexivity |].
      cbn [valid verifiedMessage verifiedPublicKey].
      repeat split; try discriminate.
      intros (v' & P' & R' & s & m & _ & _ & _ & _ & Hs & _). discriminate. }
  destruct (BigIntOfString (messageHash signature)) as [m | e |] eqn:EM;
    cbn [bind catch].
  3:{ unfold BigIntOfString in EM.
      destruct (StringToBigInt (messageHash signature)); discriminate. }
  2:{ eexists. split; [reflexivity |].
      cbn [valid verifiedMessage verifiedPublicKey].
      repeat split; try discriminate.
      intros (v' & P' & R' & s' & m & _ & _ & _ & _ & _ & Hm & _).
      discriminate. }
  destruct (verifyPoseidon m (R, s) P) as [e | flag] eqn:EV;
    cbn [call bind catch].
  { eexists. split; [reflexivity |].
    cbn [valid verifiedMessage verifiedPublicKey].
    repeat split; try discriminate.
    intros (v' & P' & R' & s' & m' & _ & _ & HP & HR & Hs & Hm & Hok).
    injection HP as <-. injection HR as <-. injection Hs as <-.
    injection Hm as <-. rewrite EV in Hok. discriminate. }
  eexists. split; [reflexivity |].
  cbn [valid verifiedMessage verifiedPublicKey].
  split; [reflexivity |]. split; [reflexivity |]. split.
  - intros ->. exists v, P, R, s, m.
    split; [reflexivity |]. split.
    { destruct (decide (toLowerCase (fieldToHex v)
                        = toLowerCase (messageHash signature)))
        as [Heq | Hne]; [exact Heq | contradiction]. }
    repeat split; assumption.
  - intros (v' & P' & R' & s' & m' & _ & _ & HP & HR & Hs & Hm & Hok).
    injection HP as <-. injection HR as <-. injection Hs as <-.
    injection Hm as <-. rewrite EV in Hok. injection Hok as ->. reflexivity.
Qed.

End SignVerifyProperties.

(* ===================================================================== *)
(** * Properties of the MiMC entry *)
(* ===================================================================== *)

Section MimcProperties.
Import Js Mimc.

(** X28: [hash.mimc] never throws; its [hash] is "0x" followed by 64
    lower-case hexadecimal digits, which [BigInt] reads back as the value
    of the MiMC hash of the input's field element under the key's field
    element.  An absent key and an empty key both stand for the key
    field 0 and are reported as the key "0"; every key whose field
    element is 0, such as a key of NUL characters, gives the same hash
    as no key. *)
Theorem hash_mimc_outcome (oracle : MimcOracle) (text : jsstring)
    (k : option jsstring) :
  length (hash (mimc text k)) = 66%nat
  /\ Forall isLowerAlnum (hash (mimc text k))
  /\ BigIntOfString (hash (mimc text k))
     = Ok (multiHash [first31BytesValue text]
             (match k with
              | Some (c :: k') => first31BytesValue (c :: k')
              | _ => 0
              end))
  /\ mimc text (Some []) = mimc text None
  /\ key (mimc text None) = str "0"
  /\ (forall k', k = Some k' -> first31BytesValue k' = 0 ->
      hash (mimc text k) = hash (mimc text None)).
Proof.
  unfold mimc. cbn [hash key]. unfold Hash.stringToFieldElement.
  rewrite !accumulateBytes_first31.
  set (keyField := match k with
                   | Some (c :: k') => accumulateBytes (encodeUtf8 (c :: k'))
                   | _ => 0
                   end).
  assert (keyField = match k with
                     | Some (c :: k') => first31BytesValue (c :: k')
                     | _ => 0
                     end) as Hkey.
  { unfold keyField. destruct k as [[| c k'] |]; try reflexivity.
    apply accumulateBytes_first31. }
  pose proof (multiHash_range [first31BytesValue text] keyField) as Hrange.
  change (str "0x" ++ padStart 64 48
            (Sign.BigIntToString16
               (multiHash [first31BytesValue text] keyField)))
    with (Sign.fieldToHex (multiHash [first31BytesValue text] keyField)).
  split; [apply fieldToHex_length; change (2 ^ 256) with (4 * 2 ^ 254); lia |].
  split; [apply fieldToHex_lower; lia |].
  split; [rewrite <- Hkey; apply BigIntOfString_fieldToHex; lia |].
  split; [reflexivity |]. split; [reflexivity |].
  intros k' -> Hzero. unfold keyField.
  destruct k' as [| c k']; [reflexivity |].
  rewrite accumulateBytes_first31, Hzero. reflexivity.
Qed.

End MimcProperties.
